(** * Batched camera sensor (omni.isaac.orbit.sensors.camera.Camera)

    A shallow embedding of [camera.py]: the per-slot bookkeeping of the
    batched camera (frame counters, poses, intrinsic matrices, lazily
    allocated output buffers), the constructor checks and the
    initialization against the scene graph.

    Conventions of the embedding:
    - Python floats and float tensors are read as real numbers ([R]);
      rounding is not modelled.
    - [torch.long] frame counters are [Z] with the 64-bit wrap written out.
    - Python exceptions are values of [exn]; a method that mutates [self]
      and may raise is a function [Camera -> result A * Camera], so that
      what was written before the exception stays written.
    - Slot indices are natural numbers; an index past the end raises
      [IndexError] (Python's negative indices are outside the model). *)

From Stdlib Require Import Reals Lra ZArith.
From Stdlib Require Import Ascii String.
From stdpp Require Import base option list strings gmap.

Set Default Proof Using "Type".

(** ** Numeric data *)

Record vec3 := Vec3 { vx : R; vy : R; vz : R }.

(** Quaternions are stored as (w, x, y, z), as in the docstrings. *)
Record quat := Quat { qw : R; qx : R; qy : R; qz : R }.

(** A 3x3 matrix, row-major: [mRC] is the entry [M[R, C]]. *)
Record mat3 := Mat3 {
  m00 : R; m01 : R; m02 : R;
  m10 : R; m11 : R; m12 : R;
  m20 : R; m21 : R; m22 : R
}.

Definition vec3_zero : vec3 := Vec3 0 0 0.
Definition quat_zero : quat := Quat 0 0 0 0.
Definition mat3_zero : mat3 := Mat3 0 0 0 0 0 0 0 0 0.

Section quaternions.
Local Open Scope R_scope.

Definition quat_mul (a b : quat) : quat :=
    Quat (qw a * qw b - qx a * qx b - qy a * qy b - qz a * qz b)
         (qw a * qx b + qx a * qw b + qy a * qz b - qz a * qy b)
         (qw a * qy b - qx a * qz b + qy a * qw b + qz a * qx b)
         (qw a * qz b + qx a * qy b - qy a * qx b + qz a * qw b).

Definition quat_conjugate (a : quat) : quat :=
    Quat (qw a) (- qx a) (- qy a) (- qz a).

Definition quat_norm2 (a : quat) : R :=
    qw a * qw a + qx a * qx a + qy a * qy a + qz a * qz a.

  (** The image of the vector [v] under the quaternion [q]: the vector
      part of [q v q*]. For a unit quaternion this is the rotation matrix
      of [q] applied to [v]. *)
Definition quat_apply (q : quat) (v : vec3) : vec3 :=
    let 'Quat w x y z := q in
    let 'Vec3 a b c := v in
    Vec3 ((w * w + x * x - y * y - z * z) * a + 2 * (x * y - z * w) * b
            + 2 * (x * z + y * w) * c)
         (2 * (x * y + z * w) * a + (w * w - x * x + y * y - z * z) * b
            + 2 * (y * z - x * w) * c)
         (2 * (x * z - y * w) * a + 2 * (y * z + x * w) * b
            + (w * w - x * x - y * y + z * z) * c).
End quaternions.

(** ** Orientation conventions *)

(** The three values of the [convention] argument:
    - [opengl]: forward axis -Z, up axis +Y (the USD camera);
    - [ros]:    forward axis +Z, up axis -Y;
    - [world]:  forward axis +X, up axis +Z. *)
Inductive convention := opengl | ros | world.

Global Instance convention_eq_dec : EqDecision convention.
Proof. solve_decision. Defined.

Definition forward_axis (c : convention) : vec3 :=
  match c with
  | opengl => Vec3 0 0 (-1)
  | ros => Vec3 0 0 1
  | world => Vec3 1 0 0
  end.

Definition up_axis (c : convention) : vec3 :=
  match c with
  | opengl => Vec3 0 1 0
  | ros => Vec3 0 (-1) 0
  | world => Vec3 0 0 1
  end.

(** The fixed rotation that re-expresses an OpenGL camera frame in the
    ROS frame: a half turn about the camera's X axis. *)
Definition opengl_to_ros : quat := Quat 0 1 0 0.

(** The fixed rotation that re-expresses an OpenGL camera frame in the
    world-style frame (X forward, Z up). *)
Definition opengl_to_world : quat := Quat (1 / 2) (- (1 / 2)) (1 / 2) (1 / 2).

(** Modelled from the spec: [convert_orientation_convention] of
    [sensors/camera/utils.py], which is not under src/. The spec (4.1)
    fixes the three conventions by their forward and up axes and says that
    the conversion is a fixed rotation composed with the orientation, per
    pair of conventions, and that going there and back is the identity.
    The orientation is first brought to OpenGL, then to the target; the
    fixed rotation is composed on the right (it acts in the camera frame). *)
Definition convert_orientation_convention
    (orientation : quat) (origin target : convention) : quat :=
  if decide (target = origin) then orientation
  else
    let quat_gl :=
      match origin with
      | ros => quat_mul orientation (quat_conjugate opengl_to_ros)
      | world => quat_mul orientation (quat_conjugate opengl_to_world)
      | opengl => orientation
      end in
    match target with
    | ros => quat_mul quat_gl opengl_to_ros
    | world => quat_mul quat_gl opengl_to_world
    | opengl => quat_gl
    end.

(** ** Exceptions and results *)

Inductive exn :=
  | RuntimeError
  | ValueError
  | AttributeError
  | IndexError
  | KeyError
  | ZeroDivisionError
  | TypeError
  | CaptureError.

Global Instance exn_eq_dec : EqDecision exn.
Proof. solve_decision. Defined.

Inductive result (A : Type) :=
  | Ok (a : A)
  | Raise (e : exn).
Arguments Ok {A} a.
Arguments Raise {A} e.

Definition is_ok {A} (r : result A) : bool :=
  match r with Ok _ => true | Raise _ => false end.

(** [RuntimeError]-class and [ValueError]-class exceptions. None of the
    other classes that occur here derives from either. *)
Definition is_runtime_error (e : exn) : bool :=
  match e with RuntimeError => true | _ => false end.
Definition is_value_error (e : exn) : bool :=
  match e with ValueError => true | _ => false end.

(** A computation over a mutable object of type [S] that may raise: the
    object is returned in both cases, with whatever was written to it
    before the exception. *)
Definition M (S A : Type) : Type := S → result A * S.

Global Instance M_ret {S} : MRet (M S) := λ A a s, (Ok a, s).
Global Instance M_bind {S} : MBind (M S) := λ A B f m s,
  match m s with
  | (Ok a, s') => f a s'
  | (Raise e, s') => (Raise e, s')
  end.

Definition raise {S A} (e : exn) : M S A := λ s, (Raise e, s).
Definition get {S} : M S S := λ s, (Ok s, s).
Definition gets {S A} (f : S → A) : M S A := λ s, (Ok (f s), s).
Definition modify {S} (f : S → S) : M S unit := λ s, (Ok tt, f s).
Definition lift {S A} (r : result A) : M S A := λ s, (r, s).

(** [l[i]] on a Python list or a tensor's leading dimension. *)
Definition index {S A} (l : list A) (i : nat) : M S A :=
  match l !! i with
  | Some a => mret a
  | None => raise IndexError
  end.

(** [for x in l: body x]. *)
Fixpoint for_each {S A} (l : list A) (body : A → M S unit) : M S unit :=
  match l with
  | [] => mret tt
  | x :: l' => body x ;; for_each l' body
  end.

(** ** Tensors and capture payloads *)

(** An array as the capture backend hands it out: a shape and the
    flattened elements. *)
Record ndarray := NdArray { a_shape : list nat; a_vals : list Z }.

(** A torch tensor: an array on a device. *)
Record Tensor := MkTensor { t_device : string; t_shape : list nat; t_vals : list Z }.

Global Instance ndarray_eq_dec : EqDecision ndarray.
Proof. solve_decision. Defined.
Global Instance Tensor_eq_dec : EqDecision Tensor.
Proof. solve_decision. Defined.

(** Modelled from the spec: [convert_to_torch] of [utils/array.py], which is
    not under src/. The spec (5) asks that data be staged onto the batch's
    designated compute device before it is written; the elements are not
    touched. *)
Definition convert_to_torch (a : ndarray) (device : string) : Tensor :=
  MkTensor device (a_shape a) (a_vals a).

(** The side-channel metadata of an annotator (for instance the id-to-label
    table of a segmentation output). *)
Definition info_t : Type := list (string * string).

(** What [annotator.get_data()] returns: a plain array, or a dict that may
    carry a ["data"] and an ["info"] entry. *)
Inductive payload :=
  | PlainPayload (a : ndarray)
  | DictPayload (data : option ndarray) (info : option info_t).

(** [torch.stack(tensors, dim=0)]: the tensors become the slices of a new
    leading dimension, kept here as a list of slices. The list must be
    non-empty and all shapes equal. *)
Definition same_shape (t u : Tensor) : bool :=
  bool_decide (t_shape t = t_shape u).

Definition stack (ts : list Tensor) : result (list Tensor) :=
  match ts with
  | [] => Raise RuntimeError
  | t :: _ => if forallb (same_shape t) ts then Ok ts else Raise RuntimeError
  end.

(** [buffer[index] = data] on a batched buffer: the slice at [index] is
    overwritten; the index must exist and [data] must have the shape of a
    slice (broadcasting of a smaller [data] is not modelled). *)
Definition setitem (buffer : list Tensor) (i : nat) (data : Tensor)
  : result (list Tensor) :=
  match buffer !! i with
  | None => Raise IndexError
  | Some old =>
      if same_shape old data then Ok (<[i := data]> buffer)
      else Raise RuntimeError
  end.

(** ** Device names *)

(** [name in self._device] for the literal ["cuda"], and
    [self._device.split(":")[0]]. *)
Fixpoint contains_cuda (s : string) : bool :=
  match s with
  | EmptyString => false
  | String _ s' => String.prefix "cuda" s || contains_cuda s'
  end.

Fixpoint before_colon (s : string) : string :=
  match s with
  | EmptyString => EmptyString
  | String c s' =>
      if Ascii.eqb c ":"%char then EmptyString else String c (before_colon s')
  end.

Definition resolve_device_name (device : string) : string :=
  if contains_cuda device then before_colon device else "cpu".

(** ** Matrices handed in by the caller *)

(** The [matrices] argument of [set_intrinsic_matrices]: a torch tensor of
    shape (N, 3, 3) that lives on a device. A numpy array or a nested list
    counts as being on the host (["cpu"]). *)
Record MatrixBatch := MkMatrixBatch {
  mb_device : string;
  mb_rows : list mat3
}.

(** Whether a tensor on [device] is in host memory: the device type (what
    comes before the colon) is ["cpu"]. *)
Definition on_host (device : string) : bool :=
  bool_decide (before_colon device = "cpu").

(** [np.asarray(matrix, dtype=float)] on one row of the batch. A tensor
    that is not in host memory cannot be converted: [Tensor.__array__]
    raises [TypeError] ("can't convert cuda:0 device type tensor to
    numpy"). The entries themselves are not changed. *)
Definition np_asarray (device : string) (matrix : mat3) : result mat3 :=
  if on_host device then Ok matrix else Raise TypeError.

(** ** The scene graph *)

(** The lens attributes of a USD camera that this class reads or writes. *)
Record Lens := MkLens {
  focal_length : R;
  horizontal_aperture : R;
  vertical_aperture : R;
  horizontal_aperture_offset : R;
  vertical_aperture_offset : R
}.

(** A prim of the stage: its path, whether it is a [UsdGeom.Camera], its
    lens attributes and its world pose (orientation in the OpenGL
    convention of USD cameras). *)
Record Prim := MkPrim {
  path : string;
  is_camera : bool;
  lens : Lens;
  world_position : vec3;
  world_orientation : quat
}.

(** The stage; a prim handle is the position of the prim in it. The
    simulator owns the stage and may change it between two calls. *)
Definition Stage : Type := list Prim.

(** [XFormPrimView]: the handles of the prims that the path pattern
    resolved to when the view was initialized. *)
Record View := MkView { view_prims : list nat }.

Definition count (v : View) : nat := length (view_prims v).

(** The [init_params] handed to the annotator registry. *)
Inductive init_params :=
  | NoParams
  | SemanticTypes (types : list string)
  | SemanticTypesColorize (types : list string) (colorize : bool)
  | Colorize (colorize : bool).

Global Instance init_params_eq_dec : EqDecision init_params.
Proof. solve_decision. Defined.

(** An annotator of the replicator registry: the data type it produces,
    what it was created with, and the render product it is attached to. *)
Record Annotator := MkAnnotator {
  an_name : string;
  an_init_params : init_params;
  an_device : string;
  an_render_product : string
}.

Global Instance Annotator_eq_dec : EqDecision Annotator.
Proof. solve_decision. Defined.

(** The simulator as one call sees it: the stage and what each attached
    annotator returns (or raises) when asked for its data. *)
Record Sim := MkSim {
  stage : Stage;
  get_data : Annotator → result payload
}.

(** ** Configuration *)

Record OffsetCfg := MkOffsetCfg {
  pos : vec3;
  rot : quat;
  offset_convention : convention
}.

(** [CameraCfg]. [spawn] is [cfg.spawn.func] when a spawner is configured:
    it is called with the prim path, the translation and the orientation
    and changes the stage. *)
Record CameraCfg := MkCameraCfg {
  prim_path : string;
  data_types : list string;
  height : nat;
  width : nat;
  offset : OffsetCfg;
  spawn : option (string → vec3 → quat → Stage → Stage);
  semantic_types : list string;
  colorize : bool
}.

(** ** The data container ([CameraData]) *)

Record CameraData := MkCameraData {
  pos_w : list vec3;
  quat_w_world : list quat;
  intrinsic_matrices : list mat3;
  image_shape_d : nat * nat;
  output : gmap string (list Tensor);
  info : list (gmap string (option info_t))
}.

(** [CameraData()]: nothing filled in yet. *)
Definition CameraData_new : CameraData :=
  MkCameraData [] [] [] (0, 0) ∅ [].

Definition set_pos_w (f : list vec3 → list vec3) (d : CameraData) :=
  MkCameraData (f (pos_w d)) (quat_w_world d) (intrinsic_matrices d)
    (image_shape_d d) (output d) (info d).
Definition set_quat_w_world (f : list quat → list quat) (d : CameraData) :=
  MkCameraData (pos_w d) (f (quat_w_world d)) (intrinsic_matrices d)
    (image_shape_d d) (output d) (info d).
Definition set_intrinsic_matrices_d (f : list mat3 → list mat3) (d : CameraData) :=
  MkCameraData (pos_w d) (quat_w_world d) (f (intrinsic_matrices d))
    (image_shape_d d) (output d) (info d).
Definition set_output (f : gmap string (list Tensor) → gmap string (list Tensor))
    (d : CameraData) :=
  MkCameraData (pos_w d) (quat_w_world d) (intrinsic_matrices d)
    (image_shape_d d) (f (output d)) (info d).
Definition set_info
    (f : list (gmap string (option info_t)) → list (gmap string (option info_t)))
    (d : CameraData) :=
  MkCameraData (pos_w d) (quat_w_world d) (intrinsic_matrices d)
    (image_shape_d d) (output d) (f (info d)).

(** ** Strings of the constructor's path check *)

Section path_check.

  (** [s.split("/")[-1]]: what follows the last slash. *)
Fixpoint last_segment_from (acc s : string) : string :=
    match s with
    | EmptyString => acc
    | String c s' =>
        if Ascii.eqb c "/"%char then last_segment_from EmptyString s'
        else last_segment_from (acc +:+ String c EmptyString) s'
    end.
Definition last_segment (s : string) : string :=
    last_segment_from EmptyString s.

  (** The character class [[a-zA-Z0-9/_]]. *)
Definition in_leaf_class (c : ascii) : bool :=
    let n := nat_of_ascii c in
    ((97 <=? n) && (n <=? 122)) || ((65 <=? n) && (n <=? 90))
    || ((48 <=? n) && (n <=? 57)) || Ascii.eqb c "/"%char || Ascii.eqb c "_"%char.

  (** After the first character of the class: more of them, up to the end
      of the string or up to one final newline (where [$] also matches). *)
Fixpoint leaf_tail_matches (s : string) : bool :=
    match s with
    | EmptyString => true
    | String c s' =>
        if in_leaf_class c then leaf_tail_matches s'
        else Ascii.eqb c "010"%char && bool_decide (s' = EmptyString)
    end.

  (** [re.match(r"^[a-zA-Z0-9/_]+$", s) is not None]. *)
Definition leaf_re_match (s : string) : bool :=
    match s with
    | EmptyString => false
    | String c s' => in_leaf_class c && leaf_tail_matches s'
    end.
End path_check.

(** [UNSUPPORTED_TYPES]. *)
Definition UNSUPPORTED_TYPES : list string :=
  ["bounding_box_2d_tight"; "bounding_box_2d_loose"; "bounding_box_3d"]%string.

(** [_check_supported_data_types]: the intersection of the requested types
    with [UNSUPPORTED_TYPES] must be empty. *)
Definition common_elements (cfg : CameraCfg) : list string :=
  filter (λ name, name ∈ UNSUPPORTED_TYPES) (data_types cfg).

Definition _check_supported_data_types (cfg : CameraCfg) : result unit :=
  match common_elements cfg with
  | [] => Ok tt
  | _ :: _ => Raise ValueError
  end.

(** [_rep_registry]: a dict from the name of a data type to the list of its
    annotators. Python dicts keep insertion order and the refresh iterates
    over it, so it is an association list with unique keys. *)
Definition registry : Type := list (string * list Annotator).

Fixpoint registry_lookup (reg : registry) (name : string) : option (list Annotator) :=
  match reg with
  | [] => None
  | (k, v) :: reg' => if decide (k = name) then Some v else registry_lookup reg' name
  end.

(** [{name: list() for name in names}]. *)
Fixpoint registry_new (names : list string) : registry :=
  match names with
  | [] => []
  | name :: names' =>
      (name, []) :: filter (λ kv, kv.1 ≠ name) (registry_new names')
  end.

(** [reg[name].append(a)]. *)
Fixpoint registry_append (name : string) (a : Annotator) (reg : registry) : registry :=
  match reg with
  | [] => []
  | (k, v) :: reg' =>
      if decide (k = name) then (k, v ++ [a]) :: reg'
      else (k, v) :: registry_append name a reg'
  end.

Section camera.
  (** The part of the object that belongs to [SensorBase]
      ([sensor_base.py] is not under src/): its state, its constructor,
      which validates and stores the configuration, and its [reset]. *)
Context {Base : Type}.
Variable super_init : CameraCfg → result Base.
Variable super_reset : option (list nat) → Base → Base.

  (** [sim_utils.find_matching_prims] (not under src/): the handles of the
      prims of the stage whose path matches the pattern, in order. The view
      resolves its pattern with it too. *)
Variable find_matching_prims : string → Stage → list nat.

  (** [rep.create.render_product(path, resolution).path] (the replicator
      extension): the path of the render product created for a camera. *)
Variable render_product : string → nat * nat → string.

  (** ** The camera object *)

Record Camera := MkCamera {
    cfg : CameraCfg;
    base : Base;
    _is_initialized : bool;
    _device : string;
    _num_envs : nat;
    _view : option View;
    _ALL_INDICES : list nat;
    _frame : list Z;
    _sensor_prims : list nat;
    _render_product_paths : list string;
    _rep_registry : registry;
    _data : CameraData
  }.

Definition set_base (f : Base → Base) (c : Camera) :=
    MkCamera (cfg c) (f (base c)) (_is_initialized c) (_device c) (_num_envs c)
      (_view c) (_ALL_INDICES c) (_frame c) (_sensor_prims c)
      (_render_product_paths c) (_rep_registry c) (_data c).
Definition set_is_initialized (b : bool) (c : Camera) :=
    MkCamera (cfg c) (base c) b (_device c) (_num_envs c)
      (_view c) (_ALL_INDICES c) (_frame c) (_sensor_prims c)
      (_render_product_paths c) (_rep_registry c) (_data c).
Definition set_device_num_envs (device : string) (n : nat) (c : Camera) :=
    MkCamera (cfg c) (base c) (_is_initialized c) device n
      (_view c) (_ALL_INDICES c) (_frame c) (_sensor_prims c)
      (_render_product_paths c) (_rep_registry c) (_data c).
Definition set_view (v : option View) (c : Camera) :=
    MkCamera (cfg c) (base c) (_is_initialized c) (_device c) (_num_envs c)
      v (_ALL_INDICES c) (_frame c) (_sensor_prims c)
      (_render_product_paths c) (_rep_registry c) (_data c).
Definition set_ALL_INDICES (l : list nat) (c : Camera) :=
    MkCamera (cfg c) (base c) (_is_initialized c) (_device c) (_num_envs c)
      (_view c) l (_frame c) (_sensor_prims c)
      (_render_product_paths c) (_rep_registry c) (_data c).
Definition set_frame (f : list Z → list Z) (c : Camera) :=
    MkCamera (cfg c) (base c) (_is_initialized c) (_device c) (_num_envs c)
      (_view c) (_ALL_INDICES c) (f (_frame c)) (_sensor_prims c)
      (_render_product_paths c) (_rep_registry c) (_data c).
Definition set_sensor_prims (f : list nat → list nat) (c : Camera) :=
    MkCamera (cfg c) (base c) (_is_initialized c) (_device c) (_num_envs c)
      (_view c) (_ALL_INDICES c) (_frame c) (f (_sensor_prims c))
      (_render_product_paths c) (_rep_registry c) (_data c).
Definition set_render_product_paths (f : list string → list string) (c : Camera) :=
    MkCamera (cfg c) (base c) (_is_initialized c) (_device c) (_num_envs c)
      (_view c) (_ALL_INDICES c) (_frame c) (_sensor_prims c)
      (f (_render_product_paths c)) (_rep_registry c) (_data c).
Definition set_rep_registry (f : registry → registry) (c : Camera) :=
    MkCamera (cfg c) (base c) (_is_initialized c) (_device c) (_num_envs c)
      (_view c) (_ALL_INDICES c) (_frame c) (_sensor_prims c)
      (_render_product_paths c) (f (_rep_registry c)) (_data c).
Definition set_data (f : CameraData → CameraData) (c : Camera) :=
    MkCamera (cfg c) (base c) (_is_initialized c) (_device c) (_num_envs c)
      (_view c) (_ALL_INDICES c) (_frame c) (_sensor_prims c)
      (_render_product_paths c) (_rep_registry c) (f (_data c)).

  (** [image_shape]: (height, width). *)
Definition image_shape (c : Camera) : nat * nat :=
    (height (cfg c), width (cfg c)).

  (** [self._view.count]; the attribute lookup fails on a view that was never
      created or was invalidated. *)
Definition view_count : M Camera nat :=
    c ← get;
    match _view c with
    | Some v => mret (count v)
    | None => raise AttributeError
    end.

  (** ** Construction *)

  (** The calls into the scene graph that the constructor makes, in order. *)
Inductive scene_call := CallSpawn | CallFindMatchingPrims.

  (** The world of the constructor: the stage and the log of calls made. *)
Definition call (e : scene_call) (f : Stage → Stage) : M (Stage * list scene_call) unit :=
    modify (λ w, (f w.1, w.2 ++ [e])).

  (** [self.cfg] on the object under construction: the attribute exists
      once [SensorBase.__init__] has stored it, not before (the class body
      only annotates [cfg]). *)
Definition getattr_cfg {S} (self_cfg : option CameraCfg) : M S CameraCfg :=
    match self_cfg with
    | Some c => mret c
    | None => raise AttributeError
    end.

Definition __init__ (cfg : CameraCfg) : M (Stage * list scene_call) Camera :=
    (* check if sensor path is valid *)
    let sensor_path := last_segment (prim_path cfg) in
    let sensor_path_is_regex := negb (leaf_re_match sensor_path) in
    (if sensor_path_is_regex then
       (* the message is formatted from self.cfg.prim_path first *)
       _ ← getattr_cfg None;
       raise RuntimeError
     else mret tt) ;;
    (* perform check on supported data types *)
    lift (_check_supported_data_types cfg) ;;
    (* initialize base class *)
    b ← lift (super_init cfg);
    (* spawn the asset *)
    match spawn cfg with
    | Some func =>
        let rot_offset :=
          convert_orientation_convention (rot (offset cfg))
            (offset_convention (offset cfg)) opengl in
        call CallSpawn (func (prim_path cfg) (pos (offset cfg)) rot_offset)
    | None => mret tt
    end ;;
    (* check that spawn was successful *)
    call CallFindMatchingPrims (λ st, st) ;;
    w ← get;
    let matching_prims := find_matching_prims (prim_path cfg) w.1 in
    if decide (length matching_prims = 0) then raise RuntimeError
    else
      mret (MkCamera cfg b false EmptyString 0 None [] [] [] [] [] CameraData_new).

  (** ** Indexed reads and writes on batched buffers *)

  (** [[l[i] for i in ids]]. *)
Fixpoint gather {A} (l : list A) (ids : list nat) : result (list A) :=
    match ids with
    | [] => Ok []
    | i :: ids' =>
        match l !! i, gather l ids' with
        | Some a, Ok r => Ok (a :: r)
        | None, _ => Raise IndexError
        | _, Raise e => Raise e
        end
    end.

  (** [l[ids] = vals]: one value per index, written in order; nothing is
      written when an index is out of range or the lengths differ. *)
Fixpoint index_put {A} (l : list A) (ids : list nat) (vals : list A)
    : result (list A) :=
    match ids, vals with
    | [], [] => Ok l
    | i :: ids', v :: vals' =>
        if decide (i < length l) then index_put (<[i := v]> l) ids' vals'
        else Raise IndexError
    | _, _ => Raise RuntimeError
    end.

  (** [l[ids] = v] with a scalar on the right. *)
Definition index_fill {A} (l : list A) (ids : list nat) (v : A) : result (list A) :=
    index_put l ids (replicate (length ids) v).

  (** Signed 64-bit wrap-around of a [torch.long]. *)
Definition wrap64 (z : Z) : Z :=
    ((z + 2 ^ 63) mod 2 ^ 64 - 2 ^ 63)%Z.

  (** [self._frame[env_ids] += 1]: the old counters are read, incremented
      and written back, so an index that occurs twice is incremented once. *)
Definition increment_frame (env_ids : list nat) : M Camera unit :=
    c ← get;
    old ← lift (gather (_frame c) env_ids);
    new ← lift (index_put (_frame c) env_ids ((λ z, wrap64 (z + 1)) <$> old));
    modify (set_frame (λ _, new)).

  (** ** The view *)

  (** The prim behind a handle. A handle that no longer points to a prim
      makes USD raise (a [RuntimeError] subclass). *)
Definition deref {S} (st : Stage) (handle : nat) : M S Prim :=
    match st !! handle with
    | Some p => mret p
    | None => raise RuntimeError
    end.

Definition the_view : M Camera View :=
    c ← get;
    match _view c with
    | Some v => mret v
    | None => raise AttributeError
    end.

  (** [self._view.get_world_poses(env_ids)]: positions and orientations of
      the addressed prims, one row per index. *)
Fixpoint get_world_poses (st : Stage) (v : View) (env_ids : list nat)
    : result (list vec3 * list quat) :=
    match env_ids with
    | [] => Ok ([], [])
    | i :: env_ids' =>
        match view_prims v !! i with
        | None => Raise IndexError
        | Some handle =>
            match st !! handle with
            | None => Raise RuntimeError
            | Some p =>
                match get_world_poses st v env_ids' with
                | Ok (ps, qs) => Ok (world_position p :: ps, world_orientation p :: qs)
                | Raise e => Raise e
                end
            end
        end
    end.

  (** ** Buffers *)

  (** [_create_buffers]. *)
Definition _create_buffers : M Camera unit :=
    n ← view_count;
    c ← get;
    modify (set_data (λ _,
      MkCameraData
        (replicate n vec3_zero)
        (replicate n quat_zero)
        (replicate n mat3_zero)
        (image_shape c)
        ∅
        (replicate n (list_to_map ((λ name, (name, None)) <$> data_types (cfg c)))))).

  (** ** Initialization *)

Definition annotator_init_params (c : CameraCfg) (name : string) : init_params :=
    if bool_decide (name ∈ ["bounding_box_2d_tight"; "bounding_box_2d_loose"; "bounding_box_3d"])
    then SemanticTypes (semantic_types c)
    else if bool_decide (name ∈ ["semantic_segmentation"; "instance_segmentation"])
    then SemanticTypesColorize (semantic_types c) (colorize c)
    else if bool_decide (name ∈ ["instance_id_segmentation"])
    then Colorize (colorize c)
    else NoParams.

  (** [_initialize_impl]. [device] and [num_envs] are what
      [super()._initialize_impl()] stores in [_device] and [_num_envs]. *)
Definition _initialize_impl (sim : Sim) (device : string) (num_envs : nat)
    : M Camera unit :=
    (* Initialize parent class *)
    modify (set_device_num_envs device num_envs) ;;
    c ← get;
    (* Create a view for the sensor *)
    let view := MkView (find_matching_prims (prim_path (cfg c)) (stage sim)) in
    modify (set_view (Some view)) ;;
    (* Check that sizes are correct *)
    (if decide (count view ≠ num_envs) then raise RuntimeError else mret tt) ;;
    (* Create all env_ids buffer *)
    modify (set_ALL_INDICES (seq 0 (count view))) ;;
    (* Create frame count buffer *)
    modify (set_frame (λ _, replicate (count view) 0%Z)) ;;
    (* Attach the sensor data types to render node *)
    modify (set_render_product_paths (λ _, [])) ;;
    modify (set_rep_registry (λ _, registry_new (data_types (cfg c)))) ;;
    let device_name := resolve_device_name device in
    (* Convert all encapsulated prims to Camera *)
    for_each (view_prims view) (λ cam_prim_path,
      cam_prim ← deref (stage sim) cam_prim_path;
      (if is_camera cam_prim then mret tt else raise RuntimeError) ;;
      modify (set_sensor_prims (λ l, l ++ [cam_prim_path])) ;;
      let render_prod_path :=
        render_product (path cam_prim) (width (cfg c), height (cfg c)) in
      modify (set_render_product_paths (λ l, l ++ [render_prod_path])) ;;
      for_each (data_types (cfg c)) (λ name,
        let rep_annotator :=
          MkAnnotator name (annotator_init_params (cfg c) name) device_name
            render_prod_path in
        modify (set_rep_registry (registry_append name rep_annotator)))) ;;
    (* Create internal buffers *)
    _create_buffers.

  (** Modelled from the spec: the initialization callback of [SensorBase]
      ([sensor_base.py] is not under src/). By 4.5 and 7 the batch is
      ready once initialization has completed, and an error raised during
      initialization keeps it from becoming ready. *)
Definition initialize (sim : Sim) (device : string) (num_envs : nat)
    : M Camera unit :=
    c ← get;
    if _is_initialized c then mret tt
    else
      _initialize_impl sim device num_envs ;;
      modify (set_is_initialized true).

  (** ** Intrinsic matrices *)

  (** [M[r, c] = v] on a 3x3 matrix, for the entries that are written. *)
Definition mat3_set (r c : nat) (v : R) (m : mat3) : mat3 :=
    match r, c with
    | 0, 0 => Mat3 v (m01 m) (m02 m) (m10 m) (m11 m) (m12 m) (m20 m) (m21 m) (m22 m)
    | 0, 2 => Mat3 (m00 m) (m01 m) v (m10 m) (m11 m) (m12 m) (m20 m) (m21 m) (m22 m)
    | 1, 1 => Mat3 (m00 m) (m01 m) (m02 m) (m10 m) v (m12 m) (m20 m) (m21 m) (m22 m)
    | 1, 2 => Mat3 (m00 m) (m01 m) (m02 m) (m10 m) (m11 m) v (m20 m) (m21 m) (m22 m)
    | 2, 2 => Mat3 (m00 m) (m01 m) (m02 m) (m10 m) (m11 m) (m12 m) (m20 m) (m21 m) v
    | _, _ => m
    end.

  (** [self._data.intrinsic_matrices[i, r, c] = v]. *)
Definition write_intrinsic (i r c : nat) (v : R) : M Camera unit :=
    s ← get;
    m ← index (intrinsic_matrices (_data s)) i;
    modify (set_data (set_intrinsic_matrices_d (<[i := mat3_set r c v m]>))).

  (** Division of two Python floats. *)
Definition py_div {S} (a b : R) : M S R :=
    if Req_dec_T b 0 then raise ZeroDivisionError else mret (a / b)%R.

  (** [_update_intrinsic_matrices]. *)
Definition _update_intrinsic_matrices (sim : Sim) (env_ids : list nat)
    : M Camera unit :=
    (* iterate over all cameras *)
    for_each env_ids (λ i,
      s ← get;
      (* Get corresponding sensor prim *)
      sensor_prim ← index (_sensor_prims s) i;
      (* get camera parameters *)
      prim ← deref (stage sim) sensor_prim;
      let focal_length := focal_length (lens prim) in
      let horiz_aperture := horizontal_aperture (lens prim) in
      (* get viewport parameters *)
      let '(height, width) := image_shape s in
      (* calculate the field of view *)
      ratio ← py_div horiz_aperture (2 * focal_length)%R;
      let fov := (2 * atan ratio)%R in
      (* calculate the focal length in pixels *)
      focal_px ← py_div (INR width * 0.5)%R (tan (fov / 2));
      (* create intrinsic matrix for depth linear *)
      write_intrinsic i 0 0 focal_px ;;
      write_intrinsic i 0 2 (INR width * 0.5)%R ;;
      write_intrinsic i 1 1 focal_px ;;
      write_intrinsic i 1 2 (INR height * 0.5)%R ;;
      write_intrinsic i 2 2 1%R).

  (** ** Poses *)

  (** [_update_poses]. *)
Definition _update_poses (sim : Sim) (env_ids : list nat) : M Camera unit :=
    s ← get;
    (* check camera prim exists *)
    (if decide (length (_sensor_prims s) = 0) then raise RuntimeError else mret tt) ;;
    (* get the poses from the view *)
    v ← the_view;
    '(poses, quat) ← lift (get_world_poses (stage sim) v env_ids);
    new_pos ← lift (index_put (pos_w (_data s)) env_ids poses);
    modify (set_data (set_pos_w (λ _, new_pos))) ;;
    new_quat ← lift (index_put (quat_w_world (_data s)) env_ids
      ((λ q, convert_orientation_convention q opengl world) <$> quat));
    modify (set_data (set_quat_w_world (λ _, new_quat))).

  (** ** Annotator outputs *)

  (** [_process_annotator_output]. A dict without the key raises
      [KeyError]. *)
Definition _process_annotator_output (device : string) (output : payload)
    : result (Tensor * option info_t) :=
    (* extract info and data from the output *)
    match output with
    | DictPayload data info =>
        match data, info with
        | None, _ => Raise KeyError
        | Some _, None => Raise KeyError
        | Some data, Some info =>
            (* convert data into torch tensor *)
            Ok (convert_to_torch data device, Some info)
        end
    | PlainPayload data => Ok (convert_to_torch data device, None)
    end.

  (** [self._data.info[index][name] = info]. *)
Definition write_info (i : nat) (name : string) (inf : option info_t)
    : M Camera unit :=
    s ← get;
    d ← index (info (_data s)) i;
    modify (set_data (set_info (<[i := <[name := inf]> d]>))).

  (** The inner loop of [_create_annotator_data] over [_ALL_INDICES]:
      [acc] is [data_all_cameras]. *)
Fixpoint collect_annotator_data (sim : Sim) (name : string)
      (annotators : list Annotator) (indices : list nat) (acc : list Tensor)
    : M Camera (list Tensor) :=
    match indices with
    | [] => mret acc
    | i :: indices' =>
        s ← get;
        annotator ← index annotators i;
        (* get the output *)
        out ← lift (get_data sim annotator);
        (* process the output *)
        '(data, inf) ← lift (_process_annotator_output (_device s) out);
        (* store the info *)
        write_info i name inf ;;
        (* append the data *)
        collect_annotator_data sim name annotators indices' (acc ++ [data])
    end.

  (** [_create_annotator_data]. *)
Definition _create_annotator_data (sim : Sim) : M Camera unit :=
    s ← get;
    (* add data from the annotators *)
    for_each (_rep_registry s) (λ '(name, annotators),
      data_all_cameras ←
        collect_annotator_data sim name annotators (_ALL_INDICES s) [];
      (* concatenate the data along the batch dimension *)
      stacked ← lift (stack data_all_cameras);
      modify (set_data (set_output (<[name := stacked]>)))).

  (** [self._data.output[name][index] = data]. *)
Definition write_output (name : string) (i : nat) (data : Tensor)
    : M Camera unit :=
    s ← get;
    match output (_data s) !! name with
    | None => raise KeyError
    | Some buffer =>
        buffer' ← lift (setitem buffer i data);
        modify (set_data (set_output (<[name := buffer']>)))
    end.

  (** The body of the refresh loop for one data type and one slot. *)
Definition update_slot (sim : Sim) (name : string)
      (annotators : list Annotator) (i : nat) : M Camera unit :=
    s ← get;
    (* get the output *)
    annotator ← index annotators i;
    out ← lift (get_data sim annotator);
    (* process the output *)
    '(data, inf) ← lift (_process_annotator_output (_device s) out);
    (* add data to output *)
    write_output name i data ;;
    (* add info to output *)
    write_info i name inf.

  (** [_update_buffers_impl]. [len(self._data.output.sorted_keys) == 0] is
      the test that no output buffer exists yet. *)
Definition _update_buffers_impl (sim : Sim) (env_ids : list nat)
    : M Camera unit :=
    (* Increment frame count *)
    increment_frame env_ids ;;
    (* -- intrinsic matrix *)
    _update_intrinsic_matrices sim env_ids ;;
    (* -- pose *)
    _update_poses sim env_ids ;;
    (* -- read the data from annotator registry *)
    s ← get;
    if decide (size (output (_data s)) = 0) then
      (* this is the first time buffer is called *)
      _create_annotator_data sim
    else
      (* iterate over all the data types *)
      for_each (_rep_registry s) (λ '(name, annotators),
        (* iterate over all the annotators *)
        for_each env_ids (update_slot sim name annotators)).

  (** ** Reset *)

  (** [reset]. *)
Definition reset (sim : Sim) (env_ids : option (list nat)) : M Camera unit :=
    (* reset the timestamps *)
    modify (set_base (super_reset env_ids)) ;;
    (* resolve None *)
    s ← get;
    let env_ids := default (_ALL_INDICES s) env_ids in
    (* reset the data *)
    _update_poses sim env_ids ;;
    _update_intrinsic_matrices sim env_ids ;;
    (* Reset the frame count *)
    s ← get;
    new ← lift (index_fill (_frame s) env_ids 0%Z);
    modify (set_frame (λ _, new)).

  (** ** Writing lens parameters *)

  (** [set_intrinsic_matrices]. The matrix entries are numpy floats:
      dividing by a zero entry does not raise (numpy yields inf or nan, the
      reals of the model yield their own value); the theorems below
      are about non-zero entries. *)
Definition lens_from_intrinsics (matrix : mat3) (focal_length : R)
      (shape : nat * nat) : Lens :=
    (* extract parameters from matrix *)
    let f_x := m00 matrix in
    let c_x := m02 matrix in
    let f_y := m11 matrix in
    let c_y := m12 matrix in
    (* get viewport parameters *)
    let '(height, width) := shape in
    let '(height, width) := (INR height, INR width) in
    (* resolve parameters for usd camera *)
    MkLens focal_length
      (width * focal_length / f_x)
      (height * focal_length / f_y)
      ((c_x - width / 2) / f_x)
      ((c_y - height / 2) / f_y).

Definition set_lens (handle : nat) (l : Lens) : M Stage unit :=
    st ← get;
    p ← deref st handle;
    modify (<[handle :=
      MkPrim (path p) (is_camera p) l (world_position p) (world_orientation p)]>).

Definition set_intrinsic_matrices (self : Camera) (matrices : MatrixBatch)
      (focal_length : R) (env_ids : option (list nat)) : M Stage unit :=
    (* resolve env_ids *)
    let env_ids := default (_ALL_INDICES self) env_ids in
    (* iterate over env_ids *)
    for_each (zip env_ids (mb_rows matrices)) (λ '(i, matrix),
      (* convert to numpy for sanity *)
      intrinsic_matrix ← lift (np_asarray (mb_device matrices) matrix);
      let params :=
        lens_from_intrinsics intrinsic_matrix focal_length (image_shape self) in
      (* change data for corresponding camera index *)
      sensor_prim ← index (_sensor_prims self) i;
      (* set parameters for camera *)
      set_lens sensor_prim params).

  (** ** Writing poses *)

  (** [XFormPrimView.set_world_poses] of the simulator's own library
      (omni.isaac.core), as its documentation describes it: row [k] of
      [positions] and of [orientations] is written to the prim at
      [indices[k]]; an argument that is [None] leaves that part of the
      pose of every addressed prim as it is. *)
Definition set_prim_pose (handle : nat) (p : option vec3) (q : option quat)
    : M Stage unit :=
    st ← get;
    prim ← deref st handle;
    modify (<[handle :=
      MkPrim (path prim) (is_camera prim) (lens prim)
        (default (world_position prim) p)
        (default (world_orientation prim) q)]>).

Definition first_row {S A} (rows : option (list A)) : M S (option A) :=
    match rows with
    | None => mret None
    | Some [] => raise IndexError
    | Some (a :: _) => mret (Some a)
    end.

Fixpoint view_set_world_poses (v : View) (positions : option (list vec3))
      (orientations : option (list quat)) (indices : list nat) : M Stage unit :=
    match indices with
    | [] => mret tt
    | i :: indices' =>
        handle ← index (view_prims v) i;
        p ← first_row positions;
        q ← first_row orientations;
        set_prim_pose handle p q ;;
        view_set_world_poses v (tail <$> positions) (tail <$> orientations) indices'
    end.

  (** [set_world_poses]. Arrays and lists given for [positions] and
      [orientations] become tensors on the device; their values are the
      same. *)
Definition set_world_poses (self : Camera) (positions : option (list vec3))
      (orientations : option (list quat)) (env_ids : option (list nat))
      (convention : convention) : M Stage unit :=
    (* resolve env_ids *)
    let env_ids := default (_ALL_INDICES self) env_ids in
    (* convert rotation matrix from input convention to OpenGL *)
    let orientations :=
      match orientations with
      | Some qs =>
          Some ((λ q, convert_orientation_convention q convention opengl) <$> qs)
      | None => None
      end in
    (* set the pose *)
    match _view self with
    | None => raise AttributeError
    | Some v => view_set_world_poses v positions orientations env_ids
    end.
  (** [set_world_poses_from_view]. The orientations come from
      [quat_from_matrix (create_rotation_matrix_from_view eyes targets)]
      ([utils/math.py] and [sensors/camera/utils.py], not under src/),
      taken here as [orientations_from_view]; they are handed to the view as
      they are. *)
Definition set_world_poses_from_view
      (orientations_from_view : list vec3 → list vec3 → list quat)
      (self : Camera) (eyes targets : list vec3) (env_ids : option (list nat))
    : M Stage unit :=
    (* resolve env_ids *)
    let env_ids := default (_ALL_INDICES self) env_ids in
    (* set camera poses using the view *)
    let orientations := orientations_from_view eyes targets in
    match _view self with
    | None => raise AttributeError
    | Some v => view_set_world_poses v (Some eyes) (Some orientations) env_ids
    end.

  (** ** Teardown *)

  (** [__del__], on an object that was initialized: the calls
      [annotator.detach([render_product_path])] that it makes, in order.
      (On an object that never was, the registry does not exist and the
      loop raises.) *)
Definition __del__ (self : Camera) : list (Annotator * string) :=
    _rep_registry self ≫= (λ '(_, annotators),
      zip annotators (_render_product_paths self)).

  (** [_invalidate_initialize_callback]: the callback of the base class
      ([super_invalidate], on the state of the base class), then the view is
      dropped. *)
Definition _invalidate_initialize_callback (super_invalidate : Base → Base)
      (self : Camera) : Camera :=
    set_view None (set_base super_invalidate self).

  (** ** Properties *)

  (** [num_instances]: [self._view.count]. *)
Definition num_instances : M Camera nat := view_count.

  (** [frame] and [render_product_paths]. *)
Definition frame (self : Camera) : list Z := _frame self.
Definition render_product_paths (self : Camera) : list string :=
    _render_product_paths self.
End camera.
(** * Reasoning about computations *)

(** [post m s Q]: running [m] from [s] ends in an outcome and a state
    that satisfy [Q], whether [m] returns or raises. *)
Definition post {S A} (m : M S A) (s : S) (Q : result A → S → Prop) : Prop :=
  Q (m s).1 (m s).2.


(** The stage and the call log at the point where the constructor looks
    for the prims: after the spawner has run, if there is one. *)
Definition after_spawn (cfg : CameraCfg) (w : Stage * list scene_call)
  : Stage * list scene_call :=
  match spawn cfg with
  | Some func =>
      (func (prim_path cfg) (pos (offset cfg))
         (convert_orientation_convention (rot (offset cfg))
            (offset_convention (offset cfg)) opengl) w.1,
       w.2 ++ [CallSpawn])
  | None => w
  end.

(** What a completed initialization leaves behind: the view over the
    resolved prims, one frame counter per prim, an annotator list per
    requested data type, and no output buffer yet. *)
Definition initialized {Base} (find_matching_prims : string → Stage → list nat)
    (sim : Sim) (device : string) (n : nat) (old s : @Camera Base) : Prop :=
  cfg s = cfg old ∧
  _device s = device ∧
  _num_envs s = n ∧
  _view s = Some (MkView (find_matching_prims (prim_path (cfg old)) (stage sim))) ∧
  length (find_matching_prims (prim_path (cfg old)) (stage sim)) = n ∧
  _ALL_INDICES s = seq 0 n ∧
  _frame s = replicate n 0%Z ∧
  (_rep_registry s).*1 = (registry_new (data_types (cfg old))).*1 ∧
  output (_data s) = ∅ ∧
  intrinsic_matrices (_data s) = replicate n mat3_zero.

(** ** The parts of the object that the operations write *)

Section parts.
Context {Base : Type}.
Implicit Types s : @Camera Base.

Definition with_frame (fr : list Z) s := set_frame (λ _, fr) s.
Definition with_intrinsics (ms : list mat3) s :=
    set_data (set_intrinsic_matrices_d (λ _, ms)) s.
Definition with_poses (ps : list vec3) (qs : list quat) s :=
    set_data (set_quat_w_world (λ _, qs)) (set_data (set_pos_w (λ _, ps)) s).
Definition with_capture (out : gmap string (list Tensor))
      (inf : list (gmap string (option info_t))) s :=
    set_data (set_info (λ _, inf)) (set_data (set_output (λ _, out)) s).

  (** The entry [(name, i)] of the output buffers: the slice of slot [i] in
      the buffer of the data type [name]. *)
Definition output_slot s (name : string) (i : nat) : option Tensor :=
    output (_data s) !! name ≫= (λ buffer, buffer !! i).

  (** The prim behind slot [i]: the one that the handle in [_sensor_prims]
      points to. *)
Definition slot_prim (sim : Sim) s (i : nat) (p : Prim) : Prop :=
    ∃ h, _sensor_prims s !! i = Some h ∧ stage sim !! h = Some p.

  (** The prim that the view shows at index [i]. *)
Definition view_prim (sim : Sim) s (i : nat) (p : Prim) : Prop :=
    ∃ v h, _view s = Some v ∧ view_prims v !! i = Some h ∧ stage sim !! h = Some p.
End parts.

(** ** The intrinsic matrix of a lens *)

Section intrinsics.
Local Open Scope R_scope.

  (** The entries that [_update_intrinsic_matrices] never writes. They are
      zero when the buffers are created. *)
Definition off_zero (m : mat3) : Prop :=
    m01 m = 0 ∧ m10 m = 0 ∧ m20 m = 0 ∧ m21 m = 0.

  (** The five entries written for a focal length in pixels [focal_px]. *)
Definition intrinsic_update (focal_px : R) (shape : nat * nat) (m : mat3) : mat3 :=
    Mat3 focal_px (m01 m) (INR shape.2 * 0.5)
         (m10 m) focal_px (INR shape.1 * 0.5)
         (m20 m) (m21 m) 1.

Definition fov_of (l : Lens) : R :=
    2 * atan (horizontal_aperture l / (2 * focal_length l)).

Definition focal_px_of (l : Lens) (shape : nat * nat) : R :=
    INR shape.2 * 0.5 / tan (fov_of l / 2).

  (** The matrix with [M[0,0] = M[1,1] = width * 0.5 / tan(fov / 2)],
      [M[0,2] = width / 2], [M[1,2] = height / 2], [M[2,2] = 1] and zero
      elsewhere; [shape] is (height, width). *)
Definition intrinsic_matrix_of (l : Lens) (shape : nat * nat) : mat3 :=
    Mat3 (focal_px_of l shape) 0 (INR shape.2 / 2)
         0 (focal_px_of l shape) (INR shape.1 / 2)
         0 0 1.

  (** A lens that the refresh can turn into a matrix: no division by
      zero. *)
Definition lens_ok (l : Lens) : Prop :=
    focal_length l ≠ 0 ∧ horizontal_aperture l ≠ 0.
End intrinsics.

(** ** What the operations promise *)

Section promises.
Context {Base : Type}.
Implicit Types s : @Camera Base.

  (** The outcome and final state of [increment_frame env_ids] from [s]. *)
Definition frame_incremented (env_ids : list nat) s
      (r : result unit) s' : Prop :=
    ∃ fr, s' = with_frame fr s ∧
      length fr = length (_frame s) ∧
      (∀ j, j ∉ env_ids → fr !! j = _frame s !! j) ∧
      (r = Ok tt →
         ∀ i, i ∈ env_ids →
           ∃ z, _frame s !! i = Some z ∧ fr !! i = Some (wrap64 (z + 1))) ∧
      ((∀ i, i ∈ env_ids → i < length (_frame s)) → r = Ok tt).

  (** The outcome [r] and final state [s'] of
      [_update_intrinsic_matrices sim env_ids] from [s]. *)
Definition intrinsics_updated (sim : Sim) (env_ids : list nat) s
      (r : result unit) s' : Prop :=
    ∃ ms, s' = with_intrinsics ms s ∧
      length ms = length (intrinsic_matrices (_data s)) ∧
      (Forall off_zero (intrinsic_matrices (_data s)) → Forall off_zero ms) ∧
      (∀ j, j ∉ env_ids → ms !! j = intrinsic_matrices (_data s) !! j) ∧
      (r = Ok tt →
         ∀ i, i ∈ env_ids →
           ∃ p m, slot_prim sim s i p ∧
             intrinsic_matrices (_data s) !! i = Some m ∧
             ms !! i = Some
               (intrinsic_update (focal_px_of (lens p) (image_shape s))
                  (image_shape s) m)) ∧
      ((∀ i, i ∈ env_ids →
          i < length (intrinsic_matrices (_data s)) ∧
          ∃ p, slot_prim sim s i p ∧ lens_ok (lens p)) →
       r = Ok tt).

  (** The outcome and final state of [_update_poses sim env_ids] from
      [s]. *)
Definition poses_updated (sim : Sim) (env_ids : list nat) s
      (r : result unit) s' : Prop :=
    ∃ ps qs, s' = with_poses ps qs s ∧
      length ps = length (pos_w (_data s)) ∧
      length qs = length (quat_w_world (_data s)) ∧
      (∀ j, j ∉ env_ids →
         ps !! j = pos_w (_data s) !! j ∧
         qs !! j = quat_w_world (_data s) !! j) ∧
      (r = Ok tt →
         ∀ i, i ∈ env_ids →
           ∃ p, view_prim sim s i p ∧
             ps !! i = Some (world_position p) ∧
             qs !! i = Some
               (convert_orientation_convention (world_orientation p) opengl world)) ∧
      (_sensor_prims s ≠ [] →
       is_Some (_view s) →
       (∀ i, i ∈ env_ids →
          i < length (pos_w (_data s)) ∧
          i < length (quat_w_world (_data s)) ∧
          ∃ p, view_prim sim s i p) →
       r = Ok tt).

  (** The last part of [_update_buffers_impl]: reading the annotators. *)
Definition capture_phase (sim : Sim) (env_ids : list nat) : M (@Camera Base) unit :=
    s ← get;
    if decide (size (output (_data s)) = 0) then
      _create_annotator_data sim
    else
      for_each (_rep_registry s) (λ '(name, annotators),
        for_each env_ids (update_slot sim name annotators)).

  (** What a refresh needs of the requested slots to get as far as reading
      the annotators. *)
Definition refreshable (sim : Sim) (env_ids : list nat) s : Prop :=
    _sensor_prims s ≠ [] ∧
    is_Some (_view s) ∧
    ∀ i, i ∈ env_ids →
      i < length (_frame s) ∧
      i < length (intrinsic_matrices (_data s)) ∧
      i < length (pos_w (_data s)) ∧
      i < length (quat_w_world (_data s)) ∧
      (∃ p, slot_prim sim s i p ∧ lens_ok (lens p)) ∧
      (∃ p, view_prim sim s i p).

  (** The reads of a refresh over allocated buffers, in the order in which
      they are made: data type by data type, and slot by slot within. *)
Definition capture_items (reg : registry) (env_ids : list nat)
    : list (string * list Annotator * nat) :=
    reg ≫= (λ '(name, annotators), (λ i, (name, annotators, i)) <$> env_ids).

Definition capture_order (reg : registry) (env_ids : list nat)
    : list (string * nat) :=
    (λ '(name, _, i), (name, i)) <$> capture_items reg env_ids.

  (** The backend answered the read of an item. *)
Definition fetched (sim : Sim) (item : string * list Annotator * nat) : Prop :=
    let '(_, annotators, i) := item in
    ∃ a, annotators !! i = Some a ∧ is_ok (get_data sim a) = true.

  (** The tensor that the read of an item yields on [device]: the backend
      answers for the annotator of the slot and the answer is processed. *)
Definition read_data (sim : Sim) (device : string)
      (item : string * list Annotator * nat) (data : Tensor) : Prop :=
    let '(_, annotators, i) := item in
    ∃ a payload inf,
      annotators !! i = Some a ∧
      get_data sim a = Ok payload ∧
      _process_annotator_output device payload = Ok (data, inf).

  (** The slice of slot [i] in the buffer of [name] exists and has the
      shape of [data], and the slot has an info row. *)
Definition slot_writable (out : gmap string (list Tensor))
      (inf : list (gmap string (option info_t)))
      (name : string) (i : nat) (data : Tensor) : Prop :=
    ∃ old, out !! name ≫= (λ buffer, buffer !! i) = Some old ∧
      t_shape old = t_shape data ∧ i < length inf.

  (** The read of an item goes through on the buffers of [s]. *)
Definition read_succeeds (sim : Sim) s
      (item : string * list Annotator * nat) : Prop :=
    ∃ data, read_data sim (_device s) item data ∧
      slot_writable (output (_data s)) (info (_data s)) item.1.1 item.2 data.
End promises.

(** The states of an initialized batch: what the initialization of a fresh
    object returns, and whatever refreshes and resets make of it (also those
    that raise). The simulator may be a different one at each call. *)
Inductive reachable {Base}
    (super_reset : option (list nat) → Base → Base)
    (find_matching_prims : string → Stage → list nat)
    (render_product : string → nat * nat → string) : @Camera Base → Prop :=
  | reachable_initialize sim device n c0 c :
      _is_initialized c0 = false →
      initialize find_matching_prims render_product sim device n c0 = (Ok tt, c) →
      reachable super_reset find_matching_prims render_product c
  | reachable_refresh sim env_ids c r c' :
      reachable super_reset find_matching_prims render_product c →
      _update_buffers_impl sim env_ids c = (r, c') →
      reachable super_reset find_matching_prims render_product c'
  | reachable_reset sim env_ids c r c' :
      reachable super_reset find_matching_prims render_product c →
      reset super_reset sim env_ids c = (r, c') →
      reachable super_reset find_matching_prims render_product c'.

(** What comes before the first occurrence of [x] in [l]. *)
Fixpoint processed_before {A} `{EqDecision A} (x : A) (l : list A) : list A :=
  match l with
  | [] => []
  | y :: l' => if decide (y = x) then [] else y :: processed_before x l'
  end.

(** The reads that come before the first read of slot [k] for the data
    type [T]. *)
Fixpoint reads_before (T : string) (k : nat)
    (items : list (string * list Annotator * nat))
  : list (string * list Annotator * nat) :=
  match items with
  | [] => []
  | item :: items' =>
      if decide ((item.1.1, item.2) = (T, k)) then []
      else item :: reads_before T k items'
  end.

(** The last read of slot [j] for the data type [name] among [items]. *)
Fixpoint last_read (name : string) (j : nat)
    (items : list (string * list Annotator * nat))
  : option (string * list Annotator * nat) :=
  match items with
  | [] => None
  | item :: items' =>
      match last_read name j items' with
      | Some later => Some later
      | None =>
          if decide ((item.1.1, item.2) = (name, j)) then Some item else None
      end
  end.

(** * Concrete scenes used by the examples *)

Module Examples.
  (** A base class with no state of its own whose constructor accepts every
      configuration. *)
Definition super_init (cfg : CameraCfg) : result unit := Ok tt.
Definition super_reset (env_ids : option (list nat)) (b : unit) : unit := b.

  (** The pattern resolves to the prims with the same leaf name. *)
Definition find_matching_prims (pattern : string) (st : Stage) : list nat :=
    List.filter (λ h,
      match st !! h with
      | Some p => bool_decide (last_segment (path p) = last_segment pattern)
      | None => false
      end) (seq 0 (length st)).

Definition render_product (p : string) (resolution : nat * nat) : string :=
    "/Render/RenderProduct_" +:+ p.

Definition no_offset : OffsetCfg :=
    MkOffsetCfg (Vec3 0 0 0) (Quat 1 0 0 0) ros.

Definition make_cfg (prim_path : string) (data_types : list string) : CameraCfg :=
    MkCameraCfg prim_path data_types 480 640 no_offset None [] true.

  (** A regular configuration. *)
Definition cfg_rgb : CameraCfg :=
    make_cfg "/World/envs/env_.*/Camera" ["rgb"].

  (** An unsupported data type under a plain leaf name. *)
Definition cfg_bbox : CameraCfg :=
    make_cfg "/World/envs/env_.*/Camera" ["rgb"; "bounding_box_3d"].

  (** A pattern in the leaf of the path. *)
Definition cfg_leaf_regex : CameraCfg :=
    make_cfg "/World/envs/env_0/Camera_.*" ["rgb"].

  (** An unsupported data type and a pattern in the leaf. *)
Definition cfg_leaf_regex_bbox : CameraCfg :=
    make_cfg "/World/envs/env_0/Camera_.*" ["bounding_box_3d"].

Definition lens_24_36 : Lens := MkLens 24 36 27 0 0.

  (** Two environments, one camera each; the first looks along the world
      -Z axis (identity orientation in the OpenGL convention). *)
Definition cam_prim (env : string) (p : vec3) (q : quat) : Prim :=
    MkPrim ("/World/envs/" +:+ env +:+ "/Camera") true lens_24_36 p q.

Definition stage2 : Stage :=
    [ cam_prim "env_0" (Vec3 0 0 5) (Quat 1 0 0 0);
      cam_prim "env_1" (Vec3 4 0 5) (Quat 0 1 0 0) ].

  (** A stage where the second match is a plain transform, not a camera. *)
Definition stage_xform : Stage :=
    [ cam_prim "env_0" (Vec3 0 0 5) (Quat 1 0 0 0);
      MkPrim "/World/envs/env_1/Camera" false lens_24_36 (Vec3 4 0 5) (Quat 1 0 0 0) ].

Definition image (v : Z) : ndarray := NdArray [2; 2] [v; v; v; v].

  (** A backend that answers every annotator with a 2x2 image holding
      [v]. *)
Definition backend_const (v : Z) (a : Annotator) : result payload :=
    Ok (PlainPayload (image v)).

  (** A backend that fails for the render product of the second camera. *)
Definition backend_fail_env_1 (v : Z) (a : Annotator) : result payload :=
    if bool_decide (an_render_product a = render_product "/World/envs/env_1/Camera" (640, 480))
    then Raise CaptureError
    else Ok (PlainPayload (image v)).

Definition sim2 (v : Z) : Sim := MkSim stage2 (backend_const v).

  (** The object right after the constructor. *)
Definition camera_new (cfg : CameraCfg) : @Camera unit :=
    MkCamera cfg tt false EmptyString 0 None [] [] [] [] [] CameraData_new.

  (** The batch of the two cameras of [stage2], initialized on ["cuda:0"]
      for two environments. *)
Definition camera2 : @Camera unit :=
    Eval vm_compute in
    (initialize find_matching_prims render_product (sim2 0) "cuda:0" 2
       (camera_new cfg_rgb)).2.
Definition sim2_fail (v : Z) : Sim := MkSim stage2 (backend_fail_env_1 v).

  (** The tensor that a 2x2 image holding [v] becomes on the device. *)
Definition tensor (v : Z) : Tensor := convert_to_torch (image v) "cuda:0".

  (** The batch once its output buffers exist: the two slices of the
      ["rgb"] buffer hold [v0] and [v1]. The frame counters, intrinsic
      matrices and poses are the arguments. *)
Definition allocated2 (v0 v1 : Z) (fr : list Z) (ms : list mat3)
      (ps : list vec3) (qs : list quat) : @Camera unit :=
    with_capture {["rgb" := [tensor v0; tensor v1]]}
      [{["rgb" := None]}; {["rgb" := None]}]
      (with_poses ps qs (with_intrinsics ms (with_frame fr camera2))).

  (** The annotator of the ["rgb"] data type on the second camera. *)
Definition rgb_env_1 : Annotator :=
    MkAnnotator "rgb" NoParams "cuda"
      (render_product "/World/envs/env_1/Camera" (640, 480)).

  (** The stage after the second camera has been moved and given another
      lens from outside. *)
Definition lens_12_20 : Lens := MkLens 12 20 15 0 0.
Definition stage2_moved : Stage :=
    [ cam_prim "env_0" (Vec3 0 0 5) (Quat 1 0 0 0);
      MkPrim "/World/envs/env_1/Camera" true lens_12_20 (Vec3 9 8 7) (Quat 0 0 1 0) ].
Definition sim2_moved (v : Z) : Sim := MkSim stage2_moved (backend_const v).

  (** A batch with two data types, and a backend that fails for one
      type. *)
Definition cfg_rgb_depth : CameraCfg :=
    make_cfg "/World/envs/env_.*/Camera" ["rgb"; "distance_to_image_plane"].
Definition camera2_rgb_depth : @Camera unit :=
    Eval vm_compute in
    (initialize find_matching_prims render_product (sim2 0) "cuda:0" 2
       (camera_new cfg_rgb_depth)).2.
Definition backend_fail_type (T : string) (v : Z) (a : Annotator)
    : result payload :=
    if bool_decide (an_name a = T) then Raise CaptureError
    else Ok (PlainPayload (image v)).
Definition sim2_fail_depth (v : Z) : Sim :=
    MkSim stage2 (backend_fail_type "distance_to_image_plane" v).

  (** The stage after both cameras have been given new poses, with the
      orientations given in the world convention. *)
Definition stage2_posed : Stage :=
    [ cam_prim "env_0" (Vec3 1 2 3)
        (convert_orientation_convention (Quat 1 0 0 0) world opengl);
      cam_prim "env_1" (Vec3 4 5 6)
        (convert_orientation_convention (Quat 0 0 0 1) world opengl) ].
Definition sim2_posed (v : Z) : Sim := MkSim stage2_posed (backend_const v).

  (** A stage without any prim. *)
Definition stage_empty : Stage := [].
Definition sim_xform : Sim := MkSim stage_xform (backend_const 0).
End Examples.
Section post_rules.
Context {S : Type}.

Lemma post_run {A} (m : M S A) s Q r s' :
    post m s Q → m s = (r, s') → Q r s'.
  Proof. unfold post. intros H E. by rewrite E in H. Qed.

Lemma post_intro {A} (m : M S A) s (Q : result A → S → Prop) :
    (∀ r s', m s = (r, s') → Q r s') → post m s Q.
  Proof. intros H. apply H. by destruct (m s). Qed.

Lemma post_mono {A} (m : M S A) s (Q Q' : result A → S → Prop) :
    post m s Q → (∀ r s', Q r s' → Q' r s') → post m s Q'.
  Proof. unfold post. auto. Qed.

Lemma post_bind {A B} (m : M S A) (f : A → M S B) s Q :
    post m s (λ r s1,
      match r with
      | Ok a => post (f a) s1 Q
      | Raise e => Q (Raise e) s1
      end) →
    post (m ≫= f) s Q.
  Proof.
    unfold post, mbind, M_bind. by destruct (m s) as [[a|e] s1].
  Qed.

Lemma bind_inv {A B} (m : M S A) (f : A → M S B) s r s' :
    (m ≫= f) s = (r, s') →
    (∃ a s1, m s = (Ok a, s1) ∧ f a s1 = (r, s')) ∨
    (∃ e, m s = (Raise e, s') ∧ r = Raise e).
  Proof.
    unfold mbind, M_bind. destruct (m s) as [[a|e] s1].
    - intros H. left. by exists a, s1.
    - intros [= <- <-]. right. by exists e.
  Qed.

Lemma post_ret {A} (a : A) s (Q : result A → S → Prop) :
    Q (Ok a) s → post (mret a) s Q.
  Proof. done. Qed.

Lemma post_raise {A} e s (Q : result A → S → Prop) :
    Q (Raise e) s → post (raise e) s Q.
  Proof. done. Qed.

Lemma post_get s (Q : result S → S → Prop) : Q (Ok s) s → post get s Q.
  Proof. done. Qed.

Lemma post_modify (f : S → S) s (Q : result unit → S → Prop) :
    Q (Ok tt) (f s) → post (modify f) s Q.
  Proof. done. Qed.

Lemma post_lift {A} (r : result A) s (Q : result A → S → Prop) :
    Q r s → post (lift r) s Q.
  Proof. done. Qed.

Lemma post_index {A} (l : list A) i s (Q : result A → S → Prop) :
    (∀ a, l !! i = Some a → Q (Ok a) s) →
    (l !! i = None → Q (Raise IndexError) s) →
    post (index l i) s Q.
  Proof.
    intros H1 H2. unfold post, index.
    destruct (l !! i); [by apply H1 | by apply H2].
  Qed.

Lemma post_deref (st : Stage) h s (Q : result Prim → S → Prop) :
    (∀ p, st !! h = Some p → Q (Ok p) s) →
    (st !! h = None → Q (Raise RuntimeError) s) →
    post (deref st h) s Q.
  Proof.
    intros H1 H2. unfold post, deref.
    destruct (st !! h); [by apply H1 | by apply H2].
  Qed.

Lemma post_py_div (a b : R) s (Q : result R → S → Prop) :
    (b ≠ 0%R → Q (Ok (a / b)%R) s) →
    (b = 0%R → Q (Raise ZeroDivisionError) s) →
    post (py_div a b) s Q.
  Proof.
    intros H1 H2. unfold post, py_div.
    destruct (Req_dec_T b 0); [by apply H2 | by apply H1].
  Qed.

  (** A loop keeps an invariant that each iteration keeps, also when an
      iteration raises. *)
Lemma post_for_each {A} (I : S → Prop) (l : list A) (body : A → M S unit) s :
    I s →
    (∀ x s1, x ∈ l → I s1 → post (body x) s1 (λ _ s2, I s2)) →
    post (for_each l body) s (λ _ s', I s').
  Proof.
    revert s. induction l as [|x l IH]; intros s Hs Hbody; [done|].
    cbn [for_each]. apply post_bind.
    eapply post_mono; [apply (Hbody x s); [left | done] |].
    intros [[]|e] s1 Hs1; [|done].
    apply IH; [done|]. intros y s2 Hy. apply Hbody. by right.
  Qed.

  (** A loop in which the iterations can only raise [e], and one of them
      does, raises [e]. *)
Lemma post_for_each_raises {A} (bad : A → Prop) e (l : list A)
      (body : A → M S unit) s :
    (∃ x, x ∈ l ∧ bad x) →
    (∀ x s1, post (body x) s1 (λ r _,
       (bad x → r = Raise e) ∧ (∀ e', r = Raise e' → e' = e))) →
    post (for_each l body) s (λ r _, r = Raise e).
  Proof.
    intros Hbad Hbody. revert s.
    induction l as [|x l IH]; intros s.
    { destruct Hbad as (x & Hx & _). by apply elem_of_nil in Hx. }
    cbn [for_each]. apply post_bind.
    eapply post_mono; [apply Hbody|].
    intros [[]|e'] s1 [Hb He]; cbn.
    - apply IH. destruct Hbad as (y & Hy & By).
      apply elem_of_cons in Hy as [->|Hy]; [|by exists y].
      by specialize (Hb By).
    - by rewrite (He e').
  Qed.

Lemma for_each_app {A} (l1 l2 : list A) (body : A → M S unit) s :
    for_each (l1 ++ l2) body s = (for_each l1 body ;; for_each l2 body) s.
  Proof.
    revert s. induction l1 as [|x l1 IH]; intros s; [done|].
    cbn. unfold mbind, M_bind in *.
    destruct (body x s) as [[[]|e] s1]; [|done]. apply IH.
  Qed.

Lemma for_each_app_run {A} (l1 l2 : list A) (body : A → M S unit) s :
    (for_each l1 body ;; for_each l2 body) s
    = match for_each l1 body s with
      | (Ok _, s1) => for_each l2 body s1
      | (Raise e, s1) => (Raise e, s1)
      end.
  Proof. done. Qed.

Lemma for_each_fmap {A B} (f : A → B) (l : list A) (body : B → M S unit) s :
    for_each (f <$> l) body s = for_each l (λ x, body (f x)) s.
  Proof.
    revert s. induction l as [|x l IH]; intros s; [done|].
    cbn. unfold mbind, M_bind in *.
    destruct (body (f x) s) as [[[]|e] s1]; [|done]. apply IH.
  Qed.
End post_rules.

(** One step of symbolic execution of a computation. *)
Ltac post_step :=
  lazymatch goal with
  | |- post (mbind _ _) _ _ => apply post_bind
  | |- post (mret _) _ _ => apply post_ret
  | |- post (raise _) _ _ => apply post_raise
  | |- post get _ _ => apply post_get
  | |- post (modify _) _ _ => apply post_modify
  | |- post (lift ?r) _ _ => apply post_lift; destruct r eqn:?
  | |- post (index _ _) _ _ => apply post_index; intros
  | |- post (deref _ _) _ _ => apply post_deref; intros
  | |- post (py_div _ _) _ _ => apply post_py_div; intros
  | |- post (if ?b then _ else _) _ _ => destruct b eqn:?
  | |- post (match ?x with _ => _ end) _ _ => destruct x eqn:?
  | |- post (let '(_, _) := ?x in _) _ _ => destruct x eqn:?
  end; lazy beta iota zeta.

Ltac post_steps := repeat post_step.

(** * The conversion of conventions *)

Section conventions.
Local Open Scope R_scope.

Lemma quat_mul_assoc a b c :
    quat_mul (quat_mul a b) c = quat_mul a (quat_mul b c).
  Proof. destruct a, b, c. unfold quat_mul. cbn. f_equal; ring. Qed.

  (** The converted orientation sends the forward and up axes of the
      target convention to where the original orientation sends those of
      the origin convention: the camera itself does not move. *)
Lemma convert_keeps_camera_axes q origin target :
    quat_apply (convert_orientation_convention q origin target) (forward_axis target)
      = quat_apply q (forward_axis origin) ∧
    quat_apply (convert_orientation_convention q origin target) (up_axis target)
      = quat_apply q (up_axis origin).
  Proof.
    destruct q as [w x y z].
    destruct origin, target; unfold convert_orientation_convention;
      case_decide; try discriminate; try done;
      unfold quat_apply, quat_mul; cbn; split; f_equal; field.
  Qed.

  (** Converting there and back is the identity. *)
Lemma convert_round_trip q a b :
    convert_orientation_convention (convert_orientation_convention q a b) b a = q.
  Proof.
    destruct q as [w x y z].
    destruct a, b; unfold convert_orientation_convention;
      repeat case_decide; try discriminate; try done;
      unfold quat_mul; cbn; f_equal; field.
  Qed.

Lemma convert_opengl_world_identity :
    convert_orientation_convention (Quat 1 0 0 0) opengl world
      = Quat (1 / 2) (- (1 / 2)) (1 / 2) (1 / 2).
  Proof.
    unfold convert_orientation_convention. case_decide; [discriminate|].
    unfold quat_mul. cbn. f_equal; field.
  Qed.

Lemma convert_opengl_ros_identity :
    convert_orientation_convention (Quat 1 0 0 0) opengl ros = Quat 0 1 0 0.
  Proof.
    unfold convert_orientation_convention. case_decide; [discriminate|].
    unfold quat_mul. cbn. f_equal; field.
  Qed.
End conventions.

(** * Annotator payloads *)

(** C9. [_process_annotator_output] turns both shapes of payload into a
    (data, info) pair: a dict payload gives its ["data"] entry and its
    ["info"] entry, any other payload gives itself and no info; in both
    cases the data is converted to a tensor on the camera's device. *)
Theorem process_annotator_output_normalizes (device : string) :
  (∀ data inf,
     _process_annotator_output device (DictPayload (Some data) (Some inf))
       = Ok (convert_to_torch data device, Some inf)) ∧
  (∀ data,
     _process_annotator_output device (PlainPayload data)
       = Ok (convert_to_torch data device, None)) ∧
  (∀ data, t_device (convert_to_torch data device) = device).
Proof. done. Qed.

Lemma process_annotator_output_device device out data inf :
  _process_annotator_output device out = Ok (data, inf) →
  t_device data = device.
Proof.
  destruct out as [a|[a|] [i|]]; cbn; intros [= <- _]; done.
Qed.

(** * The constructor *)

Section constructor.
Context {Base : Type}.
Variable super_init : CameraCfg → result Base.
Variable find_matching_prims : string → Stage → list nat.

Local Abbreviation init := (__init__ super_init find_matching_prims).

  (** A leaf that fails the pattern check: the constructor stops at the
      read of [self.cfg], before anything else happens. *)
Lemma init_leaf_regex cfg w :
    leaf_re_match (last_segment (prim_path cfg)) = false →
    init cfg w = (Raise AttributeError, w).
  Proof.
    intros H. unfold __init__. rewrite H. done.
  Qed.

  (** With a leaf that passes the check, an unsupported data type stops
      the constructor with a [ValueError]. *)
Lemma init_unsupported cfg w :
    leaf_re_match (last_segment (prim_path cfg)) = true →
    common_elements cfg ≠ [] →
    init cfg w = (Raise ValueError, w).
  Proof.
    intros H Hc. unfold __init__, _check_supported_data_types. rewrite H.
    destruct (common_elements cfg); done.
  Qed.

  (** No prim matches the path: [RuntimeError]. *)
Lemma init_no_match cfg w b :
    leaf_re_match (last_segment (prim_path cfg)) = true →
    common_elements cfg = [] →
    super_init cfg = Ok b →
    find_matching_prims (prim_path cfg) (after_spawn cfg w).1 = [] →
    (init cfg w).1 = Raise RuntimeError.
  Proof.
    intros H Hc Hb Hm. unfold __init__, _check_supported_data_types.
    rewrite H, Hc. cbn. unfold mbind, M_bind, lift at 1. rewrite Hb.
    unfold after_spawn in Hm.
    destruct (spawn cfg); cbn in *; rewrite Hm; done.
  Qed.

  (** C7 (as amended). A configuration that requests an unsupported data
      type never gets past the constructor's checks: construction fails
      with the stage untouched and no call into the scene graph made, and
      the error is a [ValueError] whenever the leaf of the path passes the
      pattern check that runs first. *)
Theorem init_unsupported_fails_before_resolution cfg st :
    common_elements cfg ≠ [] →
    (∃ e, init cfg (st, []) = (Raise e, (st, []))) ∧
    (leaf_re_match (last_segment (prim_path cfg)) = true →
     init cfg (st, []) = (Raise ValueError, (st, []))).
  Proof.
    intros Hc. split.
    - destruct (leaf_re_match (last_segment (prim_path cfg))) eqn:H.
      + exists ValueError. by apply init_unsupported.
      + exists AttributeError. by apply init_leaf_regex.
    - intros H. by apply init_unsupported.
  Qed.
End constructor.

Lemma init_unsupported_fails_before_resolution_witness :
  common_elements Examples.cfg_bbox ≠ [] ∧
  __init__ Examples.super_init Examples.find_matching_prims Examples.cfg_bbox
    (Examples.stage2, []) = (Raise ValueError, (Examples.stage2, [])).
Proof.
  split; [done|].
  apply (init_unsupported_fails_before_resolution Examples.super_init
           Examples.find_matching_prims Examples.cfg_bbox Examples.stage2);
    [done | reflexivity].
Defined.

(** C7, as stated, fails: with a pattern in the leaf of the path and an
    unsupported data type, construction fails with an error that is not a
    [ValueError]. *)
Lemma unsupported_type_error_not_value_error :
  common_elements Examples.cfg_leaf_regex_bbox ≠ [] ∧
  ∃ e,
    (__init__ Examples.super_init Examples.find_matching_prims
       Examples.cfg_leaf_regex_bbox (Examples.stage2, [])).1 = Raise e ∧
    is_value_error e = false.
Proof.
  split; [done|]. exists AttributeError. split; reflexivity.
Qed.

(** C8, at a path with a pattern in its leaf: the constructor raises
    [AttributeError], which is not a [RuntimeError]. *)
Theorem init_leaf_regex_attribute_error :
  __init__ Examples.super_init Examples.find_matching_prims
    Examples.cfg_leaf_regex (Examples.stage2, [])
    = (Raise AttributeError, (Examples.stage2, [])) ∧
  is_runtime_error AttributeError = false.
Proof. split; reflexivity. Qed.

(** * Initialization *)

Section registry.
Lemma registry_append_keys name a reg :
    (registry_append name a reg).*1 = reg.*1.
  Proof.
    induction reg as [|[k v] reg IH]; [done|].
    cbn. case_decide; cbn; [done | by rewrite IH].
  Qed.

Lemma registry_new_keys names T :
    T ∈ (registry_new names).*1 ↔ T ∈ names.
  Proof.
    induction names as [|name names IH]; cbn; [done|].
    rewrite !elem_of_cons, <- IH.
    destruct (decide (T = name)) as [->|Hne]; [naive_solver|].
    split; intros [?|H]; try done; right.
    - apply list_elem_of_fmap in H as ([k v] & -> & H).
      apply list_elem_of_filter in H as [_ H].
      apply list_elem_of_fmap. by exists (k, v).
    - apply list_elem_of_fmap in H as ([k v] & -> & H).
      apply list_elem_of_fmap. exists (k, v). split; [done|].
      apply list_elem_of_filter. done.
  Qed.
End registry.

Section initialization.
Context {Base : Type}.
Variable find_matching_prims : string → Stage → list nat.
Variable render_product : string → nat * nat → string.

Local Abbreviation Cam := (@Camera Base).
Local Abbreviation init_impl :=
    (@_initialize_impl Base find_matching_prims render_product).

  (** The loop that attaches the annotators of one camera only appends to
      the registry. *)
Lemma attach_loop_post (P : Cam → Prop) (c : CameraCfg) device rp names s :
    P s →
    (∀ f s1, P s1 → P (set_rep_registry (λ reg, registry_append (f.1) (f.2) reg) s1)) →
    post (for_each names (λ name,
            modify (set_rep_registry
              (registry_append name
                 (MkAnnotator name (annotator_init_params c name) device rp)))))
      s (λ r s', r = Ok tt ∧ P s').
  Proof.
    intros Hs HP. revert s Hs.
    induction names as [|name names IH]; intros s Hs; [done|].
    cbn [for_each]. post_steps. apply IH.
    apply (HP (name, MkAnnotator name (annotator_init_params c name) device rp)), Hs.
  Qed.

Lemma initialize_impl_post sim device n c :
    post (init_impl sim device n) c (λ r s,
      _is_initialized s = _is_initialized c ∧
      (r = Ok tt → initialized find_matching_prims sim device n c s)).
  Proof.
    unfold _initialize_impl.
    post_steps; cbn; [done|].
    assert (length (find_matching_prims (prim_path (cfg c)) (stage sim)) = n)
      as Hn by (unfold count in *; cbn in *; lia).
    set (handles := find_matching_prims (prim_path (cfg c)) (stage sim)) in *.
    eapply post_mono.
    - apply (post_for_each (λ s : Cam,
        cfg s = cfg c ∧ _device s = device ∧ _num_envs s = n ∧
        _view s = Some (MkView handles) ∧
        _ALL_INDICES s = seq 0 n ∧ _frame s = replicate n 0%Z ∧
        (_rep_registry s).*1 = (registry_new (data_types (cfg c))).*1 ∧
        _is_initialized s = _is_initialized c)).
      + cbn. by rewrite Hn.
      + intros h s1 _ HI. post_steps; cbn; try done.
        eapply post_mono.
        * apply (attach_loop_post (λ s : Cam,
            cfg s = cfg c ∧ _device s = device ∧ _num_envs s = n ∧
            _view s = Some (MkView handles) ∧
            _ALL_INDICES s = seq 0 n ∧ _frame s = replicate n 0%Z ∧
            (_rep_registry s).*1 = (registry_new (data_types (cfg c))).*1 ∧
            _is_initialized s = _is_initialized c)); [exact HI|].
          intros f s2. cbn. rewrite registry_append_keys. done.
        * cbn. intros r s2 [_ HP]. exact HP.
    - cbn. intros [[]|e] s1 (Hcfg & Hdev & Hnum & Hview & Hall & Hfr & Hreg & Hinit);
        [|done].
      unfold _create_buffers, view_count. post_steps; cbn; [|done].
      split; [done|]. intros _. unfold initialized. cbn.
      rewrite Hview in *. simplify_eq. done.
  Qed.

Lemma initialize_impl_ok sim device n c s :
    init_impl sim device n c = (Ok tt, s) →
    initialized find_matching_prims sim device n c s.
  Proof.
    intros H. by apply (post_run _ _ _ _ _ (initialize_impl_post sim device n c) H).
  Qed.

  (** A resolved prim that is not a camera, or a number of resolved prims
      that differs from the number of environments, makes the
      initialization raise [RuntimeError]. *)
Lemma initialize_impl_raises sim device n (c : Cam) :
    let handles := find_matching_prims (prim_path (cfg c)) (stage sim) in
    length handles ≠ n ∨
      (∃ h, h ∈ handles ∧ is_camera <$> (stage sim !! h) ≠ Some true) →
    post (init_impl sim device n) c (λ r _, r = Raise RuntimeError).
  Proof.
    intros handles Hbad. unfold _initialize_impl.
    post_steps; cbn; [done|].
    destruct Hbad as [Hlen|Hbad].
    { exfalso. unfold count in *. cbn in *. fold handles in n0. lia. }
    eapply post_mono.
    - apply (post_for_each_raises
        (λ h, is_camera <$> (stage sim !! h) ≠ Some true) RuntimeError);
        [exact Hbad|].
      intros h s1. post_steps; cbn.
      + eapply post_mono; [by apply (attach_loop_post (λ _ : Cam, True))|].
        cbn. intros r s2 [-> _]. split; [|done].
        intros Hh. rewrite H in Hh. cbn in Hh. by rewrite Heqb in Hh.
      + split; [done|]. by intros e' [= <-].
      + split; [done|]. by intros e' [= <-].
    - cbn. by intros [[]|e] s1.
  Qed.

  (** The two failures of the initialization leave the batch short of
      ready. *)
Lemma initialize_fails sim device n (c : Cam) :
    let handles := find_matching_prims (prim_path (cfg c)) (stage sim) in
    _is_initialized c = false →
    length handles ≠ n ∨
      (∃ h, h ∈ handles ∧ is_camera <$> (stage sim !! h) ≠ Some true) →
    ∃ c',
      initialize find_matching_prims render_product sim device n c
        = (Raise RuntimeError, c') ∧
      _is_initialized c' = false.
  Proof.
    intros handles Hc Hbad. unfold initialize, mbind, M_bind, get. rewrite Hc.
    pose proof (initialize_impl_raises sim device n c Hbad) as H1.
    pose proof (initialize_impl_post sim device n c) as H2.
    unfold post in H1, H2.
    destruct (init_impl sim device n c) as [r c'] eqn:E. cbn in H1, H2.
    subst r. exists c'. split; [done|]. destruct H2 as [-> _]. done.
  Qed.

Lemma initialize_ok sim device n (c : Cam) s :
    _is_initialized c = false →
    initialize find_matching_prims render_product sim device n c = (Ok tt, s) →
    initialized find_matching_prims sim device n c s ∧ _is_initialized s = true.
  Proof.
    intros Hc. unfold initialize, mbind at 1, M_bind at 1, get. rewrite Hc.
    intros H. apply bind_inv in H as [([] & s1 & H1 & H)|(e & _ & [=])].
    injection H as <-. apply initialize_impl_ok in H1.
    split; [|done]. exact H1.
  Qed.
End initialization.

(** * Indexed reads and writes *)

Section indexed.
Context {A : Type}.
Implicit Types (l : list A) (ids : list nat).

Lemma gather_lookup l ids r k i :
    gather l ids = Ok r → ids !! k = Some i → r !! k = l !! i ∧ i < length l.
  Proof.
    revert r k. induction ids as [|i0 ids IH]; intros r k; [done|].
    cbn. destruct (l !! i0) as [a|] eqn:Ha; [|done].
    destruct (gather l ids) as [r'|e]; [|done].
    intros [= <-]. destruct k as [|k]; cbn.
    - intros [= <-]. split; [done|]. by eapply lookup_lt_Some.
    - by apply IH.
  Qed.

Lemma gather_length l ids r : gather l ids = Ok r → length r = length ids.
  Proof.
    revert r. induction ids as [|i0 ids IH]; intros r; cbn; [by intros [= <-]|].
    destruct (l !! i0); [|done]. destruct (gather l ids) as [r'|e]; [|done].
    intros [= <-]. cbn. by rewrite (IH r').
  Qed.

Lemma gather_ok l ids :
    (∀ i, i ∈ ids → i < length l) → ∃ r, gather l ids = Ok r.
  Proof.
    induction ids as [|i0 ids IH]; intros H; cbn; [by eexists|].
    destruct (lookup_lt_is_Some_2 l i0) as [a ->]; [apply H; left|].
    destruct IH as [r ->]; [intros i Hi; apply H; by right|]. by eexists.
  Qed.

Lemma index_put_length l ids vals l' :
    index_put l ids vals = Ok l' → length l' = length l.
  Proof.
    revert l vals. induction ids as [|i ids IH]; intros l [|v vals]; cbn; try done.
    - by intros [= <-].
    - case_decide as Hd; [|done]. intros H. apply IH in H.
      by rewrite length_insert in H.
  Qed.

Lemma index_put_other l ids vals l' j :
    index_put l ids vals = Ok l' → j ∉ ids → l' !! j = l !! j.
  Proof.
    revert l vals. induction ids as [|i ids IH]; intros l [|v vals]; cbn; try done.
    - by intros [= <-].
    - case_decide as Hd; [|done]. intros H Hj.
      apply not_elem_of_cons in Hj as [Hne Hj].
      rewrite (IH _ _ H Hj). by apply list_lookup_insert_ne.
  Qed.

Lemma index_put_in_range l ids vals l' i :
    index_put l ids vals = Ok l' → i ∈ ids → i < length l.
  Proof.
    revert l vals. induction ids as [|i0 ids IH]; intros l [|v vals]; cbn; try done.
    - intros _ Hi. by apply elem_of_nil in Hi.
    - case_decide as Hd; [|done]. intros H Hi.
      apply elem_of_cons in Hi as [->|Hi]; [done|].
      specialize (IH _ _ H Hi). by rewrite length_insert in IH.
  Qed.

  (** The value found at a written index is one of the values written
      there. *)
Lemma index_put_lookup (P : A → Prop) l ids vals l' i :
    index_put l ids vals = Ok l' →
    (∀ k v, ids !! k = Some i → vals !! k = Some v → P v) →
    i ∈ ids →
    ∃ v, l' !! i = Some v ∧ P v.
  Proof.
    revert l vals. induction ids as [|i0 ids IH]; intros l [|v0 vals]; cbn; try done.
    - intros _ _ Hi. by apply elem_of_nil in Hi.
    - case_decide as Hlt; [|done]. intros H HP Hi.
      destruct (decide (i ∈ ids)) as [Hin|Hnin].
      + apply (IH _ _ H); [|done]. intros k v Hk Hv. by apply (HP (S k) v).
      + apply elem_of_cons in Hi as [->|Hi]; [|done].
        exists v0. split; [|by apply (HP 0 v0)].
        rewrite (index_put_other _ _ _ _ _ H Hnin).
        by apply list_lookup_insert_eq.
  Qed.

Lemma index_put_ok l ids vals :
    length ids = length vals →
    (∀ i, i ∈ ids → i < length l) →
    ∃ l', index_put l ids vals = Ok l'.
  Proof.
    revert l vals. induction ids as [|i ids IH]; intros l [|v vals]; cbn; try done.
    - by eexists.
    - intros [= Hlen] H. rewrite decide_True; [|apply H; left].
      apply IH; [done|]. intros j Hj. rewrite length_insert. apply H. by right.
  Qed.

Lemma index_fill_spec l ids v l' :
    index_fill l ids v = Ok l' →
    length l' = length l ∧
    (∀ i, i ∈ ids → l' !! i = Some v) ∧
    (∀ j, j ∉ ids → l' !! j = l !! j).
  Proof.
    unfold index_fill. intros H. split_and!.
    - by eapply index_put_length.
    - intros i Hi.
      destruct (index_put_lookup (λ x, x = v) _ _ _ _ i H) as (x & Hx & ->);
        [|done..].
      intros k x _ Hk. by apply lookup_replicate in Hk as [-> _].
    - intros j Hj. by eapply index_put_other.
  Qed.

Lemma index_fill_ok l ids v :
    (∀ i, i ∈ ids → i < length l) → ∃ l', index_fill l ids v = Ok l'.
  Proof.
    intros H. apply index_put_ok; [by rewrite length_replicate | done].
  Qed.
End indexed.

(** * Frame counters *)

Section frame.
Context {Base : Type}.
Implicit Types s : @Camera Base.

Lemma with_frame_same s : with_frame (_frame s) s = s.
  Proof. by destruct s. Qed.

Lemma with_intrinsics_same s :
    with_intrinsics (intrinsic_matrices (_data s)) s = s.
  Proof. destruct s as [? ? ? ? ? ? ? ? ? ? ? []]. done. Qed.

Lemma with_poses_same s :
    with_poses (pos_w (_data s)) (quat_w_world (_data s)) s = s.
  Proof. destruct s as [? ? ? ? ? ? ? ? ? ? ? []]. done. Qed.

Lemma with_capture_same s :
    with_capture (output (_data s)) (info (_data s)) s = s.
  Proof. destruct s as [? ? ? ? ? ? ? ? ? ? ? []]. done. Qed.

  (** [increment_frame] writes the frame counters only: the counters of the
      requested slots go up by one (with wrap-around), the others stay. *)
Lemma increment_frame_post env_ids s :
    post (increment_frame env_ids) s (frame_incremented env_ids s).
  Proof.
    unfold increment_frame. post_steps.
    - rename a into old, a0 into new, Heqr into Hold, Heqr0 into Hnew.
      exists new. split_and!; [done|by eapply index_put_length| |..].
      + intros j Hj. by eapply index_put_other.
      + intros _ i Hi.
        apply list_elem_of_lookup in Hi as Hk. destruct Hk as [k Hk].
        destruct (gather_lookup _ _ _ _ _ Hold Hk) as [Hz Hlt].
        destruct (lookup_lt_is_Some_2 (_frame s) i Hlt) as [z Hzi].
        exists z. split; [done|].
        destruct (index_put_lookup (λ v, v = wrap64 (z + 1)) _ _ _ _ i Hnew)
          as (v & Hv & ->); [|done..].
        intros k' v Hk' Hv. rewrite list_lookup_fmap in Hv.
        destruct (gather_lookup _ _ _ _ _ Hold Hk') as [Hz' _].
        rewrite Hz', Hzi in Hv. by injection Hv as <-.
      + done.
    - exists (_frame s). rewrite with_frame_same. split_and!; try done.
      intros Hr. exfalso.
      destruct (gather_ok (_frame s) env_ids Hr) as [old' Hold'].
      rewrite Hold' in Heqr. injection Heqr as ->.
      destruct (index_put_ok (_frame s) env_ids ((λ z, wrap64 (z + 1)) <$> a))
        as [l' Hl']; [|done|congruence].
      rewrite length_fmap. symmetry. by eapply gather_length.
    - exists (_frame s). rewrite with_frame_same. split_and!; try done.
      intros Hr. destruct (gather_ok (_frame s) env_ids Hr) as [old' Hold'].
      congruence.
  Qed.
End frame.

(** * Intrinsic matrices *)

Section intrinsic_matrices.
Context {Base : Type}.
Implicit Types s : @Camera Base.
Local Open Scope R_scope.

Lemma off_zero_zero : off_zero mat3_zero.
  Proof. by repeat split. Qed.

Lemma intrinsic_update_off_zero fpx shape m :
    off_zero m → off_zero (intrinsic_update fpx shape m).
  Proof. done. Qed.

Lemma intrinsic_update_closed l shape m :
    off_zero m →
    intrinsic_update (focal_px_of l shape) shape m = intrinsic_matrix_of l shape.
  Proof.
    intros (H1 & H2 & H3 & H4). unfold intrinsic_update, intrinsic_matrix_of.
    rewrite H1, H2, H3, H4. f_equal; lra.
  Qed.

  (** The tangent of half the field of view is the ratio it was computed
      from. *)
Lemma tan_half_fov l :
    tan (fov_of l / 2) = horizontal_aperture l / (2 * focal_length l).
  Proof.
    unfold fov_of.
    replace (2 * atan (horizontal_aperture l / (2 * focal_length l)) / 2)
      with (atan (horizontal_aperture l / (2 * focal_length l))) by lra.
    apply tan_atan.
  Qed.

Lemma tan_half_fov_nonzero l : lens_ok l → tan (fov_of l / 2) ≠ 0.
  Proof.
    intros [Hf Ha]. rewrite tan_half_fov. intros H.
    apply Rmult_integral in H as [H|H]; [done|].
    apply (Rinv_neq_0_compat (2 * focal_length l)); [lra | done].
  Qed.

Lemma post_write_intrinsic i r c v s (Q : result unit → @Camera Base → Prop) :
    (∀ m, intrinsic_matrices (_data s) !! i = Some m →
       Q (Ok tt)
         (with_intrinsics (<[i := mat3_set r c v m]> (intrinsic_matrices (_data s))) s)) →
    (intrinsic_matrices (_data s) !! i = None → Q (Raise IndexError) s) →
    post (write_intrinsic i r c v) s Q.
  Proof.
    intros H1 H2. unfold write_intrinsic. post_steps.
    - by apply H1.
    - by apply H2.
  Qed.

Lemma slot_prim_unique sim s i p p' :
    slot_prim sim s i p → slot_prim sim s i p' → p = p'.
  Proof. intros (h & H1 & H2) (h' & H1' & H2'). congruence. Qed.

Lemma write_intrinsic_run i r c v ms s m :
    ms !! i = Some m →
    write_intrinsic i r c v (with_intrinsics ms s)
      = (Ok tt, with_intrinsics (<[i := mat3_set r c v m]> ms) s).
  Proof.
    intros H. unfold write_intrinsic, mbind, M_bind, get, index. cbn.
    by rewrite H.
  Qed.

  (** The five writes of one iteration, together. *)
Lemma write_entries_run i fpx h w s m :
    intrinsic_matrices (_data s) !! i = Some m →
    (write_intrinsic i 0 0 fpx ;;
     write_intrinsic i 0 2 (INR w * 0.5) ;;
     write_intrinsic i 1 1 fpx ;;
     write_intrinsic i 1 2 (INR h * 0.5) ;;
     write_intrinsic i 2 2 1) s
    = (Ok tt,
       with_intrinsics
         (<[i := intrinsic_update fpx (h, w) m]> (intrinsic_matrices (_data s))) s).
  Proof.
    intros H. rewrite <- (with_intrinsics_same s) at 1.
    set (ms := intrinsic_matrices (_data s)) in *.
    assert (i < length ms)%nat as Hlt by by eapply lookup_lt_Some.
    unfold mbind, M_bind.
    rewrite (write_intrinsic_run _ _ _ _ _ _ _ H).
    repeat (erewrite write_intrinsic_run;
      [|apply list_lookup_insert_eq; by rewrite ?length_insert]).
    by rewrite !list_insert_insert_eq.
  Qed.

Lemma write_entries_fail i fpx h w s :
    intrinsic_matrices (_data s) !! i = None →
    (write_intrinsic i 0 0 fpx ;;
     write_intrinsic i 0 2 (INR w * 0.5) ;;
     write_intrinsic i 1 1 fpx ;;
     write_intrinsic i 1 2 (INR h * 0.5) ;;
     write_intrinsic i 2 2 1) s
    = (Raise IndexError, s).
  Proof.
    intros H. unfold write_intrinsic, mbind, M_bind, get, index. cbn.
    by rewrite H.
  Qed.

Lemma intrinsics_updated_fail sim i ids s e :
    (∀ p, slot_prim sim s i p → lens_ok (lens p) →
       (i < length (intrinsic_matrices (_data s)))%nat → False) →
    intrinsics_updated sim (i :: ids) s (Raise e) s.
  Proof.
    intros Hbad. exists (intrinsic_matrices (_data s)).
    rewrite with_intrinsics_same. split_and!; try done.
    intros Hall. exfalso.
    destruct (Hall i) as (Hlt & p & Hp & Hok); [left|]. by eapply Hbad.
  Qed.

Lemma intrinsics_updated_step sim i ids s p m r s' :
    slot_prim sim s i p →
    intrinsic_matrices (_data s) !! i = Some m →
    intrinsics_updated sim ids
      (with_intrinsics
         (<[i := intrinsic_update (focal_px_of (lens p) (image_shape s))
                   (image_shape s) m]>
            (intrinsic_matrices (_data s))) s) r s' →
    intrinsics_updated sim (i :: ids) s r s'.
  Proof.
    intros Hp Hm (ms & -> & Hlen & Hz & Hother & Hok & Htotal). cbn in *.
    rewrite length_insert in Hlen, Htotal.
    assert (i < length (intrinsic_matrices (_data s)))%nat as Hlt
      by by eapply lookup_lt_Some.
    exists ms. split_and!; try done.
    - intros H0. apply Hz. apply Forall_insert; [done|].
      by apply intrinsic_update_off_zero, (Forall_lookup_1 _ _ _ _ H0 Hm).
    - intros j Hj. apply not_elem_of_cons in Hj as [Hne Hj].
      rewrite (Hother j Hj). by apply list_lookup_insert_ne.
    - intros Hr i0 Hi0.
      destruct (decide (i0 = i)) as [->|Hne].
      + exists p, m. split_and!; [done..|].
        destruct (decide (i ∈ ids)) as [Hin|Hnin].
        * destruct (Hok Hr i Hin) as (p' & m' & Hp' & Hm' & ->).
          rewrite list_lookup_insert_eq in Hm' by done.
          injection Hm' as <-.
          by rewrite (slot_prim_unique sim s i p' p Hp' Hp).
        * rewrite (Hother i Hnin). by apply list_lookup_insert_eq.
      + apply elem_of_cons in Hi0 as [->|Hi0]; [done|].
        destruct (Hok Hr i0 Hi0) as (p' & m' & Hp' & Hm' & Hms).
        rewrite list_lookup_insert_ne in Hm' by done.
        by exists p', m'.
    - intros Hall. apply Htotal. intros i0 Hi0. apply Hall. by right.
  Qed.

  (** [_update_intrinsic_matrices] writes the intrinsic matrices only. In
      the matrices of the requested slots the five entries are set from the
      slot's lens; the other matrices stay. It returns when every requested
      slot exists and has a lens that gives no division by zero. *)
Lemma update_intrinsic_matrices_post sim env_ids s :
    post (_update_intrinsic_matrices sim env_ids) s
      (intrinsics_updated sim env_ids s).
  Proof.
    unfold _update_intrinsic_matrices.
    revert s. induction env_ids as [|i ids IH]; intros s.
    { cbn. exists (intrinsic_matrices (_data s)).
      rewrite with_intrinsics_same. split_and!; try done.
      intros _ i Hi. by apply elem_of_nil in Hi. }
    cbn [for_each].
    repeat (lazymatch goal with
            | |- post (write_intrinsic _ _ _ _ ≫= _) _ _ => fail
            | _ => post_step
            end).
    - (* the lens is read and both divisions go through *)
      rename a into h, n into height, n0 into width.
      assert (slot_prim sim s i p) as Hp by by exists h.
      apply post_intro. intros r s' Hrun.
      destruct (intrinsic_matrices (_data s) !! i) as [m|] eqn:Hm.
      + rewrite (write_entries_run _ _ _ _ _ _ Hm) in Hrun.
        injection Hrun as <- <-.
        fold (fov_of (lens p)).
        change (INR width * 0.5 / tan (fov_of (lens p) / 2))
          with (focal_px_of (lens p) (height, width)).
        rewrite <- Heqp0.
        eapply post_mono; [apply IH|].
        intros r s'. by apply (intrinsics_updated_step sim i ids s p m).
      + rewrite (write_entries_fail _ _ _ _ _ Hm) in Hrun.
        injection Hrun as <- <-.
        apply intrinsics_updated_fail.
        intros p' _ _ Hlt. apply lookup_ge_None in Hm. lia.
    - (* tan (fov / 2) = 0 *)
      rename a into h.
      apply intrinsics_updated_fail.
      intros p' Hp' Hok _.
      rewrite (slot_prim_unique sim s i p' p Hp') in Hok by by exists h.
      by apply (tan_half_fov_nonzero _ Hok).
    - (* focal_length = 0 *)
      rename a into h.
      apply intrinsics_updated_fail.
      intros p' Hp' [Hf _] _.
      rewrite (slot_prim_unique sim s i p' p Hp') in Hf by by exists h.
      lra.
    - (* the handle points to no prim *)
      apply intrinsics_updated_fail.
      intros p' (h' & Hh' & Hp') _ _. congruence.
    - (* no such slot *)
      apply intrinsics_updated_fail.
      intros p' (h' & Hh' & Hp') _ _. congruence.
  Qed.
End intrinsic_matrices.

(** * Poses *)

Section poses.
Context {Base : Type}.
Implicit Types s : @Camera Base.

Lemma get_world_poses_lookup st v ids ps qs k i :
    get_world_poses st v ids = Ok (ps, qs) →
    ids !! k = Some i →
    ∃ h p, view_prims v !! i = Some h ∧ st !! h = Some p ∧
      ps !! k = Some (world_position p) ∧
      qs !! k = Some (world_orientation p).
  Proof.
    revert ps qs k. induction ids as [|i0 ids IH]; intros ps qs k; [done|].
    cbn. destruct (view_prims v !! i0) as [h|] eqn:Hh; [|done].
    destruct (st !! h) as [p|] eqn:Hp; [|done].
    destruct (get_world_poses st v ids) as [[ps' qs']|e]; [|done].
    intros [= <- <-]. destruct k as [|k]; cbn.
    - intros [= <-]. by exists h, p.
    - by apply IH.
  Qed.

Lemma get_world_poses_length st v ids ps qs :
    get_world_poses st v ids = Ok (ps, qs) →
    length ps = length ids ∧ length qs = length ids.
  Proof.
    revert ps qs. induction ids as [|i0 ids IH]; intros ps qs; cbn.
    - by intros [= <- <-].
    - destruct (view_prims v !! i0) as [h|]; [|done].
      destruct (st !! h) as [p|]; [|done].
      destruct (get_world_poses st v ids) as [[ps' qs']|e]; [|done].
      intros [= <- <-]. destruct (IH ps' qs' eq_refl) as [H1 H2]. cbn. by rewrite H1, H2.
  Qed.

Lemma get_world_poses_ok st v ids :
    (∀ i, i ∈ ids → ∃ h p, view_prims v !! i = Some h ∧ st !! h = Some p) →
    ∃ ps qs, get_world_poses st v ids = Ok (ps, qs).
  Proof.
    induction ids as [|i0 ids IH]; intros H; cbn; [by eexists _, _|].
    destruct (H i0) as (h & p & -> & ->); [left|].
    destruct IH as (ps & qs & ->); [intros i Hi; apply H; by right|].
    by eexists _, _.
  Qed.

Lemma poses_updated_fail sim env_ids s e :
    (_sensor_prims s ≠ [] →
     is_Some (_view s) →
     (∀ i, i ∈ env_ids →
        i < length (pos_w (_data s)) ∧
        i < length (quat_w_world (_data s)) ∧
        ∃ p, view_prim sim s i p) →
     False) →
    poses_updated sim env_ids s (Raise e) s.
  Proof.
    intros Hbad. exists (pos_w (_data s)), (quat_w_world (_data s)).
    rewrite with_poses_same. split_and!; try done.
    intros H1 H2 H3. destruct (Hbad H1 H2 H3).
  Qed.

Lemma with_poses_pos_only ps s :
    set_data (set_pos_w (λ _, ps)) s = with_poses ps (quat_w_world (_data s)) s.
  Proof. destruct s as [? ? ? ? ? ? ? ? ? ? ? []]. done. Qed.

  (** [_update_poses] writes [pos_w] and [quat_w_world] only. For the
      requested slots the position is the one the view reports and the
      orientation is the view's, converted from the OpenGL convention to
      the world convention. *)
Lemma update_poses_post sim env_ids s :
    post (_update_poses sim env_ids) s (poses_updated sim env_ids s).
  Proof.
    unfold _update_poses, the_view. post_steps.
    - apply poses_updated_fail. intros H _ _. by destruct (_sensor_prims s).
    - rename v into view, l into ps, l0 into qs, a0 into new_pos, a1 into new_quat.
      rename Heqr into Hget, Heqr0 into Hpos, Heqr1 into Hquat.
      exists new_pos, new_quat. split_and!; [done|..].
      + by eapply index_put_length.
      + by eapply index_put_length.
      + intros j Hj. split; by eapply index_put_other.
      + intros _ i Hi.
        apply list_elem_of_lookup in Hi as Hk. destruct Hk as [k Hk].
        destruct (get_world_poses_lookup _ _ _ _ _ _ _ Hget Hk)
          as (h & p & Hh & Hp & Hps & Hqs).
        exists p. split; [by exists view, h|]. split.
        * destruct (index_put_lookup (λ x, x = world_position p)
            _ _ _ _ i Hpos) as (x & Hx & ->); [|done..].
          intros k' x Hk' Hx.
          destruct (get_world_poses_lookup _ _ _ _ _ _ _ Hget Hk')
            as (h' & p' & Hh' & Hp' & Hps' & _).
          congruence.
        * destruct (index_put_lookup
            (λ x, x = convert_orientation_convention (world_orientation p)
                        opengl world)
            _ _ _ _ i Hquat) as (x & Hx & ->); [|done..].
          intros k' x Hk' Hx. rewrite list_lookup_fmap in Hx.
          destruct (get_world_poses_lookup _ _ _ _ _ _ _ Hget Hk')
            as (h' & p' & Hh' & Hp' & _ & Hqs').
          rewrite Hqs' in Hx. cbn in Hx. congruence.
      + done.
    - rename l into ps, l0 into qs, a0 into new_pos.
      rename Heqr into Hget, Heqr0 into Hpos, Heqr1 into Hquat.
      rewrite with_poses_pos_only.
      exists new_pos, (quat_w_world (_data s)). split_and!; try done.
      + by eapply index_put_length.
      + intros j Hj. split; [by eapply index_put_other | done].
      + intros _ _ Hall. exfalso.
        destruct (get_world_poses_length _ _ _ _ _ Hget) as [_ Hlq].
        destruct (index_put_ok (quat_w_world (_data s)) env_ids
          ((λ q, convert_orientation_convention q opengl world) <$> qs))
          as [l' Hl']; [by rewrite length_fmap | | congruence].
        intros i Hi. by destruct (Hall i Hi) as (_ & ? & _).
    - rename l into ps, l0 into qs.
      rename Heqr into Hget, Heqr0 into Hpos.
      apply poses_updated_fail. intros _ _ Hall.
      destruct (get_world_poses_length _ _ _ _ _ Hget) as [Hlp _].
      destruct (index_put_ok (pos_w (_data s)) env_ids ps)
        as [l' Hl']; [done | | congruence].
      intros i Hi. by destruct (Hall i Hi) as (? & _).
    - rename v into view, Heqr into Hget.
      apply poses_updated_fail. intros _ _ Hall.
      destruct (get_world_poses_ok (stage sim) view env_ids) as (ps & qs & Hok);
        [|congruence].
      intros i Hi. destruct (Hall i Hi) as (_ & _ & p & v' & h & Hv & Hh & Hp).
      exists h, p. split; [|done]. congruence.
    - apply poses_updated_fail. intros _ [v Hv] _. congruence.
  Qed.

End poses.

(** * The refresh, phase by phase *)

Section refresh.
Context {Base : Type}.
Implicit Types s : @Camera Base.

Lemma update_buffers_impl_phases sim env_ids s :
    _update_buffers_impl sim env_ids s
    = (increment_frame env_ids ;;
       _update_intrinsic_matrices sim env_ids ;;
       _update_poses sim env_ids ;;
       capture_phase sim env_ids) s.
  Proof. done. Qed.

  (** A refresh that returns went through its four phases. *)
Lemma refresh_ok_inv sim env_ids s s' :
    _update_buffers_impl sim env_ids s = (Ok tt, s') →
    ∃ s1 s2 s3,
      frame_incremented env_ids s (Ok tt) s1 ∧
      intrinsics_updated sim env_ids s1 (Ok tt) s2 ∧
      poses_updated sim env_ids s2 (Ok tt) s3 ∧
      capture_phase sim env_ids s3 = (Ok tt, s').
  Proof.
    rewrite update_buffers_impl_phases. intros H.
    apply bind_inv in H as [([] & s1 & H1 & H)|(e & _ & [=])].
    apply bind_inv in H as [([] & s2 & H2 & H)|(e & _ & [=])].
    apply bind_inv in H as [([] & s3 & H3 & H)|(e & _ & [=])].
    exists s1, s2, s3. split_and!; [| | |done].
    - exact (post_run _ _ _ _ _ (increment_frame_post env_ids s) H1).
    - exact (post_run _ _ _ _ _ (update_intrinsic_matrices_post sim env_ids s1) H2).
    - exact (post_run _ _ _ _ _ (update_poses_post sim env_ids s2) H3).
  Qed.

  (** Whatever the outcome, the first three phases write the frame
      counters, the intrinsic matrices and the poses only, and what
      remains is the reading of the annotators. *)
Lemma refresh_inv sim env_ids s r s' :
    _update_buffers_impl sim env_ids s = (r, s') →
    ∃ fr ms ps qs,
      let s3 := with_poses ps qs (with_intrinsics ms (with_frame fr s)) in
      (Forall off_zero (intrinsic_matrices (_data s)) → Forall off_zero ms) ∧
      ((∃ e, r = Raise e ∧ s' = s3) ∨ capture_phase sim env_ids s3 = (r, s')).
  Proof.
    rewrite update_buffers_impl_phases. intros H.
    apply bind_inv in H as [([] & s1 & H1 & H)|(e & H1 & ->)].
    - destruct (post_run _ _ _ _ _ (increment_frame_post env_ids s) H1)
        as (fr & -> & _).
      apply bind_inv in H as [([] & s2 & H2 & H)|(e & H2 & ->)].
      + destruct (post_run _ _ _ _ _ (update_intrinsic_matrices_post sim env_ids _) H2)
          as (ms & -> & _ & Hz & _).
        apply bind_inv in H as [([] & s3 & H3 & H)|(e & H3 & ->)].
        * destruct (post_run _ _ _ _ _ (update_poses_post sim env_ids _) H3)
            as (ps & qs & -> & _).
          exists fr, ms, ps, qs. split; [exact Hz|]. by right.
        * destruct (post_run _ _ _ _ _ (update_poses_post sim env_ids _) H3)
            as (ps & qs & -> & _).
          exists fr, ms, ps, qs. split; [exact Hz|]. left. by exists e.
      + destruct (post_run _ _ _ _ _ (update_intrinsic_matrices_post sim env_ids _) H2)
          as (ms & -> & _ & Hz & _).
        exists fr, ms, (pos_w (_data s)), (quat_w_world (_data s)).
        split; [exact Hz|].
        left. exists e. split; [done|].
        by rewrite <- (with_poses_same (with_intrinsics ms (with_frame fr s))) at 1.
    - destruct (post_run _ _ _ _ _ (increment_frame_post env_ids s) H1)
        as (fr & -> & _).
      exists fr, (intrinsic_matrices (_data s)), (pos_w (_data s)),
        (quat_w_world (_data s)).
      split; [done|].
      left. exists e. split; [done|].
      rewrite <- (with_poses_same (with_frame fr s)) at 1.
      by rewrite <- (with_intrinsics_same (with_frame fr s)) at 1.
  Qed.

  (** On slots that are there, with usable lenses, the first three phases
      return. *)
Lemma refresh_prefix_total sim env_ids s :
    refreshable sim env_ids s →
    ∃ s1 s2 s3,
      frame_incremented env_ids s (Ok tt) s1 ∧
      intrinsics_updated sim env_ids s1 (Ok tt) s2 ∧
      poses_updated sim env_ids s2 (Ok tt) s3 ∧
      _update_buffers_impl sim env_ids s = capture_phase sim env_ids s3.
  Proof.
    intros (Hsp & Hview & Hall).
    rewrite update_buffers_impl_phases. unfold mbind at 1, M_bind at 1.
    pose proof (increment_frame_post env_ids s) as H1. unfold post in H1.
    destruct (increment_frame env_ids s) as [r1 s1]. cbn in H1.
    assert (r1 = Ok tt) as ->.
    { destruct H1 as (fr & _ & _ & _ & _ & Ht). apply Ht.
      intros i Hi. by destruct (Hall i Hi) as (? & _). }
    unfold mbind at 1, M_bind at 1.
    pose proof (update_intrinsic_matrices_post sim env_ids s1) as H2.
    unfold post in H2.
    destruct (_update_intrinsic_matrices sim env_ids s1) as [r2 s2]. cbn in H2.
    destruct H1 as (fr & -> & H1).
    assert (r2 = Ok tt) as ->.
    { destruct H2 as (ms & _ & _ & _ & _ & _ & Ht). apply Ht.
      intros i Hi. by destruct (Hall i Hi) as (_ & ? & _ & _ & ? & _). }
    unfold mbind at 1, M_bind at 1.
    pose proof (update_poses_post sim env_ids s2) as H3. unfold post in H3.
    destruct (_update_poses sim env_ids s2) as [r3 s3]. cbn in H3.
    destruct H2 as (ms & -> & H2).
    assert (r3 = Ok tt) as ->.
    { destruct H3 as (ps & qs & _ & _ & _ & _ & _ & Ht). apply Ht; [done..|].
      intros i Hi. by destruct (Hall i Hi) as (_ & _ & ? & ? & _ & ?). }
    exists (with_frame fr s), (with_intrinsics ms (with_frame fr s)), s3.
    split_and!; [by exists fr | by exists ms | done | done].
  Qed.
End refresh.

(** * Reading the annotators *)

Section capture.
Context {Base : Type}.
Implicit Types s : @Camera Base.
Implicit Types out : gmap string (list Tensor).
Implicit Types inf : list (gmap string (option info_t)).

Lemma set_info_capture f s :
    set_data (set_info f) s
    = with_capture (output (_data s)) (f (info (_data s))) s.
  Proof. destruct s as [? ? ? ? ? ? ? ? ? ? ? []]. done. Qed.

Lemma set_output_capture f s :
    set_data (set_output f) s
    = with_capture (f (output (_data s))) (info (_data s)) s.
  Proof. destruct s as [? ? ? ? ? ? ? ? ? ? ? []]. done. Qed.

Lemma with_capture_twice out inf out' inf' s :
    with_capture out inf (with_capture out' inf' s) = with_capture out inf s.
  Proof. done. Qed.

Lemma post_write_info i name v out inf s
      (Q : result unit → @Camera Base → Prop) :
    (∀ d, inf !! i = Some d →
       Q (Ok tt) (with_capture out (<[i := <[name := v]> d]> inf) s)) →
    (inf !! i = None → Q (Raise IndexError) (with_capture out inf s)) →
    post (write_info i name v) (with_capture out inf s) Q.
  Proof.
    intros H1 H2. unfold write_info. post_steps.
    - rewrite set_info_capture. by apply H1.
    - by apply H2.
  Qed.

Lemma post_write_output name i data out inf s
      (Q : result unit → @Camera Base → Prop) :
    (∀ buffer, out !! name = Some buffer → i < length buffer →
       Q (Ok tt) (with_capture (<[name := <[i := data]> buffer]> out) inf s)) →
    (∀ e, Q (Raise e) (with_capture out inf s)) →
    post (write_output name i data) (with_capture out inf s) Q.
  Proof.
    intros H1 H2. unfold write_output. post_steps; cbn in *; try apply H2.
    rewrite set_output_capture. cbn.
    unfold setitem in Heqr.
    destruct (l !! i) as [old|] eqn:Hold; [|done].
    destruct (same_shape old data); [|done]. injection Heqr as <-.
    apply H1; [done|]. by eapply lookup_lt_Some.
  Qed.

  (** One read either leaves the buffers alone and raises, or the backend
      answered it and exactly one slice of one buffer was overwritten. *)
Lemma update_slot_post sim name annotators i out inf s :
    post (update_slot sim name annotators i) (with_capture out inf s)
      (λ r s', ∃ out' inf', s' = with_capture out' inf' s ∧
         (((∃ e, r = Raise e) ∧ out' = out) ∨
          (fetched sim (name, annotators, i) ∧
           ∃ data buffer, out !! name = Some buffer ∧ i < length buffer ∧
             out' = <[name := <[i := data]> buffer]> out))).
  Proof.
    unfold update_slot.
    repeat (first
      [ apply post_write_output; [intros ? ? ?|intros ?]
      | apply post_write_info; [intros ? ?|intros ?]
      | post_step ]).
    all: try (exists out, inf; split; [done|]; left; split; [by eexists|done]).
    - eexists _, _. split; [done|]. right. split.
      + exists a. split; [done|]. cbn in *. by rewrite Heqr.
      + by eexists _, _.
    - eexists _, _. split; [done|]. right. split.
      + exists a. split; [done|]. cbn in *. by rewrite Heqr.
      + by eexists _, _.
  Qed.

  (** The two nested loops of the refresh make the reads of
      [capture_items], in that order. *)
Lemma capture_loop_flat sim reg env_ids s :
    for_each reg (λ '(name, annotators),
      for_each env_ids (update_slot sim name annotators)) s
    = for_each (capture_items reg env_ids)
        (λ '(name, annotators, i), update_slot sim name annotators i) s.
  Proof.
    revert s. induction reg as [|[name annotators] reg IH]; intros s; [done|].
    unfold capture_items. cbn [mbind list_bind for_each].
    fold (capture_items reg env_ids).
    rewrite for_each_app, for_each_app_run, for_each_fmap.
    change (λ x : nat, @update_slot Base sim name annotators x)
      with (@update_slot Base sim name annotators).
    unfold mbind, M_bind.
    destruct (for_each env_ids _ s) as [[[]|e] s1]; [|done]. apply IH.
  Qed.

  (** The reads that were made before the loop ended (normally or by an
      exception) form a prefix [done] of the reads to make. Each of them was
      answered by the backend, and no slice outside of them has changed. *)
Lemma capture_loop_post sim items out inf s :
    post (for_each items (λ '(name, annotators, i),
            update_slot sim name annotators i))
      (with_capture out inf s)
      (λ r s', ∃ done rest out' inf',
         items = done ++ rest ∧
         s' = with_capture out' inf' s ∧
         Forall (fetched sim) done ∧
         (∀ name j, (∀ annotators, (name, annotators, j) ∉ done) →
            out' !! name ≫= (λ b, b !! j) = out !! name ≫= (λ b, b !! j)) ∧
         (r = Ok tt → rest = [])).
  Proof.
    revert out inf.
    induction items as [|[[name annotators] i] items IH]; intros out inf.
    { cbn. exists [], [], out, inf. split_and!; done. }
    cbn [for_each]. apply post_bind.
    eapply post_mono; [apply update_slot_post|].
    intros r s1 (out1 & inf1 & -> & Hcase).
    destruct Hcase as [[[e ->] ->]|[Hf (data & buffer & Hb & Hlt & ->)]].
    - (* the read raised before anything was written *)
      exists [], ((name, annotators, i) :: items), out, inf1.
      split_and!; done.
    - assert (∀ name' j, (name', j) ≠ (name, i) →
        <[name := <[i := data]> buffer]> out !! name' ≫= (λ b, b !! j)
        = out !! name' ≫= (λ b, b !! j)) as Hne.
      { intros name' j Hne. destruct (decide (name' = name)) as [->|Hn].
        - rewrite lookup_insert_eq, Hb. cbn.
          apply list_lookup_insert_ne. congruence.
        - by rewrite lookup_insert_ne. }
      destruct r as [[]|e].
      + eapply post_mono; [apply IH|].
        intros r s2 (dn & rest & out2 & inf2 & -> & -> & Hfd & Hsame & Hr).
        exists ((name, annotators, i) :: dn), rest, out2, inf2.
        split_and!; [done|done|by constructor| |done].
        intros name' j Hnot. rewrite Hsame.
        * apply Hne. intros [= -> ->]. apply (Hnot annotators). left.
        * intros anns Hin. apply (Hnot anns). by right.
      + exists [(name, annotators, i)], items,
          (<[name := <[i := data]> buffer]> out), inf1.
        split_and!; [done|done|by repeat constructor| |done].
        intros name' j Hnot. apply Hne.
        intros [= -> ->]. apply (Hnot annotators). left.
  Qed.
End capture.

(** * The first refresh: allocation *)

Section allocation.
Context {Base : Type}.
Implicit Types s : @Camera Base.
Implicit Types out : gmap string (list Tensor).
Implicit Types inf : list (gmap string (option info_t)).

Lemma stack_ok ts r : stack ts = Ok r → r = ts.
  Proof.
    unfold stack. destruct ts as [|t ts]; [done|].
    destruct (forallb _ _); by intros [= <-].
  Qed.

  (** The inner loop collects one tensor per index and writes no output
      buffer. *)
Lemma collect_annotator_data_post sim name annotators indices acc out inf s :
    post (collect_annotator_data sim name annotators indices acc)
      (with_capture out inf s)
      (λ r s', ∃ inf', s' = with_capture out inf' s ∧
         ∀ data_all, r = Ok data_all →
           length data_all = length acc + length indices).
  Proof.
    revert acc inf. induction indices as [|i indices IH]; intros acc inf.
    { cbn. exists inf. split; [done|]. intros ? [= <-]. lia. }
    cbn [collect_annotator_data].
    repeat (first
      [ apply post_write_info; [intros ? ?|intros ?]
      | post_step ]).
    all: try (exists inf; split; [done|]; by intros ? [=]).
    eapply post_mono; [apply IH|].
    intros r s' (inf' & -> & Hlen). exists inf'. split; [done|].
    intros data_all Hr. rewrite (Hlen _ Hr), length_app. cbn. lia.
  Qed.

  (** The allocation loop over the registry: when it returns, every data
      type of the registry has a buffer with one slice per index. *)
Lemma allocation_loop_post sim (reg : registry) indices out inf s :
    post (for_each reg (λ '(name, annotators),
            data_all_cameras ←
              collect_annotator_data sim name annotators indices [];
            stacked ← lift (stack data_all_cameras);
            modify (set_data (set_output (<[name := stacked]>)))))
      (with_capture out inf s)
      (λ r s', ∃ out' inf', s' = with_capture out' inf' s ∧
         (r = Ok tt →
            (∀ name, name ∈ reg.*1 →
               ∃ buffer, out' !! name = Some buffer ∧
                 length buffer = length indices) ∧
            (∀ name, name ∉ reg.*1 → out' !! name = out !! name))).
  Proof.
    revert out inf. induction reg as [|[name annotators] reg IH]; intros out inf.
    { cbn. exists out, inf. split; [done|]. intros _. split; [|done].
      intros name Hn. by apply elem_of_nil in Hn. }
    cbn [for_each]. apply post_bind. apply post_bind.
    eapply post_mono; [apply collect_annotator_data_post|].
    intros [data_all|e] s1 (inf1 & -> & Hlen); cbn;
      [|exists out, inf1; by split].
    specialize (Hlen _ eq_refl). cbn in Hlen.
    post_steps; [|exists out, inf1; by split].
    rewrite set_output_capture. cbn. rewrite with_capture_twice.
    apply stack_ok in Heqr as ->.
    eapply post_mono; [apply IH|].
    intros r s' (out' & inf' & -> & Hr). exists out', inf'. split; [done|].
    intros ->. destruct (Hr eq_refl) as [Hin Hout]. split.
    - intros name' Hn. cbn in Hn.
      destruct (decide (name' ∈ reg.*1)) as [Hreg|Hreg]; [by apply Hin|].
      apply elem_of_cons in Hn as [->|Hn]; [|done].
      exists data_all. split; [|done].
      rewrite (Hout _ Hreg). apply lookup_insert_eq.
    - intros name' Hn. cbn in Hn. apply not_elem_of_cons in Hn as [Hne Hn].
      rewrite (Hout _ Hn). by apply lookup_insert_ne.
  Qed.

Lemma create_annotator_data_post sim s :
    post (_create_annotator_data sim) s
      (λ r s', ∃ out' inf', s' = with_capture out' inf' s ∧
         (r = Ok tt →
            ∀ name, name ∈ (_rep_registry s).*1 →
              ∃ buffer, out' !! name = Some buffer ∧
                length buffer = length (_ALL_INDICES s))).
  Proof.
    unfold _create_annotator_data. post_steps.
    pose proof (allocation_loop_post sim (_rep_registry s) (_ALL_INDICES s)
      (output (_data s)) (info (_data s)) s) as Hloop.
    rewrite with_capture_same in Hloop.
    eapply post_mono; [exact Hloop|].
    intros r s' (out' & inf' & -> & Hr). exists out', inf'.
    split; [done|]. intros ->. by destruct (Hr eq_refl).
  Qed.

  (** A refresh that finds no output buffer allocates them all, whatever
      the requested slots are. *)
Lemma refresh_allocates sim env_ids s s' :
    size (output (_data s)) = 0 →
    _update_buffers_impl sim env_ids s = (Ok tt, s') →
    ∀ name, name ∈ (_rep_registry s).*1 →
      ∃ buffer, output (_data s') !! name = Some buffer ∧
        length buffer = length (_ALL_INDICES s).
  Proof.
    intros Hsize H.
    apply refresh_ok_inv in H as (s1 & s2 & s3 & H1 & H2 & H3 & H).
    destruct H1 as (fr & -> & _). destruct H2 as (ms & -> & _).
    destruct H3 as (ps & qs & -> & _).
    unfold capture_phase, mbind, M_bind, get in H. cbn in H.
    rewrite decide_True in H by done.
    pose proof (post_run _ _ _ _ _ (create_annotator_data_post sim _) H)
      as (out' & inf' & -> & Hr).
    exact (Hr eq_refl).
  Qed.
End allocation.

(** * Lazy allocation *)

(** C3. After initialization no requested data type has an output buffer
    yet, and the first refresh (the one that finds no output buffer)
    allocates a buffer for every requested data type, each with one slice
    per slot of the batch, whatever slots that refresh was asked for. *)
Theorem first_refresh_allocates_all_slots {Base}
    (find_matching_prims : string → Stage → list nat)
    (render_product : string → nat * nat → string)
    (sim0 : Sim) (device : string) (n : nat) (c0 c1 : @Camera Base) :
  _is_initialized c0 = false →
  initialize find_matching_prims render_product sim0 device n c0 = (Ok tt, c1) →
  (∀ T, output (_data c1) !! T = None) ∧
  (∀ sim env_ids c2,
     _update_buffers_impl sim env_ids c1 = (Ok tt, c2) →
     ∀ T, T ∈ data_types (cfg c0) →
       ∃ buffer, output (_data c2) !! T = Some buffer ∧ length buffer = n).
Proof.
  intros Hc0 Hinit.
  destruct (initialize_ok _ _ _ _ _ _ _ Hc0 Hinit)
    as [(Hcfg & _ & _ & _ & _ & Hall & _ & Hreg & Hout & _) _].
  split.
  - intros T. by rewrite Hout.
  - intros sim env_ids c2 Hrun T HT.
    destruct (refresh_allocates sim env_ids c1 c2) with (name := T)
      as (buffer & Hb & Hlen); [by rewrite Hout | done | |].
    + rewrite Hreg. by apply registry_new_keys.
    + exists buffer. split; [done|]. by rewrite Hlen, Hall, length_seq.
Qed.

Lemma refreshable_camera2 v env_ids :
  env_ids ⊆ [0; 1] → refreshable (Examples.sim2 v) env_ids Examples.camera2.
Proof.
  intros Hsub. split_and!.
  - discriminate.
  - by eexists.
  - intros i Hi. apply Hsub in Hi.
    assert (lens_ok Examples.lens_24_36) as Hlens.
    { split; cbn; intros H; lra. }
    apply elem_of_cons in Hi as [->|Hi];
      [|apply elem_of_cons in Hi as [->|Hi]; [|by apply elem_of_nil in Hi]].
    + split_and!; [lazy; lia..| |].
      * eexists. split; [exists 0; split; reflexivity | exact Hlens].
      * eexists. by exists (MkView [0; 1]), 0.
    + split_and!; [lazy; lia..| |].
      * eexists. split; [exists 1; split; reflexivity | exact Hlens].
      * eexists. by exists (MkView [0; 1]), 1.
Qed.

Lemma initialize_camera2 :
  initialize Examples.find_matching_prims Examples.render_product
    (Examples.sim2 0) "cuda:0" 2 (Examples.camera_new Examples.cfg_rgb)
  = (Ok tt, Examples.camera2).
Proof. vm_compute. reflexivity. Qed.

Lemma first_refresh_allocates_all_slots_witness :
  ∃ c2,
    _update_buffers_impl (Examples.sim2 7) [1] Examples.camera2 = (Ok tt, c2) ∧
    ∃ buffer, output (_data c2) !! "rgb" = Some buffer ∧ length buffer = 2.
Proof.
  assert (∃ c2, _update_buffers_impl (Examples.sim2 7) [1] Examples.camera2
                = (Ok tt, c2)) as [c2 Hc2].
  { destruct (refresh_prefix_total (Examples.sim2 7) [1] Examples.camera2)
      as (s1 & s2 & s3 & H1 & H2 & H3 & Hrun).
    { apply refreshable_camera2. set_solver. }
    destruct H1 as (fr & -> & _), H2 as (ms & -> & _), H3 as (ps & qs & -> & _).
    rewrite Hrun. eexists. lazy. reflexivity. }
  exists c2. split; [exact Hc2|].
  apply (proj2 (first_refresh_allocates_all_slots
                  Examples.find_matching_prims Examples.render_product
                  (Examples.sim2 0) "cuda:0" 2
                  (Examples.camera_new Examples.cfg_rgb) Examples.camera2
                  eq_refl initialize_camera2)
           (Examples.sim2 7) [1] c2 Hc2 "rgb").
  cbn. set_solver.
Defined.

(** * What a refresh and a reset leave alone *)

Section frames.
Context {Base : Type}.
Variable super_reset : option (list nat) → Base → Base.
Implicit Types s : @Camera Base.

  (** Reading the annotators writes the output buffers and the info
      only. *)
Lemma capture_phase_post sim env_ids s :
    post (capture_phase sim env_ids) s
      (λ _ s', ∃ out inf, s' = with_capture out inf s).
  Proof.
    unfold capture_phase. post_steps.
    - eapply post_mono; [apply create_annotator_data_post|].
      intros r s' (out & inf & -> & _). by exists out, inf.
    - apply post_intro. intros r s' H. rewrite capture_loop_flat in H.
      rewrite <- (with_capture_same s) in H.
      pose proof (post_run _ _ _ _ _ (capture_loop_post sim _ _ _ s) H)
        as (dn & rest & out & inf & _ & -> & _).
      by exists out, inf.
  Qed.

  (** A refresh, whatever its outcome, writes frame counters, intrinsic
      matrices, poses, output buffers and info, and nothing else. *)
Lemma refresh_shape sim env_ids s r s' :
    _update_buffers_impl sim env_ids s = (r, s') →
    ∃ fr ms ps qs out inf,
      s' = with_capture out inf
             (with_poses ps qs (with_intrinsics ms (with_frame fr s))) ∧
      (Forall off_zero (intrinsic_matrices (_data s)) → Forall off_zero ms).
  Proof.
    intros H. apply refresh_inv in H as (fr & ms & ps & qs & Hz & H).
    exists fr, ms, ps, qs. cbn in H.
    destruct H as [(e & -> & ->)|H].
    - eexists _, _. split; [|exact Hz].
      by rewrite <- (with_capture_same (with_poses _ _ _)) at 1.
    - pose proof (post_run _ _ _ _ _ (capture_phase_post sim env_ids _) H)
        as (out & inf & ->).
      by exists out, inf.
  Qed.

  (** A reset that returns went through its steps. *)
Lemma reset_ok_inv sim env_ids s s' :
    reset super_reset sim env_ids s = (Ok tt, s') →
    let ids := default (_ALL_INDICES s) env_ids in
    ∃ s1 s2 fr,
      poses_updated sim ids (set_base (super_reset env_ids) s) (Ok tt) s1 ∧
      intrinsics_updated sim ids s1 (Ok tt) s2 ∧
      index_fill (_frame s2) ids 0%Z = Ok fr ∧
      s' = with_frame fr s2.
  Proof.
    intros H ids. unfold reset in H.
    apply bind_inv in H as [([] & s0 & H0 & H)|(e & _ & [=])].
    injection H0 as <-.
    apply bind_inv in H as [(c & s0 & H0 & H)|(e & _ & [=])].
    injection H0 as <- <-. cbn in H. fold ids in H.
    apply bind_inv in H as [([] & s1 & H1 & H)|(e & _ & [=])].
    apply bind_inv in H as [([] & s2 & H2 & H)|(e & _ & [=])].
    apply bind_inv in H as [(c & s2' & H0 & H)|(e & _ & [=])].
    injection H0 as <- <-.
    apply bind_inv in H as [(fr & s2' & H0 & H)|(e & _ & [=])].
    unfold lift in H0. injection H0 as Hfill <-.
    injection H as <-.
    exists s1, s2, fr. split_and!; [| |done|done].
    - exact (post_run _ _ _ _ _ (update_poses_post sim ids _) H1).
    - exact (post_run _ _ _ _ _ (update_intrinsic_matrices_post sim ids _) H2).
  Qed.

  (** A reset, whatever its outcome, writes the state of the base class,
      poses, intrinsic matrices and frame counters, and nothing else. *)
Lemma reset_shape sim env_ids s r s' :
    reset super_reset sim env_ids s = (r, s') →
    ∃ fr ms ps qs,
      s' = with_frame fr (with_intrinsics ms (with_poses ps qs
             (set_base (super_reset env_ids) s))) ∧
      (Forall off_zero (intrinsic_matrices (_data s)) → Forall off_zero ms).
  Proof.
    unfold reset. intros H.
    apply bind_inv in H as [([] & s0 & H0 & H)|(e & [=] & _)].
    injection H0 as <-.
    apply bind_inv in H as [(c & s0 & H0 & H)|(e & [=] & _)].
    injection H0 as <- <-. cbn in H.
    set (ids := default (_ALL_INDICES s) env_ids) in *.
    set (s0 := set_base (super_reset env_ids) s) in *.
    assert (∀ ps qs ms, ∃ fr,
      with_intrinsics ms (with_poses ps qs s0)
      = with_frame fr (with_intrinsics ms (with_poses ps qs s0))) as Heta.
    { intros. exists (_frame (with_intrinsics ms (with_poses ps qs s0))).
      by rewrite with_frame_same. }
    apply bind_inv in H as [([] & s1 & H1 & H)|(e & H1 & ->)].
    - destruct (post_run _ _ _ _ _ (update_poses_post sim ids _) H1)
        as (ps & qs & -> & _).
      apply bind_inv in H as [([] & s2 & H2 & H)|(e & H2 & ->)].
      + destruct (post_run _ _ _ _ _ (update_intrinsic_matrices_post sim ids _) H2)
          as (ms & -> & _ & Hz & _).
        apply bind_inv in H as [(c & s2' & H0 & H)|(e & [=] & _)].
        injection H0 as <- <-.
        apply bind_inv in H as [(fr & s2' & H0 & H)|(e & H0 & ->)].
        * unfold lift in H0. injection H0 as _ <-. injection H as <-.
          by exists fr, ms, ps, qs.
        * unfold lift in H0. injection H0 as _ <-.
          destruct (Heta ps qs ms) as [fr Hfr]. by exists fr, ms, ps, qs.
      + destruct (post_run _ _ _ _ _ (update_intrinsic_matrices_post sim ids _) H2)
          as (ms & -> & _ & Hz & _).
        destruct (Heta ps qs ms) as [fr Hfr]. by exists fr, ms, ps, qs.
    - destruct (post_run _ _ _ _ _ (update_poses_post sim ids _) H1)
        as (ps & qs & -> & _).
      destruct (Heta ps qs (intrinsic_matrices (_data s))) as [fr Hfr].
      exists fr, (intrinsic_matrices (_data s)), ps, qs. split; [|done].
      rewrite <- Hfr.
      by rewrite <- (with_intrinsics_same (with_poses ps qs s0)) at 1.
  Qed.
End frames.

Section reachable_states.
Context {Base : Type}.
Variable super_reset : option (list nat) → Base → Base.
Variable find_matching_prims : string → Stage → list nat.
Variable render_product : string → nat * nat → string.

  (** In every state of an initialized batch the entries of the intrinsic
      matrices that are never written are still zero. *)
Lemma reachable_off_zero (s : @Camera Base) :
    reachable super_reset find_matching_prims render_product s →
    Forall off_zero (intrinsic_matrices (_data s)).
  Proof.
    induction 1 as [sim device n c0 c Hc0 Hinit|sim ids c r c' _ IH Hrun
                   |sim ids c r c' _ IH Hrun].
    - destruct (initialize_ok _ _ _ _ _ _ _ Hc0 Hinit)
        as [(_ & _ & _ & _ & _ & _ & _ & _ & _ & ->) _].
      apply Forall_replicate, off_zero_zero.
    - apply refresh_shape in Hrun as (fr & ms & ps & qs & out & inf & -> & Hz).
      by apply Hz.
    - apply reset_shape in Hrun as (fr & ms & ps & qs & -> & Hz).
      by apply Hz.
  Qed.
End reachable_states.

(** * Poses and intrinsic matrices after a refresh *)

Section refresh_results.
Context {Base : Type}.
Variable super_reset : option (list nat) → Base → Base.
Variable find_matching_prims : string → Stage → list nat.
Variable render_product : string → nat * nat → string.
Implicit Types s : @Camera Base.

  (** What [_update_buffers_impl] stores as the pose of a refreshed slot:
      the position that the view reports, as it is, and the orientation
      that the view reports, converted from the OpenGL convention to the
      world convention (forward +X, up +Z). *)
Lemma refresh_updates_poses sim env_ids s s' :
    _update_buffers_impl sim env_ids s = (Ok tt, s') →
    ∀ i, i ∈ env_ids →
      ∃ p, view_prim sim s i p ∧
        pos_w (_data s') !! i = Some (world_position p) ∧
        quat_w_world (_data s') !! i
          = Some (convert_orientation_convention (world_orientation p)
                    opengl world).
  Proof.
    intros H i Hi.
    apply refresh_ok_inv in H as (s1 & s2 & s3 & H1 & H2 & H3 & H).
    pose proof (post_run _ _ _ _ _ (capture_phase_post sim env_ids s3) H)
      as (out & inf & ->).
    destruct H1 as (fr & -> & _). destruct H2 as (ms & -> & _).
    destruct H3 as (ps & qs & -> & _ & _ & _ & Hok & _).
    destruct (Hok eq_refl i Hi) as (p & Hp & Hps & Hqs).
    exists p. split_and!; done.
  Qed.

  (** A refresh that returns has incremented the frame counter of every
      requested slot once. *)
Lemma refresh_frame_counters sim env_ids s s' :
    _update_buffers_impl sim env_ids s = (Ok tt, s') →
    length (_frame s') = length (_frame s) ∧
    (∀ i, i ∈ env_ids →
       ∃ z, _frame s !! i = Some z ∧ _frame s' !! i = Some (wrap64 (z + 1))) ∧
    (∀ j, j ∉ env_ids → _frame s' !! j = _frame s !! j).
  Proof.
    intros H.
    apply refresh_ok_inv in H as (s1 & s2 & s3 & H1 & H2 & H3 & H).
    pose proof (post_run _ _ _ _ _ (capture_phase_post sim env_ids s3) H)
      as (out & inf & ->).
    destruct H1 as (fr & -> & Hlen & Hother & Hin & _).
    destruct H2 as (ms & -> & _). destruct H3 as (ps & qs & -> & _).
    split_and!; [done | by apply Hin | done].
  Qed.

  (** C5. In every state of an initialized batch, a refresh that returns
      leaves, for every requested slot [i], the intrinsic matrix with
      [M[0,0] = M[1,1] = width * 0.5 / tan (fov / 2)], where
      [fov = 2 * atan (horizontal_aperture / (2 * focal_length))] is read
      from the lens of the prim behind slot [i], [M[0,2] = width / 2],
      [M[1,2] = height / 2], [M[2,2] = 1], and zero elsewhere. *)
Theorem refresh_recomputes_intrinsic_matrices sim env_ids s s' :
    reachable super_reset find_matching_prims render_product s →
    _update_buffers_impl sim env_ids s = (Ok tt, s') →
    ∀ i, i ∈ env_ids →
      ∃ p, slot_prim sim s i p ∧
        intrinsic_matrices (_data s') !! i
          = Some (intrinsic_matrix_of (lens p) (image_shape s)).
  Proof.
    intros Hreach H i Hi. apply reachable_off_zero in Hreach as Hz.
    apply refresh_ok_inv in H as (s1 & s2 & s3 & H1 & H2 & H3 & H).
    pose proof (post_run _ _ _ _ _ (capture_phase_post sim env_ids s3) H)
      as (out & inf & ->).
    destruct H1 as (fr & -> & _).
    destruct H2 as (ms & -> & _ & _ & _ & Hok & _).
    destruct H3 as (ps & qs & -> & _).
    destruct (Hok eq_refl i Hi) as (p & m & Hp & Hm & Hms).
    exists p. split; [exact Hp|]. cbn in *. rewrite Hms. f_equal.
    apply intrinsic_update_closed. by eapply Forall_lookup_1.
  Qed.
End refresh_results.

Lemma reachable_camera2 :
  reachable Examples.super_reset Examples.find_matching_prims
    Examples.render_product Examples.camera2.
Proof.
  by apply (reachable_initialize _ _ _ (Examples.sim2 0) "cuda:0" 2
              (Examples.camera_new Examples.cfg_rgb)).
Qed.

(** On the two cameras of the example every refresh of existing slots
    returns. *)
Lemma refresh_camera2_returns v env_ids :
  env_ids ⊆ [0; 1] →
  ∃ c2, _update_buffers_impl (Examples.sim2 v) env_ids Examples.camera2
        = (Ok tt, c2).
Proof.
  intros Hsub.
  destruct (refresh_prefix_total (Examples.sim2 v) env_ids Examples.camera2)
    as (s1 & s2 & s3 & H1 & H2 & H3 & Hrun).
  { by apply refreshable_camera2. }
  destruct H1 as (fr & -> & _), H2 as (ms & -> & _), H3 as (ps & qs & -> & _).
  rewrite Hrun. eexists. lazy. reflexivity.
Qed.

Lemma refresh_recomputes_intrinsic_matrices_witness :
  ∃ c2,
    _update_buffers_impl (Examples.sim2 7) [1] Examples.camera2 = (Ok tt, c2) ∧
    ∃ p, slot_prim (Examples.sim2 7) Examples.camera2 1 p ∧
      intrinsic_matrices (_data c2) !! 1
        = Some (intrinsic_matrix_of (lens p) (480, 640)).
Proof.
  destruct (refresh_camera2_returns 7 [1]) as [c2 Hc2]; [set_solver|].
  exists c2. split; [exact Hc2|].
  apply (refresh_recomputes_intrinsic_matrices Examples.super_reset
           Examples.find_matching_prims Examples.render_product
           (Examples.sim2 7) [1] Examples.camera2 c2 reachable_camera2 Hc2 1).
  set_solver.
Defined.

(** C1, at a camera whose orientation in the scene graph is the identity
    (OpenGL convention): the refresh stores the position unchanged, but the
    orientation it stores is the one of the world convention, (1/2, -1/2,
    1/2, 1/2), not the one of the ROS convention, (0, 1, 0, 0). *)
Theorem refresh_stores_world_convention_not_ros :
  ∃ c2,
    _update_buffers_impl (Examples.sim2 7) [0] Examples.camera2 = (Ok tt, c2) ∧
    pos_w (_data c2) !! 0 = Some (Vec3 0 0 5) ∧
    quat_w_world (_data c2) !! 0
      = Some (convert_orientation_convention (Quat 1 0 0 0) opengl world) ∧
    convert_orientation_convention (Quat 1 0 0 0) opengl world
      = Quat (1 / 2) (- (1 / 2)) (1 / 2) (1 / 2) ∧
    convert_orientation_convention (Quat 1 0 0 0) opengl ros = Quat 0 1 0 0 ∧
    quat_w_world (_data c2) !! 0
      ≠ Some (convert_orientation_convention (Quat 1 0 0 0) opengl ros).
Proof.
  destruct (refresh_camera2_returns 7 [0]) as [c2 Hc2]; [set_solver|].
  exists c2. split; [exact Hc2|].
  destruct (refresh_updates_poses (Examples.sim2 7) [0] Examples.camera2 c2 Hc2 0)
    as (p & (v & h & Hv & Hh & Hp) & Hpos & Hquat); [set_solver|].
  injection Hv as <-. injection Hh as <-. injection Hp as <-.
  split_and!; [exact Hpos | exact Hquat | | |].
  - apply convert_opengl_world_identity.
  - apply convert_opengl_ros_identity.
  - rewrite Hquat. cbn [world_orientation Examples.cam_prim].
    rewrite convert_opengl_world_identity, convert_opengl_ros_identity.
    intros [= H _]. lra.
Qed.

(** * Reset *)

Section reset.
Context {Base : Type}.
Variable super_reset : option (list nat) → Base → Base.
Variable find_matching_prims : string → Stage → list nat.
Variable render_product : string → nat * nat → string.
Implicit Types s : @Camera Base.

  (** A reset never touches the output buffers or the info, whether it
      returns or raises. *)
Lemma reset_keeps_output sim env_ids s r s' :
    reset super_reset sim env_ids s = (r, s') →
    output (_data s') = output (_data s) ∧ info (_data s') = info (_data s).
  Proof.
    intros H. by apply reset_shape in H as (fr & ms & ps & qs & -> & _).
  Qed.

  (** C6. A reset of the slots [S] (all slots when no indices are given)
      that returns has set the frame counter of every slot of [S] to zero
      and left the other frame counters and every output buffer as they
      were; the pose and the intrinsic matrix of every slot of [S] are
      recomputed from the scene. *)
Theorem reset_clears_frames_keeps_output sim env_ids s s' :
    reachable super_reset find_matching_prims render_product s →
    reset super_reset sim env_ids s = (Ok tt, s') →
    let S := default (_ALL_INDICES s) env_ids in
    (∀ i, i ∈ S → _frame s' !! i = Some 0%Z) ∧
    (∀ j, j ∉ S → _frame s' !! j = _frame s !! j) ∧
    output (_data s') = output (_data s) ∧
    (∀ i, i ∈ S →
       ∃ p, view_prim sim s i p ∧
         pos_w (_data s') !! i = Some (world_position p) ∧
         quat_w_world (_data s') !! i
           = Some (convert_orientation_convention (world_orientation p)
                     opengl world)) ∧
    (∀ i, i ∈ S →
       ∃ p, slot_prim sim s i p ∧
         intrinsic_matrices (_data s') !! i
           = Some (intrinsic_matrix_of (lens p) (image_shape s))).
  Proof.
    intros Hreach H S. apply reachable_off_zero in Hreach as Hz.
    pose proof (reset_keeps_output _ _ _ _ _ H) as [Hout _].
    apply reset_ok_inv in H as (s1 & s2 & fr & H1 & H2 & Hfill & ->).
    fold S in H1, H2, Hfill.
    destruct H1 as (ps & qs & -> & _ & _ & _ & Hposes & _).
    destruct H2 as (ms & -> & _ & _ & _ & Hintr & _).
    apply index_fill_spec in Hfill as (_ & Hin & Hnotin).
    split_and!; [exact Hin | exact Hnotin | exact Hout | |].
    - intros i Hi. destruct (Hposes eq_refl i Hi) as (p & Hp & Hps & Hqs).
      by exists p.
    - intros i Hi. destruct (Hintr eq_refl i Hi) as (p & m & Hp & Hm & Hms).
      exists p. split; [exact Hp|]. cbn in *. rewrite Hms. f_equal.
      apply intrinsic_update_closed. by eapply Forall_lookup_1.
  Qed.

  (** On slots that are there, with usable lenses, a reset returns. *)
Lemma reset_total sim env_ids s :
    refreshable sim (default (_ALL_INDICES s) env_ids) s →
    ∃ s', reset super_reset sim env_ids s = (Ok tt, s').
  Proof.
    intros (Hsp & Hview & Hall). unfold reset.
    unfold mbind at 1, M_bind at 1, modify.
    unfold mbind at 1, M_bind at 1, get.
    set (ids := default (_ALL_INDICES s) env_ids) in *.
    cbn [_ALL_INDICES set_base]. fold ids.
    set (s0 := set_base (super_reset env_ids) s).
    unfold mbind at 1, M_bind at 1.
    pose proof (update_poses_post sim ids s0) as H1. unfold post in H1.
    destruct (_update_poses sim ids s0) as [r1 s1]. cbn [fst snd] in H1.
    destruct H1 as (ps & qs & -> & _ & _ & _ & _ & Ht1).
    rewrite Ht1; [|done|done|]; cycle 1.
    { intros i Hi. by destruct (Hall i Hi) as (_ & _ & ? & ? & _ & ?). }
    unfold mbind at 1, M_bind at 1.
    pose proof (update_intrinsic_matrices_post sim ids (with_poses ps qs s0))
      as H2. unfold post in H2.
    destruct (_update_intrinsic_matrices sim ids _) as [r2 s2]. cbn [fst snd] in H2.
    destruct H2 as (ms & -> & _ & _ & _ & _ & Ht2).
    rewrite Ht2; cycle 1.
    { intros i Hi. by destruct (Hall i Hi) as (_ & ? & _ & _ & ? & _). }
    unfold mbind, M_bind, get, lift, modify. cbn.
    destruct (index_fill_ok (_frame s) ids 0%Z) as [fr ->]; [|by eexists].
    intros i Hi. by destruct (Hall i Hi) as (? & _).
  Qed.
End reset.

(** * A refresh that fails part of the way *)

Section processed_before.
Context {A : Type} `{EqDecision A}.

Lemma processed_before_prefix (x : A) (d r : list A) y :
    x ∉ d → y ∈ d → y ∈ processed_before x (d ++ r).
  Proof.
    induction d as [|z d IH]; intros Hx Hy; [by apply elem_of_nil in Hy|].
    apply not_elem_of_cons in Hx as [Hne Hx]. cbn.
    rewrite decide_False by done.
    apply elem_of_cons in Hy as [->|Hy]; [left | right; by apply IH].
  Qed.

Lemma processed_before_subseteq (x : A) (l : list A) y :
    y ∈ processed_before x l → y ∈ l.
  Proof.
    induction l as [|z l IH]; cbn; [done|].
    case_decide; [by intros ?%elem_of_nil|].
    intros [->|Hy]%elem_of_cons; [left | right; by apply IH].
  Qed.
End processed_before.

Section reads.
Implicit Types items : list (string * list Annotator * nat).

Lemma reads_before_split T k items :
    ∃ rest, items = reads_before T k items ++ rest ∧
      (rest = [] ∨ ∃ annotators rest', rest = (T, annotators, k) :: rest').
  Proof.
    induction items as [|[[name anns] i] items (rest & IH & Hrest)].
    { exists []. split; [done|by left]. }
    cbn. case_decide as Hd.
    - injection Hd as -> ->. exists ((T, anns, k) :: items).
      split; [done|]. right. by eexists _, _.
    - exists rest. split; [cbn; by f_equal|done].
  Qed.

Lemma processed_before_reads T k items :
    processed_before (T, k) ((λ '(name, _, i), (name, i)) <$> items)
    = (λ '(name, _, i), (name, i)) <$> reads_before T k items.
  Proof.
    induction items as [|[[name anns] i] items IH]; [done|].
    cbn. case_decide; [done|]. cbn. by rewrite IH.
  Qed.

Lemma last_read_Some name j items item :
    last_read name j items = Some item →
    item ∈ items ∧ (item.1.1, item.2) = (name, j).
  Proof.
    induction items as [|x items IH]; [done|]. cbn.
    destruct (last_read name j items) as [later|].
    - intros [= <-]. destruct (IH eq_refl). split; [by right|done].
    - case_decide; [|done]. intros [= <-]. split; [left|done].
  Qed.

Lemma last_read_None name j items annotators :
    last_read name j items = None → (name, annotators, j) ∉ items.
  Proof.
    induction items as [|x items IH]; [intros _ []%elem_of_nil|]. cbn.
    destruct (last_read name j items) as [later|]; [done|].
    case_decide as Hd; [done|]. intros _ [<-|Hin]%elem_of_cons.
    - by apply Hd.
    - by apply IH.
  Qed.

Lemma last_read_is_Some name j items :
    (name, j) ∈ (λ '(name, _, i), (name, i)) <$> items →
    is_Some (last_read name j items).
  Proof.
    intros ([[name' anns] i] & [= <- <-] & Hin)%list_elem_of_fmap.
    destruct (last_read name j items) as [item|] eqn:E; [by eexists|].
    by apply (last_read_None _ _ _ anns) in E.
  Qed.
End reads.

Section failure.
Context {Base : Type}.
Implicit Types s : @Camera Base.

Lemma capture_items_elem (reg : registry) env_ids name annotators i :
    (name, annotators, i) ∈ capture_items reg env_ids ↔
    (name, annotators) ∈ reg ∧ i ∈ env_ids.
  Proof.
    unfold capture_items. rewrite list_elem_of_bind. split.
    - intros ([name' anns'] & Hin & Hreg).
      apply list_elem_of_fmap in Hin as (i' & [= -> -> ->] & Hi). done.
    - intros [Hreg Hi]. exists (name, annotators). split; [|done].
      apply list_elem_of_fmap. by exists i.
  Qed.

Lemma capture_order_elem (reg : registry) env_ids name i :
    (name, i) ∈ capture_order reg env_ids ↔
    (∃ annotators, (name, annotators) ∈ reg) ∧ i ∈ env_ids.
  Proof.
    unfold capture_order. rewrite list_elem_of_fmap. split.
    - intros ([[name' anns] i'] & [= -> ->] & Hin).
      apply capture_items_elem in Hin as [Hreg Hi]. split; [by exists anns|done].
    - intros [[anns Hreg] Hi]. exists (name, anns, i). split; [done|].
      by apply capture_items_elem.
  Qed.

Implicit Types out : gmap string (list Tensor).
Implicit Types inf : list (gmap string (option info_t)).

  (** A read that goes through overwrites the slice of its slot with the
      data read, and the info of the slot. *)
Lemma update_slot_ok sim name annotators i out inf s data :
    read_data sim (_device s) (name, annotators, i) data →
    slot_writable out inf name i data →
    ∃ buffer inf',
      out !! name = Some buffer ∧ i < length buffer ∧
      length inf' = length inf ∧
      update_slot sim name annotators i (with_capture out inf s)
      = (Ok tt, with_capture (<[name := <[i := data]> buffer]> out) inf' s).
  Proof.
    intros (a & payload & inf0 & Ha & Hget & Hproc) (old & Hold & Hshape & Hi).
    destruct (out !! name) as [buffer|] eqn:Hout; [|done]. cbn in Hold.
    destruct (lookup_lt_is_Some_2 inf i Hi) as [d Hd].
    exists buffer, (<[i := <[name := inf0]> d]> inf).
    split_and!; [done | by eapply lookup_lt_Some | by rewrite length_insert |].
    unfold update_slot.
    unfold mbind at 1, M_bind at 1, get.
    unfold mbind at 1, M_bind at 1, index. rewrite Ha.
    unfold mbind at 1, M_bind at 1, lift at 1. cbn [mret M_ret]. rewrite Hget.
    unfold mbind at 1, M_bind at 1, lift at 1.
    change (_device (with_capture out inf s)) with (_device s). rewrite Hproc.
    unfold mbind at 1, M_bind at 1.
    assert (write_output name i data (with_capture out inf s)
            = (Ok tt, with_capture (<[name := <[i := data]> buffer]> out) inf s))
      as ->.
    { unfold write_output, mbind at 1, M_bind at 1, get.
      change (output (_data (with_capture out inf s))) with out.
      rewrite Hout. unfold mbind, M_bind, lift, setitem. rewrite Hold.
      unfold same_shape. rewrite bool_decide_eq_true_2 by done.
      unfold modify. by rewrite set_output_capture. }
    unfold write_info, mbind at 1, M_bind at 1, get.
    change (info (_data (with_capture ?o inf s))) with inf.
    unfold mbind, M_bind, index. rewrite Hd. unfold modify. cbn [mret M_ret].
    by rewrite set_info_capture.
  Qed.

  (** A run of reads that all go through: every slice read holds the data
      of its last read, and the others are as before. *)
Lemma capture_loop_writes sim items out inf s :
    Forall (λ item, ∃ data, read_data sim (_device s) item data ∧
              slot_writable out inf item.1.1 item.2 data) items →
    ∃ out' inf',
      for_each items (λ '(name, annotators, i), update_slot sim name annotators i)
        (with_capture out inf s)
      = (Ok tt, with_capture out' inf' s) ∧
      (∀ name j item, last_read name j items = Some item →
         ∃ data, read_data sim (_device s) item data ∧
           out' !! name ≫= (λ b, b !! j) = Some data) ∧
      (∀ name j, last_read name j items = None →
         out' !! name ≫= (λ b, b !! j) = out !! name ≫= (λ b, b !! j)).
  Proof.
    revert out inf.
    induction items as [|[[name anns] i] items IH]; intros out inf Hall.
    { exists out, inf. split_and!; done. }
    apply Forall_cons in Hall as [(data & Hread & Hw) Hall]. cbn in Hw.
    destruct (update_slot_ok sim name anns i out inf s data Hread Hw)
      as (buffer & inf1 & Hbuf & Hlt & Hlen & Hrun).
    set (out1 := <[name := <[i := data]> buffer]> out) in *.
    assert (∀ name' j,
      out1 !! name' ≫= (λ b, b !! j)
      = if decide ((name, i) = (name', j)) then Some data
        else out !! name' ≫= (λ b, b !! j)) as Hslot.
    { intros name' j. unfold out1. case_decide as Hd.
      - injection Hd as <- <-. rewrite lookup_insert_eq. cbn.
        by apply list_lookup_insert_eq.
      - destruct (decide (name' = name)) as [->|Hn].
        + rewrite lookup_insert_eq, Hbuf. cbn.
          apply list_lookup_insert_ne. congruence.
        + by rewrite lookup_insert_ne. }
    destruct (IH out1 inf1) as (out' & inf' & Hrest & Hlast & Hnone).
    { eapply Forall_impl; [exact Hall|].
      intros [[name' anns'] j] (data' & Hread' & old & Hold & Hshape & Hj).
      exists data'. split; [done|]. unfold slot_writable. cbn [fst snd] in *.
      rewrite Hslot. case_decide as Hd.
      - injection Hd as <- <-. exists data. split_and!; [done| |lia].
        destruct Hw as (old0 & Hold0 & Hshape0 & _). congruence.
      - exists old. split_and!; [done..|lia]. }
    exists out', inf'. split_and!.
    - cbn [for_each]. unfold mbind, M_bind. rewrite Hrun. exact Hrest.
    - intros name' j item. cbn.
      destruct (last_read name' j items) as [later|] eqn:E.
      + intros [= <-]. by apply Hlast.
      + case_decide as Hd; [|done]. intros [= <-].
        exists data. split; [done|]. rewrite (Hnone _ _ E), Hslot.
        by rewrite decide_True.
    - intros name' j. cbn.
      destruct (last_read name' j items) as [later|] eqn:E; [done|].
      case_decide as Hd; [done|]. intros _.
      rewrite (Hnone _ _ E), Hslot. by rewrite decide_False.
  Qed.
  (** When the refresh gets as far as its reads and every read before the
      first read of slot [k] for [T] goes through, every slice read before
      holds the data of its last read when the refresh ends, provided the
      backend raises for the read of slot [k] for [T]. *)
Lemma refresh_failure_writes sim env_ids s T k r s' :
    size (output (_data s)) ≠ 0 →
    (∀ annotators a,
       (T, annotators) ∈ _rep_registry s → annotators !! k = Some a →
       is_ok (get_data sim a) = false) →
    _update_buffers_impl sim env_ids s = (r, s') →
    refreshable sim env_ids s →
    Forall (read_succeeds sim s)
      (reads_before T k (capture_items (_rep_registry s) env_ids)) →
    ∀ name j item,
      last_read name j
        (reads_before T k (capture_items (_rep_registry s) env_ids)) = Some item →
      ∃ data, read_data sim (_device s) item data ∧
        output_slot s' name j = Some data.
  Proof.
    intros Hsize Hraise H Hready Hall name j item Hitem.
    destruct (refresh_prefix_total sim env_ids s Hready)
      as (s1 & s2 & s3 & H1 & H2 & H3 & Hrun).
    rewrite Hrun in H. clear Hrun.
    destruct H1 as (fr & -> & _), H2 as (ms & -> & _), H3 as (ps & qs & -> & _).
    unfold capture_phase, mbind at 1, M_bind at 1, get in H. cbn in H.
    rewrite decide_False in H by done.
    rewrite capture_loop_flat in H.
    rewrite <- (with_capture_same (with_poses _ _ _)) in H.
    destruct (reads_before_split T k (capture_items (_rep_registry s) env_ids))
      as (rest & Hsplit & Hrest).
    set (pre := reads_before T k (capture_items (_rep_registry s) env_ids)) in *.
    set (X := with_poses ps qs (with_intrinsics ms (with_frame fr s))) in *.
    destruct (capture_loop_writes sim pre (output (_data X)) (info (_data X)) X Hall)
      as (out' & inf' & Hpre & Hlast & _).
    destruct (Hlast name j item Hitem) as (data & Hdata & Hslot).
    exists data. split; [exact Hdata|].
    assert (∃ inf'', s' = with_capture out' inf'' X) as (inf'' & ->);
      [|exact Hslot].
    cbn [_rep_registry] in H.
    change (_rep_registry X) with (_rep_registry s) in H.
    rewrite Hsplit, for_each_app, for_each_app_run, Hpre in H.
    destruct Hrest as [->|(anns & rest' & ->)].
    { injection H as _ <-. by exists inf'. }
    cbn [for_each] in H. unfold mbind, M_bind in H.
    pose proof (update_slot_post sim T anns k out' inf' X) as Hp.
    unfold post in Hp.
    destruct (update_slot sim T anns k (with_capture out' inf' X)) as [r1 s1].
    cbn [fst snd] in Hp.
    destruct Hp as (out1 & inf1 & -> & [[[e ->] ->]|[(a & Ha & Hok) _]]).
    - injection H as _ <-. by exists inf1.
    - exfalso. rewrite (Hraise anns a) in Hok; [done| |done].
      apply (capture_items_elem _ env_ids T anns k).
      rewrite Hsplit. apply elem_of_app. right. left.
  Qed.

  (** The reads of a refresh over allocated buffers are made in the order
      of [capture_order]; when the loop ends, the reads made form a
      prefix of it, each of them answered by the backend, and no slice
      outside of them has changed. *)
Lemma refresh_failure_prefix sim env_ids s r s' :
    size (output (_data s)) ≠ 0 →
    _update_buffers_impl sim env_ids s = (r, s') →
    ∃ done rest,
      capture_items (_rep_registry s) env_ids = done ++ rest ∧
      Forall (fetched sim) done ∧
      (∀ name j, (∀ annotators, (name, annotators, j) ∉ done) →
         output_slot s' name j = output_slot s name j) ∧
      (r = Ok tt → rest = []).
  Proof.
    intros Hsize H.
    apply refresh_inv in H as (fr & ms & ps & qs & _ & H). cbn in H.
    destruct H as [(e & -> & ->)|H].
    { exists [], (capture_items (_rep_registry s) env_ids).
      split_and!; done. }
    unfold capture_phase, mbind at 1, M_bind at 1, get in H. cbn in H.
    rewrite decide_False in H by done.
    rewrite capture_loop_flat in H.
    rewrite <- (with_capture_same (with_poses _ _ _)) in H.
    pose proof (post_run _ _ _ _ _ (capture_loop_post sim _ _ _ _) H)
      as (dn & rest & out & inf & Hitems & -> & Hf & Hsame & Hr).
    exists dn, rest. split_and!; try done.
  Qed.

  (** C2 (as amended). During a refresh over allocated buffers the backend
      raises for the read of slot [k] of the data type [T]. Then the refresh
      raises if that read is among those to make, and every slice of every
      buffer is as it was before, except those whose read comes before the
      failing one in the order of the refresh (data type by data type, slot
      by slot). In particular the slots that were not requested are
      untouched. When that read is the first step of the refresh to fail
      (the refresh gets as far as its reads, and every read before it goes
      through), every slice whose read comes before it is overwritten: it
      holds the data of its last read. *)
Theorem refresh_failure_keeps_unread_slots sim env_ids s T k r s' :
    size (output (_data s)) ≠ 0 →
    (∀ annotators a,
       (T, annotators) ∈ _rep_registry s → annotators !! k = Some a →
       is_ok (get_data sim a) = false) →
    _update_buffers_impl sim env_ids s = (r, s') →
    ((T, k) ∈ capture_order (_rep_registry s) env_ids → ∃ e, r = Raise e) ∧
    (∀ name j,
       (name, j) ∉ processed_before (T, k)
                     (capture_order (_rep_registry s) env_ids) →
       output_slot s' name j = output_slot s name j) ∧
    (∀ name j, j ∉ env_ids → output_slot s' name j = output_slot s name j) ∧
    (refreshable sim env_ids s →
     Forall (read_succeeds sim s)
       (reads_before T k (capture_items (_rep_registry s) env_ids)) →
     ∀ name j,
       (name, j) ∈ processed_before (T, k)
                     (capture_order (_rep_registry s) env_ids) →
       ∃ item data,
         last_read name j
           (reads_before T k (capture_items (_rep_registry s) env_ids))
           = Some item ∧
         read_data sim (_device s) item data ∧
         output_slot s' name j = Some data).
  Proof.
    intros Hsize Hraise H.
    destruct (refresh_failure_prefix sim env_ids s r s' Hsize H)
      as (dn & rest & Hitems & Hf & Hsame & Hr).
    assert (∀ annotators, (T, annotators, k) ∉ dn) as HTk.
    { intros anns Hin.
      assert ((T, anns) ∈ _rep_registry s) as Hreg.
      { apply (capture_items_elem _ env_ids T anns k).
        rewrite Hitems. apply elem_of_app. by left. }
      rewrite Forall_forall in Hf. destruct (Hf _ Hin) as (a & Ha & Hok).
      by rewrite (Hraise anns a Hreg Ha) in Hok. }
    assert ((T, k) ∉ (λ '(name, _, i), (name, i)) <$> dn) as HTk'.
    { intros ([[name anns] i] & [= <- <-] & Hin)%list_elem_of_fmap.
      by apply (HTk anns). }
    assert (∀ name j,
      (name, j) ∉ processed_before (T, k)
                    (capture_order (_rep_registry s) env_ids) →
      output_slot s' name j = output_slot s name j) as Hkeep.
    { intros name j Hnot. apply Hsame. intros anns Hin. apply Hnot.
      unfold capture_order. rewrite Hitems, fmap_app.
      apply processed_before_prefix; [done|].
      apply list_elem_of_fmap. by exists (name, anns, j). }
    split_and!; [|exact Hkeep| |].
    - intros Hin. destruct r as [[]|e]; [|by exists e]. exfalso.
      rewrite (Hr eq_refl), app_nil_r in Hitems.
      apply capture_order_elem in Hin as [[anns Hreg] Hk].
      apply (HTk anns). rewrite <- Hitems. by apply capture_items_elem.
    - intros name j Hj. apply Hkeep. intros Hin%processed_before_subseteq.
      by apply capture_order_elem in Hin as [_ Hin].
    - intros Hready Hall name j Hin.
      unfold capture_order in Hin. rewrite processed_before_reads in Hin.
      destruct (last_read_is_Some _ _ _ Hin) as [item Hitem].
      destruct (refresh_failure_writes sim env_ids s T k r s' Hsize Hraise H
                  Hready Hall name j item Hitem) as (data & Hdata & Hslot).
      by exists item, data.
  Qed.
End failure.

Section example_runs.
Import Examples.

Lemma refreshable_two_slots sim env_ids (s : @Camera unit) :
    stage sim = stage2 →
    _sensor_prims s = [0; 1] →
    _view s = Some (MkView [0; 1]) →
    length (_frame s) = 2 →
    length (intrinsic_matrices (_data s)) = 2 →
    length (pos_w (_data s)) = 2 →
    length (quat_w_world (_data s)) = 2 →
    env_ids ⊆ [0; 1] →
    refreshable sim env_ids s.
  Proof.
    intros Hst Hsp Hv Hfr Hms Hps Hqs Hsub. split_and!.
    - by rewrite Hsp.
    - by rewrite Hv.
    - intros i Hi. apply Hsub in Hi.
      assert (lens_ok lens_24_36) as Hlens.
      { split; cbn; intros H; lra. }
      unfold slot_prim, view_prim. rewrite Hst, Hsp, Hv, Hfr, Hms, Hps, Hqs.
      apply elem_of_cons in Hi as [->|Hi];
        [|apply elem_of_cons in Hi as [->|Hi]; [|by apply elem_of_nil in Hi]].
      + split_and!; [lia..| |].
        * eexists. split; [exists 0; split; reflexivity | exact Hlens].
        * eexists. by exists (MkView [0; 1]), 0.
      + split_and!; [lia..| |].
        * eexists. split; [exists 1; split; reflexivity | exact Hlens].
        * eexists. by exists (MkView [0; 1]), 1.
  Qed.

  (** The first refresh of the example batch allocates the ["rgb"] buffer
      and fills both slices, whatever slots were requested. *)
Lemma first_refresh_camera2 v env_ids :
    env_ids ⊆ [0; 1] →
    ∃ fr ms ps qs,
      length fr = 2 ∧ length ms = 2 ∧ length ps = 2 ∧ length qs = 2 ∧
      _update_buffers_impl (sim2 v) env_ids camera2
        = (Ok tt, allocated2 v v fr ms ps qs).
  Proof.
    intros Hsub.
    destruct (refresh_prefix_total (sim2 v) env_ids camera2)
      as (s1 & s2 & s3 & H1 & H2 & H3 & Hrun).
    { by apply refreshable_two_slots. }
    destruct H1 as (fr & -> & Hfr & _), H2 as (ms & -> & Hms & _),
      H3 as (ps & qs & -> & Hps & Hqs & _).
    exists fr, ms, ps, qs. split_and!; [done..|].
    rewrite Hrun. vm_compute. reflexivity.
  Qed.

  (** The second refresh, with a backend that fails for the second
      camera: the slice of the first camera is overwritten, then the read
      of the second camera raises. *)
Lemma failing_refresh_allocated2 v0 v1 v fr ms ps qs :
    length fr = 2 → length ms = 2 → length ps = 2 → length qs = 2 →
    ∃ fr' ms' ps' qs',
      _update_buffers_impl (sim2_fail v) [0; 1] (allocated2 v0 v1 fr ms ps qs)
        = (Raise CaptureError, allocated2 v v1 fr' ms' ps' qs').
  Proof.
    intros Hfr Hms Hps Hqs.
    destruct (refresh_prefix_total (sim2_fail v) [0; 1]
                (allocated2 v0 v1 fr ms ps qs))
      as (s1 & s2 & s3 & H1 & H2 & H3 & Hrun).
    { by apply refreshable_two_slots. }
    destruct H1 as (fr' & -> & _), H2 as (ms' & -> & _),
      H3 as (ps' & qs' & -> & _).
    exists fr', ms', ps', qs'. rewrite Hrun. vm_compute. reflexivity.
  Qed.
End example_runs.

(** C2, as stated, fails: the refresh of the slots 0 and 1 in which the
    backend raises for slot 1 has overwritten the slice of slot 0 before
    it raises. *)
Lemma refresh_failure_overwrites_earlier_slot :
  ∃ c2 c3 annotators,
    _update_buffers_impl (Examples.sim2 0) [0; 1] Examples.camera2 = (Ok tt, c2) ∧
    registry_lookup (_rep_registry c2) "rgb" = Some annotators ∧
    annotators !! 1 = Some Examples.rgb_env_1 ∧
    get_data (Examples.sim2_fail 9) Examples.rgb_env_1 = Raise CaptureError ∧
    _update_buffers_impl (Examples.sim2_fail 9) [0; 1] c2
      = (Raise CaptureError, c3) ∧
    output_slot c2 "rgb" 0 = Some (Examples.tensor 0) ∧
    output_slot c3 "rgb" 0 = Some (Examples.tensor 9) ∧
    output_slot c3 "rgb" 0 ≠ output_slot c2 "rgb" 0.
Proof.
  destruct (first_refresh_camera2 0 [0; 1])
    as (fr & ms & ps & qs & Hfr & Hms & Hps & Hqs & H2); [set_solver|].
  destruct (failing_refresh_allocated2 0 0 9 fr ms ps qs Hfr Hms Hps Hqs)
    as (fr' & ms' & ps' & qs' & H3).
  eexists _, _, _. split_and!; [exact H2| | | |exact H3| | |];
    try (vm_compute; reflexivity).
  vm_compute. intros [= ?].
Qed.

Lemma refresh_failure_keeps_unread_slots_witness :
  ∃ c2 c3,
    _update_buffers_impl (Examples.sim2 0) [0; 1] Examples.camera2 = (Ok tt, c2) ∧
    _update_buffers_impl (Examples.sim2_fail 9) [0; 1] c2
      = (Raise CaptureError, c3) ∧
    output_slot c2 "rgb" 0 = Some (Examples.tensor 0) ∧
    output_slot c2 "rgb" 1 = Some (Examples.tensor 0) ∧
    output_slot c3 "rgb" 1 = output_slot c2 "rgb" 1 ∧
    output_slot c3 "rgb" 0 = Some (Examples.tensor 9).
Proof.
  destruct (first_refresh_camera2 0 [0; 1])
    as (fr & ms & ps & qs & Hfr & Hms & Hps & Hqs & H2); [set_solver|].
  destruct (failing_refresh_allocated2 0 0 9 fr ms ps qs Hfr Hms Hps Hqs)
    as (fr' & ms' & ps' & qs' & H3).
  eexists _, _. split_and!; [exact H2 | exact H3 | reflexivity | reflexivity | |].
  all: assert (size (output (_data (Examples.allocated2 0 0 fr ms ps qs))) ≠ 0)
    as Hsize by (vm_compute; discriminate).
  all: assert (∀ annotators a,
    ("rgb", annotators) ∈ _rep_registry (Examples.allocated2 0 0 fr ms ps qs) →
    annotators !! 1 = Some a →
    is_ok (get_data (Examples.sim2_fail 9) a) = false) as Hraise
    by (intros annotators a Hreg Ha;
        apply list_elem_of_singleton in Hreg; injection Hreg as ->;
        injection Ha as <-; reflexivity).
  all: destruct (refresh_failure_keeps_unread_slots (Examples.sim2_fail 9) [0; 1]
              (Examples.allocated2 0 0 fr ms ps qs) "rgb" 1
              (Raise CaptureError) (Examples.allocated2 9 0 fr' ms' ps' qs')
              Hsize Hraise H3) as (_ & Hkeep & _ & Hwritten).
  - apply Hkeep. vm_compute.
    intros Hin. apply list_elem_of_singleton in Hin. discriminate.
  - destruct (Hwritten) with (name := "rgb") (j := 0)
      as (item & data & Hitem & Hread & Hslot).
    + by apply refreshable_two_slots.
    + repeat constructor. exists (Examples.tensor 9). split.
      * eexists _, _, _. split_and!; reflexivity.
      * eexists. split_and!; [reflexivity | reflexivity | cbn; lia].
    + vm_compute. left.
    + vm_compute in Hitem. injection Hitem as <-.
      destruct Hread as (a & payload & inf & Ha & Hget & Hproc).
      injection Ha as <-. vm_compute in Hget. injection Hget as <-.
      vm_compute in Hproc. injection Hproc as <- _.
      exact Hslot.
Defined.

(** * Lens parameters from an intrinsic matrix *)

Section lens.
Context {Base : Type}.
Implicit Types s : @Camera Base.
Local Open Scope R_scope.






  (** A batch of matrices that is not in host memory is refused at the
      first matrix, before anything is written. *)
Lemma set_intrinsic_matrices_off_host s matrices f env_ids (st : Stage) :
    on_host (mb_device matrices) = false →
    zip (default (_ALL_INDICES s) env_ids) (mb_rows matrices) ≠ [] →
    set_intrinsic_matrices s matrices f env_ids st = (Raise TypeError, st).
  Proof.
    intros Hdev Hz. unfold set_intrinsic_matrices, np_asarray. rewrite Hdev.
    destruct (zip _ _) as [|[i m] l]; [done|]. reflexivity.
  Qed.

End lens.


(** * Setting poses *)

Section set_poses.
Context {Base : Type}.
Implicit Types self : @Camera Base.

Lemma post_first_row {A} (rows : option (list A)) (st : Stage)
      (Q : result (option A) → Stage → Prop) :
    (rows = None → Q (Ok None) st) →
    (∀ a l, rows = Some (a :: l) → Q (Ok (Some a)) st) →
    (rows = Some [] → Q (Raise IndexError) st) →
    post (first_row rows) st Q.
  Proof.
    intros H1 H2 H3. destruct rows as [[|a l]|]; unfold post; cbn.
    - by apply H3.
    - by eapply H2.
    - by apply H1.
  Qed.

Lemma post_set_prim_pose h p q (st : Stage)
      (Q : result unit → Stage → Prop) :
    (∀ prim, st !! h = Some prim →
       Q (Ok tt)
         (<[h := MkPrim (path prim) (is_camera prim) (lens prim)
                   (default (world_position prim) p)
                   (default (world_orientation prim) q)]> st)) →
    (st !! h = None → Q (Raise RuntimeError) st) →
    post (set_prim_pose h p q) st Q.
  Proof.
    intros H1 H2. unfold set_prim_pose. post_steps.
    - by apply H1.
    - by apply H2.
  Qed.

Ltac pose_steps :=
    repeat first
      [ apply post_first_row; [intros ?|intros ? ? ?|intros ?]
      | apply post_set_prim_pose; [intros ? ?|intros ?]
      | post_step ].

  (** Without positions the view writes no position, and without
      orientations no orientation, whatever the outcome. *)
Lemma view_set_world_poses_no_positions v orientations indices st :
    post (view_set_world_poses v None orientations indices) st
      (λ _ st', ∀ h, world_position <$> st' !! h = world_position <$> st !! h).
  Proof.
    revert orientations st.
    induction indices as [|i indices IH]; intros orientations st; [done|].
    cbn [view_set_world_poses]. pose_steps; try done.
    all: change (tail <$> None) with (@None (list vec3)).
    all: eapply post_mono; [apply IH|]; cbn beta; intros _ st' Hst' h';
      rewrite Hst'; unfold Stage in *;
      match goal with
      | Hp : ?s0 !! ?x = Some _ |- context [<[?x := _]> ?s0] =>
          destruct (decide (h' = x)) as [->|Hne];
          [rewrite list_lookup_insert_eq by (by eapply lookup_lt_Some);
           by rewrite Hp
          |by rewrite list_lookup_insert_ne]
      end.
  Qed.

Lemma view_set_world_poses_no_orientations v positions indices st :
    post (view_set_world_poses v positions None indices) st
      (λ _ st', ∀ h, world_orientation <$> st' !! h = world_orientation <$> st !! h).
  Proof.
    revert positions st.
    induction indices as [|i indices IH]; intros positions st; [done|].
    cbn [view_set_world_poses]. pose_steps; try done.
    all: change (tail <$> None) with (@None (list quat)).
    all: eapply post_mono; [apply IH|]; cbn beta; intros _ st' Hst' h';
      rewrite Hst'; unfold Stage in *;
      match goal with
      | Hp : ?s0 !! ?x = Some _ |- context [<[?x := _]> ?s0] =>
          destruct (decide (h' = x)) as [->|Hne];
          [rewrite list_lookup_insert_eq by (by eapply lookup_lt_Some);
           by rewrite Hp
          |by rewrite list_lookup_insert_ne]
      end.
  Qed.

Lemma lookup_tail_row {A} (rows : option (list A)) k :
    (tail <$> rows) ≫= (λ l, l !! k) = rows ≫= (λ l, l !! S k).
  Proof. destruct rows as [[|a l]|]; done. Qed.

  (** What the view writes: row [k] goes to the prim at index [indices[k]];
      the prims that are not addressed stay as they are. *)
Lemma view_set_world_poses_writes v positions orientations indices (st : Stage) :
    NoDup indices →
    NoDup (view_prims v) →
    (∀ i, i ∈ indices → ∃ h, view_prims v !! i = Some h ∧ is_Some (st !! h)) →
    (∀ ps, positions = Some ps → length ps = length indices) →
    (∀ qs, orientations = Some qs → length qs = length indices) →
    ∃ st',
      view_set_world_poses v positions orientations indices st = (Ok tt, st') ∧
      length st' = length st ∧
      (∀ k i h, indices !! k = Some i → view_prims v !! i = Some h →
         ∃ p, st !! h = Some p ∧
           st' !! h = Some
             (MkPrim (path p) (is_camera p) (lens p)
                (default (world_position p) (positions ≫= (λ l, l !! k)))
                (default (world_orientation p) (orientations ≫= (λ l, l !! k))))) ∧
      (∀ h, (∀ i, i ∈ indices → view_prims v !! i ≠ Some h) → st' !! h = st !! h).
  Proof.
    intros Hnd Hprims. revert positions orientations st.
    induction Hnd as [|i indices Hi Hnd IH];
      intros positions orientations st Hall Hps Hqs.
    { exists st. split_and!; [done..| |done]. intros k i h Hk. done. }
    destruct (Hall i) as (h & Hh & [p Hp]); [left|].
    assert (∃ p0, first_row positions st = (Ok p0, st) ∧
                  p0 = positions ≫= (λ l, l !! 0)) as (p0 & Hp0 & Hp0').
    { destruct positions as [[|a l]|]; [|by eexists..].
      by specialize (Hps [] eq_refl). }
    assert (∃ q0, first_row orientations st = (Ok q0, st) ∧
                  q0 = orientations ≫= (λ l, l !! 0)) as (q0 & Hq0 & Hq0').
    { destruct orientations as [[|a l]|]; [|by eexists..].
      by specialize (Hqs [] eq_refl). }
    set (prim' := MkPrim (path p) (is_camera p) (lens p)
                    (default (world_position p) p0)
                    (default (world_orientation p) q0)).
    destruct (IH (tail <$> positions) (tail <$> orientations) (<[h := prim']> st))
      as (st' & Hrun & Hlen & Hrows & Hrest).
    { intros i' Hi'. destruct (Hall i') as (h' & Hh' & [p' Hp']); [by right|].
      exists h'. split; [done|]. unfold Stage in *.
      apply lookup_lt_is_Some. rewrite length_insert.
      by eapply lookup_lt_Some. }
    { intros ps Hps'. destruct positions as [ps0|]; [|done].
      injection Hps' as <-. specialize (Hps ps0 eq_refl).
      destruct ps0; cbn in *; lia. }
    { intros qs Hqs'. destruct orientations as [qs0|]; [|done].
      injection Hqs' as <-. specialize (Hqs qs0 eq_refl).
      destruct qs0; cbn in *; lia. }
    assert (∀ i', i' ∈ indices → view_prims v !! i' ≠ Some h) as Hother.
    { intros i' Hi' Hh'. apply Hi.
      by rewrite (NoDup_lookup _ _ _ _ Hprims Hh Hh'). }
    exists st'. split_and!.
    - cbn [view_set_world_poses]. unfold mbind at 1, M_bind at 1, index.
      rewrite Hh. cbn. unfold mbind at 1, M_bind at 1. rewrite Hp0.
      unfold mbind at 1, M_bind at 1. rewrite Hq0.
      unfold mbind at 1, M_bind at 1, set_prim_pose, get, deref.
      cbn. unfold mbind at 1, M_bind at 1. rewrite Hp. cbn. exact Hrun.
    - rewrite Hlen. unfold Stage in *. by rewrite length_insert.
    - intros [|k] i' h' Hk Hh'.
      + cbn in Hk. injection Hk as <-. rewrite Hh in Hh'. injection Hh' as <-.
        exists p. split; [done|]. rewrite (Hrest h Hother).
        unfold Stage in *. rewrite list_lookup_insert_eq by (by eapply lookup_lt_Some).
        subst prim' p0 q0. done.
      + cbn in Hk.
        destruct (Hrows k i' h' Hk Hh') as (p' & Hp' & Hst').
        assert (h' ≠ h) as Hne.
        { intros ->. apply (Hother i'); [|done]. by eapply list_elem_of_lookup_2. }
        unfold Stage in *. rewrite list_lookup_insert_ne in Hp' by done.
        exists p'. split; [done|]. by rewrite Hst', !lookup_tail_row.
    - intros h' Hh'. rewrite Hrest.
      + unfold Stage in *. apply list_lookup_insert_ne.
        intros <-. by apply (Hh' i); [left|].
      + intros i' Hi'. apply Hh'. by right.
  Qed.
  (** C10. [set_world_poses] with no positions leaves the position of
      every prim of the stage as it is (only orientations are written),
      and with no orientations it leaves every orientation as it is,
      whatever the outcome. On a batch with a view over distinct prims of
      the stage, called with distinct indices and one row per index, it
      returns, and the prim behind the [k]-th index has the [k]-th
      position, if positions were given, and the [k]-th orientation
      converted from the given convention to OpenGL, if orientations were
      given; nothing else on the stage changes. With no indices, on a batch
      whose [_ALL_INDICES] are those of its [n] slots, this holds of the
      prim behind every one of the [n] slots. *)
Theorem set_world_poses_none self positions orientations env_ids convention
      (st : Stage) :
    (∀ h,
       world_position <$>
         (set_world_poses self None orientations env_ids convention st).2 !! h
       = world_position <$> st !! h) ∧
    (∀ h,
       world_orientation <$>
         (set_world_poses self positions None env_ids convention st).2 !! h
       = world_orientation <$> st !! h) ∧
    (∀ v ids,
       _view self = Some v →
       default (_ALL_INDICES self) env_ids = ids →
       NoDup ids →
       NoDup (view_prims v) →
       (∀ i, i ∈ ids → ∃ h, view_prims v !! i = Some h ∧ is_Some (st !! h)) →
       (∀ ps, positions = Some ps → length ps = length ids) →
       (∀ qs, orientations = Some qs → length qs = length ids) →
       ∃ st',
         set_world_poses self positions orientations env_ids convention st
           = (Ok tt, st') ∧
         length st' = length st ∧
         (∀ k i h, ids !! k = Some i → view_prims v !! i = Some h →
            ∃ p, st !! h = Some p ∧
              st' !! h = Some
                (MkPrim (path p) (is_camera p) (lens p)
                   (default (world_position p) (positions ≫= (λ l, l !! k)))
                   (default (world_orientation p)
                      ((λ q, convert_orientation_convention q convention opengl)
                         <$> (orientations ≫= (λ l, l !! k)))))) ∧
         (∀ h, (∀ i, i ∈ ids → view_prims v !! i ≠ Some h) →
            st' !! h = st !! h)) ∧
    (∀ v n,
       _view self = Some v →
       _ALL_INDICES self = seq 0 n →
       length (view_prims v) = n →
       NoDup (view_prims v) →
       (∀ h, h ∈ view_prims v → is_Some (st !! h)) →
       (∀ ps, positions = Some ps → length ps = n) →
       (∀ qs, orientations = Some qs → length qs = n) →
       ∃ st',
         set_world_poses self positions orientations None convention st
           = (Ok tt, st') ∧
         (∀ i, i < n → ∃ h, view_prims v !! i = Some h) ∧
         (∀ i h, view_prims v !! i = Some h →
            ∃ p, st !! h = Some p ∧
              st' !! h = Some
                (MkPrim (path p) (is_camera p) (lens p)
                   (default (world_position p) (positions ≫= (λ l, l !! i)))
                   (default (world_orientation p)
                      ((λ q, convert_orientation_convention q convention opengl)
                         <$> (orientations ≫= (λ l, l !! i)))))) ∧
         (∀ h, h ∉ view_prims v → st' !! h = st !! h)).
  Proof.
    assert (∀ env_ids' v ids,
       _view self = Some v →
       default (_ALL_INDICES self) env_ids' = ids →
       NoDup ids →
       NoDup (view_prims v) →
       (∀ i, i ∈ ids → ∃ h, view_prims v !! i = Some h ∧ is_Some (st !! h)) →
       (∀ ps, positions = Some ps → length ps = length ids) →
       (∀ qs, orientations = Some qs → length qs = length ids) →
       ∃ st',
         set_world_poses self positions orientations env_ids' convention st
           = (Ok tt, st') ∧
         length st' = length st ∧
         (∀ k i h, ids !! k = Some i → view_prims v !! i = Some h →
            ∃ p, st !! h = Some p ∧
              st' !! h = Some
                (MkPrim (path p) (is_camera p) (lens p)
                   (default (world_position p) (positions ≫= (λ l, l !! k)))
                   (default (world_orientation p)
                      ((λ q, convert_orientation_convention q convention opengl)
                         <$> (orientations ≫= (λ l, l !! k)))))) ∧
         (∀ h, (∀ i, i ∈ ids → view_prims v !! i ≠ Some h) →
            st' !! h = st !! h)) as Hwrites.
    { intros env_ids' v ids Hv <- Hnd Hprims Hall Hps Hqs.
      unfold set_world_poses. rewrite Hv.
      set (ids := default (_ALL_INDICES self) env_ids') in *.
      destruct (view_set_world_poses_writes v positions
                  (match orientations with
                   | Some qs =>
                       Some ((λ q, convert_orientation_convention q convention opengl)
                               <$> qs)
                   | None => None
                   end) ids st Hnd Hprims Hall Hps)
        as (st' & Hrun & Hlen & Hrows & Hrest).
      { intros qs Hqs'. destruct orientations as [qs0|]; [|done].
        injection Hqs' as <-. rewrite length_fmap. by apply Hqs. }
      exists st'. split_and!; [done..| |done].
      intros k i h Hk Hh. destruct (Hrows k i h Hk Hh) as (p & Hp & Hst').
      exists p. split; [done|]. rewrite Hst'. do 2 f_equal.
      destruct orientations as [qs|]; [|done]. cbn.
      by rewrite list_lookup_fmap. }
    split_and!.
    - intros h. unfold set_world_poses. destruct (_view self) as [v|]; [|done].
      apply (view_set_world_poses_no_positions v _ _ st).
    - intros h. unfold set_world_poses. destruct (_view self) as [v|]; [|done].
      apply (view_set_world_poses_no_orientations v _ _ st).
    - apply Hwrites.
    - intros v n Hv Hall Hn Hprims Hst Hps Hqs.
      destruct (Hwrites None v (seq 0 n)) as (st' & Hrun & _ & Hrows & Hrest);
        try done.
      + apply NoDup_seq.
      + intros i Hi%elem_of_seq.
        destruct (lookup_lt_is_Some_2 (view_prims v) i) as [h Hh]; [lia|].
        exists h. split; [done|]. apply Hst. by eapply list_elem_of_lookup_2.
      + intros ps Hps'. rewrite length_seq. by apply Hps.
      + intros qs Hqs'. rewrite length_seq. by apply Hqs.
      + exists st'. split_and!; [done| | |].
        * intros i Hi. apply lookup_lt_is_Some_2. lia.
        * intros i h Hh. apply (Hrows i i h); [|done].
          apply lookup_seq. split; [done|].
          apply lookup_lt_Some in Hh. lia.
        * intros h Hh. apply Hrest. intros i _ Hi. apply Hh.
          by eapply list_elem_of_lookup_2.
  Qed.
End set_poses.

(** The batch of two cameras, turned by orientations given in the world
    convention, without positions and without indices: both prims keep
    their position and get the orientation of their row, converted to
    OpenGL. *)
Lemma set_world_poses_none_witness :
  ∃ st',
    set_world_poses Examples.camera2 None
      (Some [Quat 1 0 0 0; Quat 0 0 0 1]) None world Examples.stage2
    = (Ok tt, st') ∧
    st' !! 0 = Some
      (Examples.cam_prim "env_0" (Vec3 0 0 5)
         (convert_orientation_convention (Quat 1 0 0 0) world opengl)) ∧
    st' !! 1 = Some
      (Examples.cam_prim "env_1" (Vec3 4 0 5)
         (convert_orientation_convention (Quat 0 0 0 1) world opengl)).
Proof.
  destruct (set_world_poses_none Examples.camera2 None
              (Some [Quat 1 0 0 0; Quat 0 0 0 1]) None world Examples.stage2)
    as (_ & _ & _ & Hall).
  destruct (Hall (MkView [0; 1]) 2) as (st' & Hrun & _ & Hrows & _);
    try reflexivity; try done.
  - repeat constructor; set_solver.
  - intros h Hh. cbn in Hh.
    apply elem_of_cons in Hh as [->|Hh]; [by eexists|].
    apply list_elem_of_singleton in Hh as ->. by eexists.
  - intros qs [= <-]. reflexivity.
  - exists st'. split; [exact Hrun|]. split.
    + destruct (Hrows 0 0 eq_refl) as (p & Hp & ->). by injection Hp as <-.
    + destruct (Hrows 1 1 eq_refl) as (p & Hp & ->). by injection Hp as <-.
Defined.

(** * A reset after a refresh *)

Lemma reset_clears_frames_keeps_output_witness :
  ∃ c2 c3,
    _update_buffers_impl (Examples.sim2 5) [0; 1] Examples.camera2 = (Ok tt, c2) ∧
    _frame c2 !! 0 = Some 1%Z ∧ _frame c2 !! 1 = Some 1%Z ∧
    output (_data c2) !! "rgb" = Some [Examples.tensor 5; Examples.tensor 5] ∧
    reset Examples.super_reset (Examples.sim2_moved 6) (Some [1]) c2 = (Ok tt, c3) ∧
    _frame c3 !! 1 = Some 0%Z ∧
    _frame c3 !! 0 = Some 1%Z ∧
    output (_data c3) !! "rgb" = Some [Examples.tensor 5; Examples.tensor 5] ∧
    pos_w (_data c3) !! 1 = Some (Vec3 9 8 7) ∧
    quat_w_world (_data c3) !! 1
      = Some (convert_orientation_convention (Quat 0 0 1 0) opengl world) ∧
    intrinsic_matrices (_data c3) !! 1
      = Some (intrinsic_matrix_of Examples.lens_12_20 (480, 640)).
Proof.
  destruct (first_refresh_camera2 5 [0; 1])
    as (fr & ms & ps & qs & Hfr & Hms & Hps & Hqs & H2); [set_solver|].
  set (c2 := Examples.allocated2 5 5 fr ms ps qs) in *.
  assert (_frame c2 !! 0 = Some 1%Z ∧ _frame c2 !! 1 = Some 1%Z) as [Hf0 Hf1].
  { destruct (refresh_frame_counters _ _ _ _ H2) as (_ & Hin & _). split.
    - destruct (Hin 0) as (z & Hz & ->); [set_solver|]. by injection Hz as <-.
    - destruct (Hin 1) as (z & Hz & ->); [set_solver|]. by injection Hz as <-. }
  assert (refreshable (Examples.sim2_moved 6) [1] c2) as Hready.
  { split_and!; [discriminate | by eexists |].
    intros i ->%list_elem_of_singleton. cbn.
    rewrite Hfr, Hms, Hps, Hqs. split_and!; [lia..| |].
    - eexists. split; [exists 1; split; reflexivity|].
      split; cbn; intros H; lra.
    - eexists. by exists (MkView [0; 1]), 1. }
  destruct (reset_total Examples.super_reset (Examples.sim2_moved 6) (Some [1])
              c2 Hready) as [c3 H3].
  destruct (reset_clears_frames_keeps_output Examples.super_reset
              Examples.find_matching_prims Examples.render_product
              (Examples.sim2_moved 6) (Some [1]) c2 c3)
    as (Hin & Hnotin & Hout & Hpose & Hintr); [|exact H3|].
  { exact (reachable_refresh _ _ _ (Examples.sim2 5) [0; 1] Examples.camera2
             (Ok tt) c2 reachable_camera2 H2). }
  destruct (Hpose 1) as (p & (v & h & Hv & Hh & Hp) & Hpos & Hquat); [set_solver|].
  injection Hv as <-. injection Hh as <-. injection Hp as <-.
  destruct (Hintr 1) as (p & (h & Hh & Hp) & Hm); [set_solver|].
  injection Hh as <-. injection Hp as <-.
  exists c2, c3. split_and!; try done.
  - apply Hin. set_solver.
  - rewrite Hnotin; [done|set_solver].
  - by rewrite Hout.
Defined.

(** * Further properties of the refresh *)

Section refresh_frames.
Context {Base : Type}.
Implicit Types s : @Camera Base.

  (** The first three phases of a refresh, with what they keep: whatever
      the outcome, the frame counter, intrinsic matrix and pose of a slot
      that was not requested are as before. *)
Lemma refresh_inv_unrequested sim env_ids s r s' :
    _update_buffers_impl sim env_ids s = (r, s') →
    ∃ fr ms ps qs,
      let s3 := with_poses ps qs (with_intrinsics ms (with_frame fr s)) in
      (∀ j, j ∉ env_ids →
         fr !! j = _frame s !! j ∧
         ms !! j = intrinsic_matrices (_data s) !! j ∧
         ps !! j = pos_w (_data s) !! j ∧
         qs !! j = quat_w_world (_data s) !! j) ∧
      ((∃ e, r = Raise e ∧ s' = s3) ∨ capture_phase sim env_ids s3 = (r, s')).
  Proof.
    rewrite update_buffers_impl_phases. intros H.
    apply bind_inv in H as [([] & s1 & H1 & H)|(e & H1 & ->)].
    - destruct (post_run _ _ _ _ _ (increment_frame_post env_ids s) H1)
        as (fr & -> & _ & Hfr & _).
      apply bind_inv in H as [([] & s2 & H2 & H)|(e & H2 & ->)].
      + destruct (post_run _ _ _ _ _ (update_intrinsic_matrices_post sim env_ids _) H2)
          as (ms & -> & _ & _ & Hms & _).
        apply bind_inv in H as [([] & s3 & H3 & H)|(e & H3 & ->)].
        * destruct (post_run _ _ _ _ _ (update_poses_post sim env_ids _) H3)
            as (ps & qs & -> & _ & _ & Hpq & _).
          exists fr, ms, ps, qs. split; [|by right].
          intros j Hj. destruct (Hpq j Hj). split_and!; auto.
        * destruct (post_run _ _ _ _ _ (update_poses_post sim env_ids _) H3)
            as (ps & qs & -> & _ & _ & Hpq & _).
          exists fr, ms, ps, qs. split; [|left; by exists e].
          intros j Hj. destruct (Hpq j Hj). split_and!; auto.
      + destruct (post_run _ _ _ _ _ (update_intrinsic_matrices_post sim env_ids _) H2)
          as (ms & -> & _ & _ & Hms & _).
        exists fr, ms, (pos_w (_data s)), (quat_w_world (_data s)).
        split; [intros j Hj; split_and!; auto|].
        left. exists e. split; [done|].
        by rewrite <- (with_poses_same (with_intrinsics ms (with_frame fr s))) at 1.
    - destruct (post_run _ _ _ _ _ (increment_frame_post env_ids s) H1)
        as (fr & -> & _ & Hfr & _).
      exists fr, (intrinsic_matrices (_data s)), (pos_w (_data s)),
        (quat_w_world (_data s)).
      split; [intros j Hj; split_and!; auto|].
      left. exists e. split; [done|].
      rewrite <- (with_poses_same (with_frame fr s)) at 1.
      by rewrite <- (with_intrinsics_same (with_frame fr s)) at 1.
  Qed.

  (** X1. A refresh that returns has stored, for every requested slot, the
      position that the view reports for it, unchanged, and the orientation
      that the view reports, converted from the OpenGL convention to the
      world convention. *)
Theorem refresh_stores_view_pose sim env_ids s s' :
    _update_buffers_impl sim env_ids s = (Ok tt, s') →
    ∀ i, i ∈ env_ids →
      ∃ p, view_prim sim s i p ∧
        pos_w (_data s') !! i = Some (world_position p) ∧
        quat_w_world (_data s') !! i
          = Some (convert_orientation_convention (world_orientation p)
                    opengl world).
  Proof. apply refresh_updates_poses. Qed.

  (** X2. A refresh that returns has incremented the frame counter of
      every requested slot by one (with the wrap-around of a 64-bit
      integer), once also for a slot that is listed several times, and has
      left the other frame counters alone. *)
Theorem refresh_increments_frame_counters sim env_ids s s' :
    _update_buffers_impl sim env_ids s = (Ok tt, s') →
    length (frame s') = length (frame s) ∧
    (∀ i, i ∈ env_ids →
       ∃ z, frame s !! i = Some z ∧ frame s' !! i = Some (wrap64 (z + 1))) ∧
    (∀ j, j ∉ env_ids → frame s' !! j = frame s !! j).
  Proof. apply refresh_frame_counters. Qed.

  (** X3. Whatever its outcome, a refresh leaves the frame counter, the
      intrinsic matrix and the pose of every slot that was not requested as
      they were, and, when the output buffers are allocated, its slice of
      every output buffer too. *)
Theorem refresh_keeps_unrequested_slots sim env_ids s r s' j :
    _update_buffers_impl sim env_ids s = (r, s') →
    j ∉ env_ids →
    _frame s' !! j = _frame s !! j ∧
    intrinsic_matrices (_data s') !! j = intrinsic_matrices (_data s) !! j ∧
    pos_w (_data s') !! j = pos_w (_data s) !! j ∧
    quat_w_world (_data s') !! j = quat_w_world (_data s) !! j ∧
    (size (output (_data s)) ≠ 0 →
     ∀ name, output_slot s' name j = output_slot s name j).
  Proof.
    intros H Hj.
    pose proof (refresh_inv_unrequested _ _ _ _ _ H) as (fr & ms & ps & qs & Hkeep & Hc).
    destruct (Hkeep j Hj) as (Hfr & Hms & Hps & Hqs). cbn in Hc.
    assert (∃ out inf, s' = with_capture out inf
              (with_poses ps qs (with_intrinsics ms (with_frame fr s))))
      as (out & inf & ->).
    { destruct Hc as [(e & -> & ->)|Hc].
      - eexists _, _. by rewrite <- (with_capture_same (with_poses _ _ _)) at 1.
      - exact (post_run _ _ _ _ _ (capture_phase_post sim env_ids _) Hc). }
    split_and!; [done..|].
    intros Hsize name.
    destruct (refresh_failure_prefix sim env_ids s r _ Hsize H)
      as (dn & rest & Hitems & _ & Hsame & _).
    apply Hsame. intros anns Hin.
    assert ((name, anns, j) ∈ capture_items (_rep_registry s) env_ids) as Hin'.
    { rewrite Hitems. apply elem_of_app. by left. }
    by apply capture_items_elem in Hin' as [_ ?].
  Qed.
End refresh_frames.

Lemma refresh_stores_view_pose_witness :
  ∃ c2,
    _update_buffers_impl (Examples.sim2 7) [1] Examples.camera2 = (Ok tt, c2) ∧
    pos_w (_data c2) !! 1 = Some (Vec3 4 0 5).
Proof.
  destruct (refresh_camera2_returns 7 [1]) as [c2 Hc2]; [set_solver|].
  exists c2. split; [exact Hc2|].
  destruct (refresh_stores_view_pose (Examples.sim2 7) [1] Examples.camera2 c2 Hc2 1)
    as (p & (v & h & Hv & Hh & Hp) & Hpos & _); [set_solver|].
  injection Hv as <-. injection Hh as <-. injection Hp as <-. exact Hpos.
Defined.

Lemma refresh_increments_frame_counters_witness :
  ∃ c2,
    _update_buffers_impl (Examples.sim2 7) [1; 1] Examples.camera2 = (Ok tt, c2) ∧
    frame c2 !! 1 = Some 1%Z ∧ frame c2 !! 0 = Some 0%Z.
Proof.
  destruct (refresh_camera2_returns 7 [1; 1]) as [c2 Hc2]; [set_solver|].
  exists c2. split; [exact Hc2|].
  destruct (refresh_increments_frame_counters (Examples.sim2 7) [1; 1]
              Examples.camera2 c2 Hc2) as (_ & Hin & Hout).
  split.
  - destruct (Hin 1) as (z & Hz & ->); [set_solver|]. by injection Hz as <-.
  - rewrite Hout; [done|set_solver].
Defined.

Lemma refresh_keeps_unrequested_slots_witness :
  ∃ c2 c3,
    _update_buffers_impl (Examples.sim2 0) [0; 1] Examples.camera2 = (Ok tt, c2) ∧
    _update_buffers_impl (Examples.sim2_fail 9) [1] c2 = (Raise CaptureError, c3) ∧
    _frame c3 !! 0 = _frame c2 !! 0 ∧
    output_slot c3 "rgb" 0 = output_slot c2 "rgb" 0.
Proof.
  destruct (first_refresh_camera2 0 [0; 1])
    as (fr & ms & ps & qs & Hfr & Hms & Hps & Hqs & H2); [set_solver|].
  assert (∃ c3, _update_buffers_impl (Examples.sim2_fail 9) [1]
                  (Examples.allocated2 0 0 fr ms ps qs)
                = (Raise CaptureError, c3)) as [c3 H3].
  { destruct (refresh_prefix_total (Examples.sim2_fail 9) [1]
                (Examples.allocated2 0 0 fr ms ps qs))
      as (s1 & s2 & s3 & H1 & H2' & H3 & Hrun).
    { apply refreshable_two_slots; try done. set_solver. }
    destruct H1 as (fr' & -> & _), H2' as (ms' & -> & _),
      H3 as (ps' & qs' & -> & _).
    rewrite Hrun. eexists. vm_compute. reflexivity. }
  exists (Examples.allocated2 0 0 fr ms ps qs), c3. split_and!; [exact H2 | exact H3 | |].
  - apply (refresh_keeps_unrequested_slots (Examples.sim2_fail 9) [1]
             (Examples.allocated2 0 0 fr ms ps qs) _ c3 0 H3). set_solver.
  - apply (refresh_keeps_unrequested_slots (Examples.sim2_fail 9) [1]
             (Examples.allocated2 0 0 fr ms ps qs) _ c3 0 H3); [set_solver|].
    vm_compute. discriminate.
Defined.

(** * The constructor and the initialization, once more *)

Section constructor_outcomes.
Context {Base : Type}.
Variable super_init : CameraCfg → result Base.
Variable find_matching_prims : string → Stage → list nat.

  (** X4. With a plain leaf name, supported data types, a configuration
      that the base class accepts and at least one prim under the path once
      the spawner has run, the constructor returns an object that is not
      initialized and carries the configuration; the spawner (if there is
      one) has been called exactly once, before the one resolution of the
      path, and the stage is what the spawner made of it. *)
Theorem init_succeeds cf st b :
    leaf_re_match (last_segment (prim_path cf)) = true →
    common_elements cf = [] →
    super_init cf = Ok b →
    find_matching_prims (prim_path cf) (after_spawn cf (st, [])).1 ≠ [] →
    ∃ c,
      __init__ super_init find_matching_prims cf (st, [])
        = (Ok c, ((after_spawn cf (st, [])).1,
                  (after_spawn cf (st, [])).2 ++ [CallFindMatchingPrims])) ∧
      cfg c = cf ∧ base c = b ∧ _is_initialized c = false ∧
      _view c = None ∧
      (after_spawn cf (st, [])).2
        = match spawn cf with Some _ => [CallSpawn] | None => [] end.
  Proof.
    intros H Hc Hb Hm. unfold __init__, _check_supported_data_types.
    rewrite H, Hc. cbn. unfold mbind, M_bind, lift at 1. rewrite Hb.
    unfold after_spawn in *.
    destruct (spawn cf); cbn in *.
    - case_decide as Hd; [by apply length_zero_iff_nil in Hd|].
      eexists. split; [reflexivity|]. done.
    - case_decide as Hd; [by apply length_zero_iff_nil in Hd|].
      eexists. split; [reflexivity|]. done.
  Qed.

  (** X5. When no prim matches the configured path after the spawner has
      run, the constructor raises a [RuntimeError]. *)
Theorem init_no_matching_prim cfg w b :
    leaf_re_match (last_segment (prim_path cfg)) = true →
    common_elements cfg = [] →
    super_init cfg = Ok b →
    find_matching_prims (prim_path cfg) (after_spawn cfg w).1 = [] →
    (__init__ super_init find_matching_prims cfg w).1 = Raise RuntimeError.
  Proof. apply init_no_match. Qed.
End constructor_outcomes.

Section initialization_outcomes.
Context {Base : Type}.
Variable find_matching_prims : string → Stage → list nat.
Variable render_product : string → nat * nat → string.

  (** X6. When the path resolves to a number of prims other than the
      number of environments, or to a prim that is not a camera, the
      initialization raises a [RuntimeError] and the batch does not become
      ready. *)
Theorem initialize_rejects_scene sim device n (c : @Camera Base) :
    let handles := find_matching_prims (prim_path (cfg c)) (stage sim) in
    _is_initialized c = false →
    length handles ≠ n ∨
      (∃ h, h ∈ handles ∧ is_camera <$> (stage sim !! h) ≠ Some true) →
    ∃ c',
      initialize find_matching_prims render_product sim device n c
        = (Raise RuntimeError, c') ∧
      _is_initialized c' = false.
  Proof. apply initialize_fails. Qed.
End initialization_outcomes.

Lemma init_succeeds_witness :
  ∃ c,
    __init__ Examples.super_init Examples.find_matching_prims Examples.cfg_rgb
      (Examples.stage2, [])
    = (Ok c, (Examples.stage2, [CallFindMatchingPrims])) ∧
    _is_initialized c = false.
Proof.
  destruct (init_succeeds Examples.super_init Examples.find_matching_prims
              Examples.cfg_rgb Examples.stage2 tt)
    as (c & Hc & _ & _ & Hi & _); [reflexivity | reflexivity | reflexivity | |].
  - vm_compute. discriminate.
  - exists c. split; [exact Hc | exact Hi].
Defined.

Lemma init_no_matching_prim_witness :
  (__init__ Examples.super_init Examples.find_matching_prims Examples.cfg_rgb
     (Examples.stage_empty, [])).1 = Raise RuntimeError.
Proof.
  apply (init_no_matching_prim Examples.super_init Examples.find_matching_prims
           Examples.cfg_rgb (Examples.stage_empty, []) tt); reflexivity.
Defined.

Lemma initialize_rejects_scene_witness :
  ∃ c',
    initialize Examples.find_matching_prims Examples.render_product
      Examples.sim_xform "cuda:0" 2 (Examples.camera_new Examples.cfg_rgb)
    = (Raise RuntimeError, c') ∧
    _is_initialized c' = false.
Proof.
  apply (initialize_rejects_scene Examples.find_matching_prims
           Examples.render_product Examples.sim_xform "cuda:0" 2
           (Examples.camera_new Examples.cfg_rgb)); [reflexivity|].
  right. exists 1. split; [vm_compute; set_solver|].
  vm_compute. discriminate.
Defined.

(** * The annotators that the initialization attaches *)

Section registry_contents.
  (** The registry built from a list of distinct names, one value each. *)
Lemma registry_new_distinct names :
    NoDup names → registry_new names = (λ name, (name, [])) <$> names.
  Proof.
    induction 1 as [|name names Hname _ IH]; [done|].
    cbn. rewrite IH. f_equal.
    clear IH. induction names as [|k names IH]; [done|].
    apply not_elem_of_cons in Hname as [Hne Hname].
    cbn. unfold filter at 1. cbn. unfold filter in IH. cbn in IH.
    case_decide as Hd; [|by destruct Hd]. f_equal. by apply IH.
  Qed.

Lemma registry_append_skip (f : string → Annotator) k v names reg :
    k ∉ names →
    foldl (λ reg name, registry_append name (f name) reg) ((k, v) :: reg) names
    = (k, v) :: foldl (λ reg name, registry_append name (f name) reg) reg names.
  Proof.
    revert reg. induction names as [|name names IH]; intros reg Hk; [done|].
    apply not_elem_of_cons in Hk as [Hne Hk]. cbn.
    case_decide as Hd; [done|]. by apply IH.
  Qed.

  (** Appending one annotator per name to a registry with exactly these
      names, each once, extends every list by its own annotator. *)
Lemma registry_append_all (f : string → Annotator)
      (g : string → list Annotator) names :
    NoDup names →
    foldl (λ reg name, registry_append name (f name) reg)
      ((λ name, (name, g name)) <$> names) names
    = (λ name, (name, g name ++ [f name])) <$> names.
  Proof.
    induction 1 as [|name names Hname _ IH]; [done|].
    cbn. case_decide as Hd; [|done].
    rewrite registry_append_skip by done. by rewrite IH.
  Qed.

Lemma registry_lookup_fmap (g : string → list Annotator) names name :
    name ∈ names →
    registry_lookup ((λ name, (name, g name)) <$> names) name = Some (g name).
  Proof.
    induction names as [|k names IH]; [by intros ?%elem_of_nil|].
    intros Hin. cbn. case_decide as Hd; [by subst|].
    apply elem_of_cons in Hin as [->|Hin]; [done | by apply IH].
  Qed.
End registry_contents.

Section attach.
Context {Base : Type}.
Variable find_matching_prims : string → Stage → list nat.
Variable render_product : string → nat * nat → string.
Implicit Types s c : @Camera Base.

Local Abbreviation init_impl :=
    (@_initialize_impl Base find_matching_prims render_product).
Local Abbreviation rp_of c p :=
    (render_product (path p) (width (cfg c), height (cfg c))).
Local Abbreviation annotator_of c device p name :=
    (MkAnnotator name (annotator_init_params (cfg c) name)
       (resolve_device_name device) (rp_of c p)).

  (** The inner loop of the initialization appends one annotator per
      data type. *)
Lemma attach_loop_run (f : string → Annotator) names s :
    for_each names (λ name, modify (set_rep_registry (registry_append name (f name)))) s
    = (Ok tt,
       set_rep_registry
         (λ reg, foldl (λ reg name, registry_append name (f name) reg) reg names) s).
  Proof.
    revert s. induction names as [|name names IH]; intros s.
    - by destruct s.
    - cbn [for_each]. unfold mbind, M_bind, modify at 1. rewrite IH. done.
  Qed.

  (** What the loop over the resolved prims has done when it returns. *)
Lemma attach_cameras_ok (sim : Sim) c device (g : string → list Annotator)
      handles s s' :
    NoDup (data_types (cfg c)) →
    _rep_registry s = (λ name, (name, g name)) <$> data_types (cfg c) →
    for_each handles (λ cam_prim_path,
      cam_prim ← deref (stage sim) cam_prim_path;
      (if is_camera cam_prim then mret tt else raise RuntimeError) ;;
      modify (set_sensor_prims (λ l, l ++ [cam_prim_path])) ;;
      let render_prod_path :=
        render_product (path cam_prim) (width (cfg c), height (cfg c)) in
      modify (set_render_product_paths (λ l, l ++ [render_prod_path])) ;;
      for_each (data_types (cfg c)) (λ name,
        let rep_annotator :=
          MkAnnotator name (annotator_init_params (cfg c) name)
            (resolve_device_name device) render_prod_path in
        modify (set_rep_registry (registry_append name rep_annotator)))) s
    = (Ok tt, s') →
    ∃ prims,
      Forall2 (λ h p, stage sim !! h = Some p ∧ is_camera p = true) handles prims ∧
      _sensor_prims s' = _sensor_prims s ++ handles ∧
      _render_product_paths s'
        = _render_product_paths s ++ ((λ p, rp_of c p) <$> prims) ∧
      _rep_registry s'
        = (λ name, (name, g name ++ ((λ p, annotator_of c device p name) <$> prims)))
            <$> data_types (cfg c) ∧
      _view s' = _view s ∧ cfg s' = cfg s ∧ _data s' = _data s.
  Proof.
    intros Hnd. revert g s.
    induction handles as [|h handles IH]; intros g s Hreg H.
    - injection H as <-. exists []. rewrite !app_nil_r. split_and!; try done.
      rewrite Hreg. apply list_fmap_ext. intros _ name _. by rewrite app_nil_r.
    - cbn [for_each] in H.
      apply bind_inv in H as [([] & s1 & H1 & H)|(e & _ & [=])].
      apply bind_inv in H1 as [(p & s0 & Hp & H1)|(e & _ & [=])].
      unfold deref in Hp. destruct (stage sim !! h) as [p'|] eqn:Hh; [|done].
      injection Hp as -> ->.
      destruct (is_camera p) eqn:Hcam;
        [|by apply bind_inv in H1 as [(? & ? & [=] & _)|(e & _ & [=])]].
      apply bind_inv in H1 as [([] & ? & [= <-] & H1)|(e & _ & [=])].
      apply bind_inv in H1 as [([] & ? & [= <-] & H1)|(e & _ & [=])].
      apply bind_inv in H1 as [([] & ? & [= <-] & H1)|(e & _ & [=])].
      rewrite (attach_loop_run (λ name, annotator_of c device p name)) in H1.
      injection H1 as <-.
      apply (IH (λ name, g name ++ [annotator_of c device p name])) in H
        as (prims & Hprims & Hsp & Hrp & Hrg & Hv & Hc & Hd).
      + exists (p :: prims). split_and!.
        * by constructor.
        * rewrite Hsp. cbn. by rewrite <- app_assoc.
        * rewrite Hrp. cbn. by rewrite <- app_assoc.
        * rewrite Hrg. apply list_fmap_ext. intros _ name _.
          by rewrite <- app_assoc.
        * by rewrite Hv.
        * by rewrite Hc.
        * by rewrite Hd.
      + cbn. rewrite Hreg. by apply registry_append_all.
  Qed.

  (** The registry, the render products and the sensor prims after an
      initialization that returns. *)
Lemma initialize_impl_attached sim device n c s :
    NoDup (data_types (cfg c)) →
    init_impl sim device n c = (Ok tt, s) →
    ∃ prims,
      Forall2 (λ h p, stage sim !! h = Some p ∧ is_camera p = true)
        (find_matching_prims (prim_path (cfg c)) (stage sim)) prims ∧
      length prims = n ∧
      _sensor_prims s
        = _sensor_prims c ++ find_matching_prims (prim_path (cfg c)) (stage sim) ∧
      _render_product_paths s = (λ p, rp_of c p) <$> prims ∧
      _rep_registry s
        = (λ name, (name, (λ p, annotator_of c device p name) <$> prims))
            <$> data_types (cfg c).
  Proof.
    intros Hnd H. unfold _initialize_impl in H.
    apply bind_inv in H as [([] & ? & [= <-] & H)|(e & [=] & _)].
    apply bind_inv in H as [(c' & ? & [= <- <-] & H)|(e & [=] & _)].
    apply bind_inv in H as [([] & ? & [= <-] & H)|(e & [=] & _)].
    apply bind_inv in H as [([] & s0 & H0 & H)|(e & _ & [=])].
    case_decide as Hcount; [done|]. injection H0 as <-.
    apply bind_inv in H as [([] & ? & [= <-] & H)|(e & [=] & _)].
    apply bind_inv in H as [([] & ? & [= <-] & H)|(e & [=] & _)].
    apply bind_inv in H as [([] & ? & [= <-] & H)|(e & [=] & _)].
    apply bind_inv in H as [([] & ? & [= <-] & H)|(e & [=] & _)].
    apply bind_inv in H as [([] & s1 & H1 & H)|(e & _ & [=])].
    cbn in H1.
    apply (attach_cameras_ok sim c device (λ _, [])) in H1
      as (prims & Hprims & Hsp & Hrp & Hrg & Hv & Hc & Hd);
      [|done|by cbn; apply registry_new_distinct].
    cbn in Hsp, Hrp, Hrg, Hv, Hc.
    unfold _create_buffers, view_count in H.
    apply bind_inv in H as [(k & s0 & H0 & H)|(e & _ & [=])].
    apply bind_inv in H0 as [(c' & s0' & [= <- <-] & H0)|(e & [=] & _)].
    rewrite Hv in H0. injection H0 as <- <-.
    apply bind_inv in H as [(c' & s0' & [= <- <-] & H)|(e & [=] & _)].
    injection H as <-. cbn.
    exists prims. split_and!; try done.
    apply Forall2_length in Hprims. unfold count in Hcount. cbn in Hcount. lia.
  Qed.

  (** X7. An initialization that returns, for a configuration whose data
      types are pairwise distinct, has resolved the path to [n] camera
      prims and, for the prim at each index [i] of the view, has created
      one render product and, for every data type, one annotator attached
      to that render product, stored at index [i] of the type's list in
      the registry. The registry lists the data types in the order of the
      configuration. The sensor prims are appended to those that the
      object already had. *)
Theorem initialize_attaches_annotators sim device n c s :
    NoDup (data_types (cfg c)) →
    init_impl sim device n c = (Ok tt, s) →
    let handles := find_matching_prims (prim_path (cfg c)) (stage sim) in
    _sensor_prims s = _sensor_prims c ++ handles ∧
    length (render_product_paths s) = n ∧
    (_rep_registry s).*1 = data_types (cfg c) ∧
    ∀ i h, handles !! i = Some h →
      ∃ p, stage sim !! h = Some p ∧ is_camera p = true ∧
        render_product_paths s !! i = Some (rp_of c p) ∧
        ∀ name, name ∈ data_types (cfg c) →
          ∃ annotators,
            registry_lookup (_rep_registry s) name = Some annotators ∧
            length annotators = n ∧
            annotators !! i = Some (annotator_of c device p name).
  Proof.
    intros Hnd H handles.
    apply initialize_impl_attached in H
      as (prims & Hprims & Hlen & Hsp & Hrp & Hrg); [|done].
    fold handles in Hprims, Hsp. unfold render_product_paths. split_and!.
    - done.
    - by rewrite Hrp, length_fmap.
    - rewrite Hrg, <- list_fmap_compose. apply list_fmap_id.
    - intros i h Hh.
      destruct (Forall2_lookup_l _ _ _ _ _ Hprims Hh) as (p & Hp & Hst & Hcam).
      exists p. split_and!; [done..| |].
      + by rewrite Hrp, list_lookup_fmap, Hp.
      + intros name Hname. eexists. split_and!.
        * rewrite Hrg. by apply (registry_lookup_fmap (λ name, _ <$> prims)).
        * by rewrite length_fmap.
        * by rewrite list_lookup_fmap, Hp.
  Qed.

  (** X8. On a batch initialized for pairwise distinct data types, the
      teardown detaches every annotator of the registry, each exactly from
      the render product that it was attached to. *)
Theorem del_detaches_every_annotator sim device n c s :
    NoDup (data_types (cfg c)) →
    init_impl sim device n c = (Ok tt, s) →
    (__del__ s).*1 = _rep_registry s ≫= snd ∧
    ∀ a p, (a, p) ∈ __del__ s → an_render_product a = p.
  Proof.
    intros Hnd H.
    apply initialize_impl_attached in H
      as (prims & _ & _ & _ & Hrp & Hrg); [|done].
    unfold __del__. rewrite Hrg, Hrp. clear. split.
    - induction (data_types (cfg c)) as [|name names IH]; [done|].
      cbn. rewrite fmap_app, IH. f_equal.
      rewrite fst_zip; [done|]. by rewrite !length_fmap.
    - intros a p Hin.
      apply list_elem_of_bind in Hin as ([name anns] & Hin & Hname).
      apply list_elem_of_fmap in Hname as (name' & [= -> ->] & _).
      apply list_elem_of_lookup in Hin as (i & Hi).
      apply lookup_zip_with_Some in Hi as (a' & p' & [= -> ->] & Ha & Hp).
      rewrite list_lookup_fmap in Ha. rewrite list_lookup_fmap in Hp.
      destruct (prims !! i); [|done]. cbn in Ha, Hp. by simplify_eq.
  Qed.
End attach.

Lemma initialize_attaches_annotators_witness :
  _render_product_paths Examples.camera2
    = ["/Render/RenderProduct_/World/envs/env_0/Camera";
       "/Render/RenderProduct_/World/envs/env_1/Camera"] ∧
  registry_lookup (_rep_registry Examples.camera2) "rgb"
    = Some [MkAnnotator "rgb" NoParams "cuda"
              "/Render/RenderProduct_/World/envs/env_0/Camera";
            Examples.rgb_env_1].
Proof.
  assert (∃ c1, _initialize_impl Examples.find_matching_prims
            Examples.render_product (Examples.sim2 0) "cuda:0" 2
            (Examples.camera_new Examples.cfg_rgb) = (Ok tt, c1) ∧
          _render_product_paths c1 = _render_product_paths Examples.camera2 ∧
          _rep_registry c1 = _rep_registry Examples.camera2)
    as (c1 & H1 & Hrp & Hrg).
  { eexists. split; [vm_compute; reflexivity|]. split; vm_compute; reflexivity. }
  rewrite <- Hrp, <- Hrg.
  destruct (initialize_attaches_annotators Examples.find_matching_prims
              Examples.render_product (Examples.sim2 0) "cuda:0" 2
              (Examples.camera_new Examples.cfg_rgb) c1)
    as (_ & Hlen & _ & Hslots); [by repeat constructor; set_solver | exact H1 |].
  destruct (Hslots 0 0) as (p0 & Hp0 & _ & Hr0 & Ha0); [reflexivity|].
  destruct (Hslots 1 1) as (p1 & Hp1 & _ & Hr1 & Ha1); [reflexivity|].
  injection Hp0 as <-. injection Hp1 as <-.
  destruct (Ha0 "rgb") as (anns & Hanns & Hl & Hi0); [set_solver|].
  destruct (Ha1 "rgb") as (anns' & Hanns' & _ & Hi1); [set_solver|].
  rewrite Hanns in Hanns'. injection Hanns' as <-.
  unfold render_product_paths in *. split.
  - destruct (_render_product_paths c1) as [|a [|b [|]]]; try discriminate.
    by injection Hr0 as ->; injection Hr1 as ->.
  - rewrite Hanns. f_equal.
    destruct anns as [|a [|b [|]]]; try discriminate.
    by injection Hi0 as ->; injection Hi1 as ->.
Defined.

Lemma del_detaches_every_annotator_witness :
  ∃ c1,
    _initialize_impl Examples.find_matching_prims Examples.render_product
      (Examples.sim2 0) "cuda:0" 2 (Examples.camera_new Examples.cfg_rgb)
    = (Ok tt, c1) ∧
    ∀ a p, (a, p) ∈ __del__ c1 → an_render_product a = p.
Proof.
  eexists. split; [vm_compute; reflexivity|].
  apply (del_detaches_every_annotator Examples.find_matching_prims
           Examples.render_product (Examples.sim2 0) "cuda:0" 2
           (Examples.camera_new Examples.cfg_rgb));
    [by repeat constructor; set_solver | vm_compute; reflexivity].
Defined.

(** * What the setters and an invalidated batch never do *)

Section lens_writes.
Context {Base : Type}.
Implicit Types s : @Camera Base.

  (** X9. The matrices that the batch itself stores live on the device of
      the batch. Handed back as they are to [set_intrinsic_matrices] on a
      batch that is not on the host (a CUDA batch), they are refused with a
      [TypeError] at the first matrix, and nothing is written to the
      stage. *)
Theorem set_intrinsic_matrices_refuses_device_tensor s f env_ids (st : Stage) :
    on_host (_device s) = false →
    default (_ALL_INDICES s) env_ids ≠ [] →
    intrinsic_matrices (_data s) ≠ [] →
    set_intrinsic_matrices s
      (MkMatrixBatch (_device s) (intrinsic_matrices (_data s))) f env_ids st
    = (Raise TypeError, st).
  Proof.
    intros Hdev Hids Hms. apply set_intrinsic_matrices_off_host; [done|].
    cbn. destruct (default _ _), (intrinsic_matrices _); done.
  Qed.

  (** X10. Whatever its arguments and its outcome, [set_intrinsic_matrices]
      writes lens attributes only: no prim is added or removed, every prim
      keeps its path, its type and its pose, and a prim that is not behind
      one of the addressed slots keeps its lens too. *)
Theorem set_intrinsic_matrices_writes_lens_only s matrices f env_ids
      (st : Stage) :
    let st' := (set_intrinsic_matrices s matrices f env_ids st).2 in
    length st' = length st ∧
    (∀ h, (λ p, (path p, is_camera p, world_position p, world_orientation p))
            <$> st' !! h
          = (λ p, (path p, is_camera p, world_position p, world_orientation p))
            <$> st !! h) ∧
    (∀ h,
       (∀ i, i ∈ default (_ALL_INDICES s) env_ids →
             _sensor_prims s !! i ≠ Some h) →
       st' !! h = st !! h).
  Proof.
    unfold set_intrinsic_matrices.
    set (ids := default (_ALL_INDICES s) env_ids).
    apply (post_for_each (λ st' : Stage,
      length st' = length st ∧
      (∀ h, (λ p, (path p, is_camera p, world_position p, world_orientation p))
              <$> st' !! h
            = (λ p, (path p, is_camera p, world_position p, world_orientation p))
              <$> st !! h) ∧
      (∀ h, (∀ i, i ∈ ids → _sensor_prims s !! i ≠ Some h) →
            st' !! h = st !! h))); [done|].
    intros [i m] st1 Hin (Hlen & Hframe & Hrest).
    apply elem_of_zip_l in Hin.
    unfold set_lens. post_steps; try done. unfold Stage in *.
    match goal with
    | Hs : _sensor_prims s !! i = Some ?h0, Hp : st1 !! ?h0 = Some _ |- _ =>
        split_and!;
        [ by rewrite length_insert
        | intros h'; rewrite <- Hframe;
          destruct (decide (h' = h0)) as [->|Hne];
          [ rewrite list_lookup_insert_eq by (by eapply lookup_lt_Some);
            by rewrite Hp
          | by rewrite list_lookup_insert_ne ]
        | intros h' Hh'; rewrite <- Hrest by done;
          apply list_lookup_insert_ne; intros <-; by apply (Hh' i) ]
    end.
  Qed.
End lens_writes.

Section invalidated.
Context {Base : Type}.
Implicit Types s : @Camera Base.

  (** X11. Once the initialization has been invalidated the view is gone:
      the number of instances cannot be read and the pose setters raise
      [AttributeError] without writing to the stage; a refresh does not
      return, and it leaves the stored poses and the output buffers as
      they were. *)
Theorem invalidated_batch_raises (super_invalidate : Base → Base)
      orientations_from_view s sim positions orientations eyes targets env_ids
      ids convention (st : Stage) :
    let s0 := _invalidate_initialize_callback super_invalidate s in
    num_instances s0 = (Raise AttributeError, s0) ∧
    set_world_poses s0 positions orientations env_ids convention st
      = (Raise AttributeError, st) ∧
    set_world_poses_from_view orientations_from_view s0 eyes targets env_ids st
      = (Raise AttributeError, st) ∧
    ∃ e s',
      _update_buffers_impl sim ids s0 = (Raise e, s') ∧
      pos_w (_data s') = pos_w (_data s) ∧
      quat_w_world (_data s') = quat_w_world (_data s) ∧
      output (_data s') = output (_data s).
  Proof.
    intros s0. split_and!; [done..|].
    destruct (_update_buffers_impl sim ids s0) as [r s'] eqn:H.
    rewrite update_buffers_impl_phases in H.
    apply bind_inv in H as [([] & s1 & H1 & H)|(e & H1 & ->)].
    - destruct (post_run _ _ _ _ _ (increment_frame_post ids s0) H1)
        as (fr & -> & _).
      apply bind_inv in H as [([] & s2 & H2 & H)|(e & H2 & ->)].
      + destruct (post_run _ _ _ _ _ (update_intrinsic_matrices_post sim ids _) H2)
          as (ms & -> & _).
        apply bind_inv in H as [([] & s3 & H3 & H)|(e & H3 & ->)].
        * exfalso. unfold _update_poses in H3.
          apply bind_inv in H3 as [(c & ? & [= <- <-] & H3)|(e & [=] & _)].
          apply bind_inv in H3 as [([] & ? & H0 & H3)|(e & _ & [=])].
          case_decide; [done|]. injection H0 as <-.
          by apply bind_inv in H3 as [(v & ? & [=] & _)|(e & _ & [=])].
        * destruct (post_run _ _ _ _ _ (update_poses_post sim ids _) H3)
            as (ps & qs & -> & _ & _ & _ & _ & _).
          unfold _update_poses in H3.
          apply bind_inv in H3 as [(c & ? & [= <- <-] & H3)|(e' & [=] & _)].
          apply bind_inv in H3 as [([] & ? & H0 & H3)|(e' & H0 & _)].
          -- case_decide; [done|]. injection H0 as <-.
             apply bind_inv in H3 as [(v & ? & [=] & _)|(e' & H3 & _)].
             injection H3 as _ Hs. exists e. eexists. split; [done|].
             by rewrite <- Hs.
          -- case_decide; [|done]. injection H0 as _ Hs.
             exists e. eexists. split; [done|]. by rewrite <- Hs.
      + destruct (post_run _ _ _ _ _ (update_intrinsic_matrices_post sim ids _) H2)
          as (ms & -> & _).
        exists e. eexists. by split.
    - destruct (post_run _ _ _ _ _ (increment_frame_post ids s0) H1)
        as (fr & -> & _).
      exists e. eexists. by split.
  Qed.
End invalidated.

Lemma set_intrinsic_matrices_refuses_device_tensor_witness :
  set_intrinsic_matrices Examples.camera2
    (MkMatrixBatch "cuda:0" (intrinsic_matrices (_data Examples.camera2)))
    24 None Examples.stage2
  = (Raise TypeError, Examples.stage2).
Proof.
  apply (set_intrinsic_matrices_refuses_device_tensor Examples.camera2 24 None
           Examples.stage2); [reflexivity | discriminate | discriminate].
Defined.

(** * A first refresh that fails part of the way *)

Section partial_allocation.
Context {Base : Type}.
Implicit Types s : @Camera Base.
Implicit Types out : gmap string (list Tensor).
Implicit Types inf : list (gmap string (option info_t)).

  (** The reads of a refresh over allocated buffers never add a buffer: a
      data type without one stays without, and its first read raises. *)
Lemma capture_loop_missing sim items out inf s name :
    out !! name = None →
    post (for_each items (λ '(name, annotators, i),
            update_slot sim name annotators i))
      (with_capture out inf s)
      (λ r s', ∃ out' inf', s' = with_capture out' inf' s ∧
         out' !! name = None ∧ size out' = size out ∧
         ((∃ annotators i, (name, annotators, i) ∈ items) → ∃ e, r = Raise e)).
  Proof.
    intros Hname. revert out inf Hname.
    induction items as [|[[name' anns] i] items IH]; intros out inf Hname.
    { exists out, inf. split_and!; [done..|].
      by intros (? & ? & ?%elem_of_nil). }
    cbn [for_each]. apply post_bind.
    eapply post_mono; [apply update_slot_post|].
    intros r s1 (out1 & inf1 & -> & Hcase).
    destruct Hcase as [[[e ->] ->]|[_ (data & buffer & Hb & _ & ->)]].
    - exists out, inf1. split_and!; [done..|]. intros _. by exists e.
    - assert (name' ≠ name) as Hne by (intros ->; by rewrite Hname in Hb).
      assert (<[name' := <[i := data]> buffer]> out !! name = None) as Hname'
        by (by rewrite lookup_insert_ne).
      assert (size (<[name' := <[i := data]> buffer]> out) = size out) as Hsize.
      { apply map_size_insert_Some. by rewrite Hb. }
      destruct r as [[]|e].
      + eapply post_mono; [by apply IH|].
        intros r s2 (out2 & inf2 & -> & Hn & Hs & Hr).
        exists out2, inf2. split_and!; [done..|by rewrite Hs|].
        intros (anns' & i' & [[=]|Hin]%elem_of_cons); [done|].
        apply Hr. by exists anns', i'.
      + eexists _, _. split_and!; [done..|]. intros _. by exists e.
  Qed.

  (** X12. A batch in which some output buffer exists while a data type of
      the registry has none (which is where a first refresh that raised
      part of the way leaves it) is never completed: every later refresh
      of at least one slot raises, and leaves that data type without a
      buffer again. *)
Theorem partial_allocation_is_never_completed sim env_ids s r s' name
      annotators :
    size (output (_data s)) ≠ 0 →
    (name, annotators) ∈ _rep_registry s →
    output (_data s) !! name = None →
    env_ids ≠ [] →
    _update_buffers_impl sim env_ids s = (r, s') →
    (∃ e, r = Raise e) ∧
    size (output (_data s')) ≠ 0 ∧
    (name, annotators) ∈ _rep_registry s' ∧
    output (_data s') !! name = None.
  Proof.
    intros Hsize Hreg Hname Hids H.
    apply refresh_inv in H as (fr & ms & ps & qs & _ & H). cbn in H.
    destruct H as [(e & -> & ->)|H]; [split; [by exists e|done]|].
    unfold capture_phase, mbind at 1, M_bind at 1, get in H. cbn in H.
    rewrite decide_False in H by done.
    rewrite capture_loop_flat in H.
    rewrite <- (with_capture_same (with_poses _ _ _)) in H.
    pose proof (post_run _ _ _ _ _
      (capture_loop_missing sim _ _ _ _ name Hname) H)
      as (out' & inf' & -> & Hn & Hs & Hr).
    split_and!; [|cbn; by rewrite Hs|done|done].
    apply Hr. destruct env_ids as [|i env_ids]; [done|].
    exists annotators, i. apply capture_items_elem. split; [done|left].
  Qed.
End partial_allocation.

(** The first refresh of a batch with two data types, with a backend that
    fails for the second type: the buffer of the first type is there, the
    refresh has raised, and the next refresh, with a backend that answers
    every read, raises too. *)
Lemma partial_allocation_is_never_completed_witness :
  ∃ c1 r c2,
    _update_buffers_impl (Examples.sim2_fail_depth 3) [0]
      Examples.camera2_rgb_depth = (Raise CaptureError, c1) ∧
    output (_data c1) !! "rgb" = Some [Examples.tensor 3; Examples.tensor 3] ∧
    _update_buffers_impl (Examples.sim2 4) [0] c1 = (r, c2) ∧
    (∃ e, r = Raise e) ∧
    output (_data c2) !! "distance_to_image_plane" = None.
Proof.
  destruct (refresh_prefix_total (Examples.sim2_fail_depth 3) [0]
              Examples.camera2_rgb_depth)
    as (s1 & s2 & s3 & H1 & H2 & H3 & Hrun).
  { apply refreshable_two_slots; try reflexivity. set_solver. }
  destruct H1 as (fr & -> & _), H2 as (ms & -> & _), H3 as (ps & qs & -> & _).
  assert (∃ c1,
    _update_buffers_impl (Examples.sim2_fail_depth 3) [0]
      Examples.camera2_rgb_depth = (Raise CaptureError, c1) ∧
    output (_data c1) !! "rgb" = Some [Examples.tensor 3; Examples.tensor 3] ∧
    size (output (_data c1)) ≠ 0 ∧
    ("distance_to_image_plane",
     [MkAnnotator "distance_to_image_plane" NoParams "cuda"
        "/Render/RenderProduct_/World/envs/env_0/Camera";
      MkAnnotator "distance_to_image_plane" NoParams "cuda"
        "/Render/RenderProduct_/World/envs/env_1/Camera"]) ∈ _rep_registry c1 ∧
    output (_data c1) !! "distance_to_image_plane" = None)
    as (c1 & Hc1 & Hrgb & Hsize & Hreg & Hnone).
  { rewrite Hrun. eexists. split; [vm_compute; reflexivity|].
    split_and!.
    - vm_compute. reflexivity.
    - vm_compute. discriminate.
    - vm_compute. set_solver.
    - vm_compute. reflexivity. }
  destruct (_update_buffers_impl (Examples.sim2 4) [0] c1) as [r c2] eqn:H.
  exists c1, r, c2. split_and!; [exact Hc1 | exact Hrgb | exact H | |].
  all: destruct (partial_allocation_is_never_completed (Examples.sim2 4) [0] c1
              r c2 _ _ Hsize Hreg Hnone ltac:(discriminate) H)
         as (He & _ & _ & Hn).
  - exact He.
  - exact Hn.
Defined.

(** * Setting poses, then refreshing *)

Section set_then_refresh.
Context {Base : Type}.
Implicit Types s : @Camera Base.

  (** X13. Poses written with [set_world_poses] for all slots are what
      the next refresh reads back: on a batch with a view over [n]
      distinct prims, after the positions [ps] and the orientations [qs]
      (given in [convention]) have been set without indices, a refresh
      that returns stores for every requested slot [i] the position
      [ps[i]] and the orientation [qs[i]] converted from [convention] to
      OpenGL and from there to the world convention; orientations given
      in the world convention are read back as they were given. *)
Theorem set_world_poses_then_refresh sim env_ids s s' v n ps qs convention
      (st : Stage) :
    _view s = Some v →
    _ALL_INDICES s = seq 0 n →
    length (view_prims v) = n →
    NoDup (view_prims v) →
    (∀ h, h ∈ view_prims v → is_Some (st !! h)) →
    length ps = n →
    length qs = n →
    stage sim = (set_world_poses s (Some ps) (Some qs) None convention st).2 →
    _update_buffers_impl sim env_ids s = (Ok tt, s') →
    (set_world_poses s (Some ps) (Some qs) None convention st).1 = Ok tt ∧
    ∀ i, i ∈ env_ids →
      pos_w (_data s') !! i = ps !! i ∧
      quat_w_world (_data s') !! i
        = (λ q, convert_orientation_convention
                  (convert_orientation_convention q convention opengl)
                  opengl world) <$> qs !! i ∧
      (convention = world → quat_w_world (_data s') !! i = qs !! i).
  Proof.
    intros Hv Hall Hn Hprims Hst Hps Hqs Hstage Hrun.
    unfold set_world_poses in Hstage |- *. cbn [default] in Hstage |- *.
    rewrite Hv, Hall in Hstage |- *.
    destruct (view_set_world_poses_writes v (Some ps)
                (Some ((λ q, convert_orientation_convention q convention opengl)
                         <$> qs)) (seq 0 n) st)
      as (st' & Hset & _ & Hrows & _).
    { apply NoDup_seq. }
    { done. }
    { intros i Hi%elem_of_seq.
      destruct (lookup_lt_is_Some_2 (view_prims v) i) as [h Hh]; [lia|].
      exists h. split; [done|]. apply Hst. by eapply list_elem_of_lookup_2. }
    { intros ? [= <-]. by rewrite length_seq. }
    { intros ? [= <-]. by rewrite length_fmap, length_seq. }
    rewrite Hset in Hstage |- *. cbn in Hstage. split; [done|].
    intros i Hi.
    destruct (refresh_updates_poses sim env_ids s s' Hrun i Hi)
      as (p & (v' & h & Hv' & Hh & Hp) & Hpos & Hquat).
    rewrite Hv in Hv'. injection Hv' as <-.
    assert (i < n) as Hlt by (apply lookup_lt_Some in Hh; lia).
    destruct (Hrows i i h) as (p0 & _ & Hp'); [|done|].
    { apply lookup_seq. split; [done|lia]. }
    rewrite Hstage, Hp' in Hp. injection Hp as <-.
    destruct (lookup_lt_is_Some_2 ps i) as [x Hx]; [lia|].
    destruct (lookup_lt_is_Some_2 qs i) as [q Hq]; [lia|].
    cbn in Hpos, Hquat. rewrite list_lookup_fmap, Hq in Hquat.
    rewrite Hx in Hpos. cbn in Hpos, Hquat.
    rewrite Hpos, Hquat, Hx, Hq. split_and!; [done..|].
    intros ->. cbn. by rewrite convert_round_trip.
  Qed.
End set_then_refresh.

Lemma set_world_poses_then_refresh_witness :
  ∃ c2,
    set_world_poses Examples.camera2 (Some [Vec3 1 2 3; Vec3 4 5 6])
      (Some [Quat 1 0 0 0; Quat 0 0 0 1]) None world Examples.stage2
    = (Ok tt, Examples.stage2_posed) ∧
    _update_buffers_impl (Examples.sim2_posed 1) [0; 1] Examples.camera2
    = (Ok tt, c2) ∧
    pos_w (_data c2) !! 1 = Some (Vec3 4 5 6) ∧
    quat_w_world (_data c2) !! 1 = Some (Quat 0 0 0 1).
Proof.
  assert (∃ c2, _update_buffers_impl (Examples.sim2_posed 1) [0; 1]
                  Examples.camera2 = (Ok tt, c2)) as [c2 Hc2].
  { destruct (refresh_prefix_total (Examples.sim2_posed 1) [0; 1]
                Examples.camera2) as (s1 & s2 & s3 & H1 & H2 & H3 & Hrun).
    { split_and!; [discriminate | by eexists |].
      intros i Hi.
      assert (lens_ok Examples.lens_24_36) as Hlens.
      { split; cbn; intros H; lra. }
      apply elem_of_cons in Hi as [->|Hi];
        [|apply list_elem_of_singleton in Hi as ->].
      - split_and!; [lazy; lia..| |].
        + eexists. split; [exists 0; split; reflexivity | exact Hlens].
        + eexists. by exists (MkView [0; 1]), 0.
      - split_and!; [lazy; lia..| |].
        + eexists. split; [exists 1; split; reflexivity | exact Hlens].
        + eexists. by exists (MkView [0; 1]), 1. }
    destruct H1 as (fr & -> & _), H2 as (ms & -> & _), H3 as (ps & qs & -> & _).
    rewrite Hrun. eexists. lazy. reflexivity. }
  exists c2. split; [reflexivity|]. split; [exact Hc2|].
  destruct (set_world_poses_then_refresh (Examples.sim2_posed 1) [0; 1]
              Examples.camera2 c2 (MkView [0; 1]) 2
              [Vec3 1 2 3; Vec3 4 5 6] [Quat 1 0 0 0; Quat 0 0 0 1] world
              Examples.stage2) as [_ Hread]; try reflexivity; try done.
  - repeat constructor; set_solver.
  - intros h Hh. cbn in Hh.
    apply elem_of_cons in Hh as [->|Hh]; [by eexists|].
    apply list_elem_of_singleton in Hh as ->. by eexists.
  - destruct (Hread 1) as (Hpos & _ & Hquat); [set_solver|].
    split; [exact Hpos | by apply Hquat].
Defined.
